(** * GPflow likelihoods

    A shallow embedding of [gpflow/likelihoods.py].

    Tensors of rank two are lists of rows.  Floating point numbers are
    idealised as real numbers ([R]), whose [ln], [sqrt] and division are
    total; the parts of the development that do not compute with numbers
    (the row dispatch of the switched likelihood) are generic in the scalar
    type.  Python exceptions and failing TensorFlow assertions are values of
    the error monad [result]. *)

From Stdlib Require Import Reals Lra Lia ZArith String Sorting.Sorted.
From stdpp Require Import base list.

Set Default Proof Using "Type".

(** ** Failures *)

Inductive exn : Set :=
  | NotImplementedError
  | InvalidArgumentError
  | TypeError
  | AttributeError
  | IndexError
  | ValueError.

Inductive result (A : Type) : Type :=
  | Ok (a : A)
  | Raise (e : exn).

Arguments Ok {A} a.
Arguments Raise {A} e.

#[global] Instance result_ret : MRet result := fun A a => Ok a.
#[global] Instance result_bind : MBind result := fun A B f m =>
  match m with
  | Ok a => f a
  | Raise e => Raise e
  end.

(** A rank-two tensor, as the list of its rows. *)
Abbreviation matrix T := (list (list T)).

(** ** The tensor primitives the module consumes *)

Module tf.

(** The rows of [data] whose partition number is [k], in input order. *)
Fixpoint gather_part {A} (k : Z) (partitions : list Z) (data : list A) : list A :=
  match partitions, data with
  | p :: ps, x :: xs =>
      if Z.eqb p k then x :: gather_part k ps xs else gather_part k ps xs
  | _, _ => []
  end.

Definition in_range (num : nat) (p : Z) : bool :=
  (Z.leb 0 p && Z.ltb p (Z.of_nat num))%bool.

(** [tf.dynamic_partition(data, partitions, num)]: [num] outputs, output
    [k] holding the rows of [data] with partition number [k].  The op fails
    when the leading shapes differ or a partition number is outside
    [0, num). *)
Definition dynamic_partition {A} (data : list A) (partitions : list Z) (num : nat)
  : result (list (list A)) :=
  if negb (Nat.eqb (length data) (length partitions)) then Raise InvalidArgumentError
  else if forallb (in_range num) partitions
  then Ok (map (fun k => gather_part (Z.of_nat k) partitions data) (seq 0 num))
  else Raise InvalidArgumentError.

(** [merged[idx[i]] = vals[i]], in the order of [i]. *)
Fixpoint scatter {A} (idx : list nat) (vals : list A) (merged : list A) : list A :=
  match idx, vals with
  | i :: idx', v :: vals' => scatter idx' vals' (<[i := v]> merged)
  | _, _ => merged
  end.

(** The pieces written one after the other. *)
Definition stitch_all {A} (ps : list (list nat * list A)) (merged : list A) : list A :=
  fold_left (fun merged p => scatter (fst p) (snd p) merged) ps merged.

Definition stitch_size (indices : list (list nat)) : nat :=
  foldr Nat.max 0%nat (map S (mjoin indices)).

Definition same_lengths {B} (indices : list (list nat)) (data : list (list B)) : bool :=
  (Nat.eqb (length indices) (length data)
   && forallb (fun p => Nat.eqb (length (fst p)) (length (snd p))) (zip indices data))%bool.

(** All rows of all the pieces have one width (the trailing shape of the
    pieces of a stitch must agree). *)
Definition uniform_width {T} (data : list (matrix T)) : bool :=
  match mjoin data with
  | [] => true
  | row :: rows => forallb (fun r => Nat.eqb (length r) (length row)) rows
  end.

(** [tf.dynamic_stitch(indices, data)] on pieces that are matrices:
    [merged[indices[m][i]] = data[m][i]], the merged tensor having
    [max(indices) + 1] rows; later pieces win.  [unset] stands for the
    content of a row no index refers to. *)
Definition dynamic_stitch {T} (unset : list T)
    (indices : list (list nat)) (data : list (matrix T)) : result (matrix T) :=
  if negb (same_lengths indices data) then Raise InvalidArgumentError
  else if negb (uniform_width data) then Raise InvalidArgumentError
  else Ok (stitch_all (zip indices data) (replicate (stitch_size indices) unset)).

(** [tf.range(0, n)] *)
Definition range (n : nat) : list nat := seq 0 n.

(** [tf.concat(values, 1)]: the matrices side by side; all of them must
    have the same number of rows. *)
Fixpoint concat1 {T} (values : list (matrix T)) : result (matrix T) :=
  match values with
  | [] => Raise InvalidArgumentError
  | [m] => Ok m
  | m :: ms =>
      rest ← concat1 ms;
      if Nat.eqb (length m) (length rest) then Ok (zip_with app m rest)
      else Raise InvalidArgumentError
  end.

(** [tf.one_hot(i, depth, on, off)] for one index; an index outside
    [0, depth) leaves every position off. *)
Definition one_hot {T} (i : Z) (depth : nat) (on off : T) : list T :=
  map (fun j => if Z.eqb (Z.of_nat j) i then on else off) (seq 0 depth).

(** A binary operation along one axis, with broadcasting: the lengths
    agree or one of them is 1. *)
Definition broadcast {X Y Z} (f : X -> Y -> result Z) (a : list X) (b : list Y)
  : result (list Z) :=
  if Nat.eqb (length a) (length b) then mapM (fun p => f (fst p) (snd p)) (zip a b)
  else match a, b with
       | [x], _ => mapM (f x) b
       | _, [y] => mapM (fun x => f x y) a
       | _, _ => Raise InvalidArgumentError
       end.

(** Elementwise operations on matrices. *)
Definition map2M {X Y Z} (f : X -> Y -> result Z) (A : matrix X) (B : matrix Y)
  : result (matrix Z) :=
  broadcast (broadcast f) A B.

Definition map2 {X Y Z} (f : X -> Y -> Z) (A : matrix X) (B : matrix Y)
  : result (matrix Z) :=
  map2M (fun x y => Ok (f x y)) A B.

Definition map1 {X Y} (f : X -> Y) (A : matrix X) : matrix Y :=
  map (map f) A.

(** [tf.gather(params, indices)] for a matrix of indices: the entry of
    [params] at each index; an index outside [0, len(params)) is refused. *)
Definition gather {X} (params : list X) (indices : matrix Z) : result (matrix X) :=
  mapM (mapM (fun i =>
                if Z.ltb i 0 then Raise InvalidArgumentError
                else match params !! Z.to_nat i with
                     | Some x => Ok x
                     | None => Raise InvalidArgumentError
                     end))
       indices.

(** [tf.shape(M)[1] == n], on a matrix given by its rows. *)
Definition shape1_is {X} (M : matrix X) (n : nat) : bool :=
  forallb (fun row => Nat.eqb (length row) n) M.

End tf.

(** Python's [zip( *lists )]: the tuples of the j-th elements, as long as
    every list has one. *)
Fixpoint zip_star {A} (ls : list (list A)) : list (list A) :=
  match ls with
  | [] => []
  | [l] => map (fun x => [x]) l
  | l :: ls' => zip_with cons l (zip_star ls')
  end.

(** ** The likelihood interface and the switched likelihood *)

(** The operations a likelihood object answers to. *)
Record Likelihood (T : Type) : Type := {
  logp : matrix T -> matrix T -> result (matrix T);
  conditional_mean : matrix T -> result (matrix T);
  conditional_variance : matrix T -> result (matrix T);
  predict_mean_and_var : matrix T -> matrix T -> result (matrix T * matrix T);
  predict_density : matrix T -> matrix T -> matrix T -> result (matrix T);
  variational_expectations : matrix T -> matrix T -> matrix T -> result (matrix T)
}.

Arguments logp {T} _ _ _.
Arguments conditional_mean {T} _ _.
Arguments conditional_variance {T} _ _.
Arguments predict_mean_and_var {T} _ _ _.
Arguments predict_density {T} _ _ _ _.
Arguments variational_expectations {T} _ _ _ _.

Section Helpers.
(** The scalar type of the tensors. *)
Context {T : Type}.

(** [getattr(lik, func_name)], applied to the argument list with [f( *args)]. *)
Definition getattr (lik : Likelihood T) (func_name : string)
  : result (list (matrix T) -> result (matrix T)) :=
  if String.eqb func_name "logp" then
    Ok (fun args => match args with
                    | [F; Y] => logp lik F Y
                    | _ => Raise TypeError
                    end)
  else if String.eqb func_name "predict_density" then
    Ok (fun args => match args with
                    | [Fmu; Fvar; Y] => predict_density lik Fmu Fvar Y
                    | _ => Raise TypeError
                    end)
  else if String.eqb func_name "variational_expectations" then
    Ok (fun args => match args with
                    | [Fmu; Fvar; Y] => variational_expectations lik Fmu Fvar Y
                    | _ => Raise TypeError
                    end)
  else Raise AttributeError.

(** [Y[:, -1]] *)
Definition last_column (Y : matrix T) : result (list T) :=
  mapM (fun row => match last row with
                   | Some x => Ok x
                   | None => Raise IndexError
                   end) Y.

(** [Y[:, :-1]] *)
Definition strip_last_column (Y : matrix T) : matrix T := map (@removelast T) Y.

(** [args[-1]] and [args[-1] = Y] *)
Definition last_arg (args : list (matrix T)) : result (matrix T) :=
  match last args with
  | Some Y => Ok Y
  | None => Raise IndexError
  end.

Definition set_last_arg (args : list (matrix T)) (Y : matrix T) : list (matrix T) :=
  <[pred (length args) := Y]> args.

End Helpers.

Module SwitchedLikelihood.
Section Methods.
(** The scalar type of the tensors and the cast [tf.cast(_, tf.int32)]. *)
Context {T : Type}.
Variable cast_int32 : T -> Z.

Record t : Type := {
  likelihood_list : list (Likelihood T)
}.

Definition num_likelihoods (self : t) : nat :=
  length (likelihood_list self).

Definition _partition_and_stitch (self : t)
    (args : list (matrix T)) (func_name : string) : result (matrix T) :=
  (* get the index from Y *)
  Y ← last_arg args;
  ind ← last_column Y;
  let ind := map cast_int32 ind in
  let Y := strip_last_column Y in
  let args := set_last_arg args Y in
  (* split up the arguments into chunks corresponding to the relevant likelihoods *)
  parts ← mapM (fun X => tf.dynamic_partition X ind (num_likelihoods self)) args;
  let args := zip_star parts in
  (* apply the likelihood-function to each section of the data *)
  funcs ← mapM (fun lik => getattr lik func_name) (likelihood_list self);
  results ← mapM (fun fa => fst fa (snd fa)) (zip funcs args);
  (* stitch the results back together *)
  partitions ← tf.dynamic_partition (tf.range (length ind)) ind (num_likelihoods self);
  tf.dynamic_stitch [] partitions results.

Definition predict_mean_and_var (self : t) (Fmu Fvar : matrix T)
  : result (matrix T * matrix T) :=
  mvs ← mapM (fun lik => predict_mean_and_var lik Fmu Fvar) (likelihood_list self);
  (* [zip( *mvs )] unpacked into two names *)
  (if Nat.eqb (length mvs) 0 then Raise ValueError else Ok tt) ;;
  let mu_list := map fst mvs in
  let var_list := map snd mvs in
  mu ← tf.concat1 mu_list;
  var ← tf.concat1 var_list;
  Ok (mu, var).

Definition logp (self : t) (F Y : matrix T) : result (matrix T) :=
  _partition_and_stitch self [F; Y] "logp".

Definition predict_density (self : t) (Fmu Fvar Y : matrix T) : result (matrix T) :=
  _partition_and_stitch self [Fmu; Fvar; Y] "predict_density".

Definition variational_expectations (self : t) (Fmu Fvar Y : matrix T)
  : result (matrix T) :=
  _partition_and_stitch self [Fmu; Fvar; Y] "variational_expectations".

End Methods.
End SwitchedLikelihood.

(** The position of row [i] inside its own partition: the number of
    earlier rows with the same index. *)
Definition rank (k : Z) (ind : list Z) (i : nat) : nat :=
  length (tf.gather_part k (take i ind) (take i ind)).

(** A two-likelihood composite on integer tensors, with children that can
    be told apart: the first adds [Y] to [F], the second multiplies them. *)
Module SwitchedExample.

Definition elementwise (f : Z -> Z -> Z) (F Y : matrix Z) : result (matrix Z) :=
  Ok (zip_with (zip_with f) F Y).

Definition child (f : Z -> Z -> Z) : Likelihood Z := {|
  logp := elementwise f;
  conditional_mean := fun F => Ok F;
  conditional_variance := fun F => Ok F;
  predict_mean_and_var := fun Fmu Fvar => Ok (Fmu, Fvar);
  predict_density := fun Fmu _ Y => elementwise f Fmu Y;
  variational_expectations := fun Fmu _ Y => elementwise f Fmu Y
|}.

(** On integer tensors the cast to [tf.int32] changes nothing. *)
Definition cast (z : Z) : Z := z.

Definition composite : SwitchedLikelihood.t :=
  {| SwitchedLikelihood.likelihood_list := [child Z.add; child Z.mul] |}.

Definition F : matrix Z := [[10]; [20]; [30]; [40]; [50]]%Z.

(** The last column holds the interleaved indices 0, 1, 0, 1, 0. *)
Definition Y : matrix Z := [[1; 0]; [2; 1]; [3; 0]; [4; 1]; [5; 0]]%Z.

End SwitchedExample.

(** ** Real-valued tensors *)

Local Open Scope R_scope.

(** The numeric primitives without a counterpart among the standard real
    functions: [tf.erf], [tf.lgamma], and the Gauss-Hermite nodes and
    weights [hermgauss(n)] that [gpflow.quadrature] takes from numpy. *)
Class Runtime : Type := {
  erf : R -> R;
  lgamma : R -> R;
  hermgauss : nat -> list R * list R
}.

Definition Rsum (l : list R) : R := foldr Rplus 0 l.

(** [tf.cast(x, tf.int64)] of a float: the fractional part is dropped. *)
Definition cast_int64 (x : R) : Z :=
  if Rle_dec 0 x then Int_part x else (- Int_part (- x))%Z.

(** A parameter value as a tensor that broadcasts against any matrix. *)
Definition scalar (x : R) : matrix R := [[x]].

(** Entry [(i, j)] of a matrix. *)
Definition entry {X} (M : matrix X) (i j : nat) : option X :=
  match M !! i with
  | Some row => row !! j
  | None => None
  end.

Definition same_shape {X Y} (A : matrix X) (B : matrix Y) : Prop :=
  Forall2 (fun a b => length a = length b) A B.

Definition nonnegative (M : matrix R) : Prop :=
  Forall (Forall (fun x => 0 <= x)) M.

(** *** The log-density primitives *)

Module logdensities.
Section Densities.
Context {rt : Runtime}.

(** Modelled from the spec: the primitive [gaussian] of
    [gpflow.logdensities], which is not among the sources; the log-density
    of a normal distribution with mean [mu] and variance [var] at [x]. *)
Definition gaussian (x mu var : matrix R) : result (matrix R) :=
  d ← tf.map2 Rminus mu x;
  q ← tf.map2 Rdiv (tf.map1 Rsqr d) var;
  s ← tf.map2 Rplus (tf.map1 (fun v => ln (2 * PI) + ln v) var) q;
  Ok (tf.map1 (fun t => -0.5 * t) s).

(** Modelled from the spec: the primitive [poisson] of
    [gpflow.logdensities]; the log-mass of a Poisson distribution with rate
    [lam] at [x]. *)
Definition poisson (x lam : matrix R) : result (matrix R) :=
  a ← tf.map2 (fun x l => x * ln l - l) x lam;
  tf.map2 Rminus a (tf.map1 (fun x => lgamma (x + 1)) x).

(** Modelled from the spec: the primitive [bernoulli] of
    [gpflow.logdensities]; the log-mass of a Bernoulli distribution with
    success probability [p] at [x]. *)
Definition bernoulli (x p : matrix R) : result (matrix R) :=
  tf.map2 (fun x p => ln (if Req_dec_T x 1 then p else 1 - p)) x p.

(** Modelled from the spec: the primitive [gamma] of
    [gpflow.logdensities]; the log-density of a Gamma distribution with the
    given shape and scale at [x]. *)
Definition gamma (x : matrix R) (shape : R) (scale : matrix R) : result (matrix R) :=
  let a := tf.map1 (fun s => - shape * ln s - lgamma shape) scale in
  b ← tf.map2 Rplus a (tf.map1 (fun x => (shape - 1) * ln x) x);
  c ← tf.map2 Rdiv x scale;
  tf.map2 Rminus b c.

End Densities.
End logdensities.

(** *** The quadrature engine *)

Module quadrature.
Section Engine.
Context {rt : Runtime}.

Definition scalar_of (M : matrix R) : result R :=
  match M with
  | [[v]] => Ok v
  | _ => Raise InvalidArgumentError
  end.

(** Modelled from the spec: the [n]-point Gauss-Hermite rule against the
    normal distribution with mean [mu] and variance [var]: the integrand at
    the points [mu + sqrt(2 var) x_i], weighted by [w_i / sqrt(pi)] and
    summed; in log-space the integrand returns logarithms and the sum is a
    log-sum-exp. *)
Definition gauss_hermite (n : nat) (logspace : bool) (g : R -> result R)
    (mu var : R) : result R :=
  let gh := hermgauss n in
  vals ← mapM (fun x => g (mu + sqrt (2 * var) * x)) (fst gh);
  let terms :=
    zip_with (fun w v => w / sqrt PI * (if logspace then exp v else v)) (snd gh) vals in
  Ok (if logspace then ln (Rsum terms) else Rsum terms).

(** Modelled from the spec: [ndiagquad(func, H, Fmu, Fvar, logspace)] of
    [gpflow.quadrature], which is not among the sources: the rule applied
    for each (batch, dimension) pair. *)
Definition ndiagquad (func : matrix R -> result (matrix R)) (H : nat)
    (Fmu Fvar : matrix R) (logspace : bool) : result (matrix R) :=
  tf.map2M
    (fun mu var => gauss_hermite H logspace (fun f => func [[f]] ≫= scalar_of) mu var)
    Fmu Fvar.

(** Modelled from the spec: [ndiagquad(func, H, Fmu, Fvar, logspace, Y=Y)],
    the observed datum of each pair being handed to the integrand. *)
Definition ndiagquad_Y (func : matrix R -> matrix R -> result (matrix R)) (H : nat)
    (Fmu Fvar : matrix R) (logspace : bool) (Y : matrix R) : result (matrix R) :=
  MV ← tf.map2M (fun mu var => Ok (mu, var)) Fmu Fvar;
  tf.map2M
    (fun mv y => gauss_hermite H logspace (fun f => func [[f]] [[y]] ≫= scalar_of)
                   (fst mv) (snd mv))
    MV Y.

End Engine.
End quadrature.

(** ** The likelihoods *)

(** *** Inverse links *)

Section InverseLinks.
Context {rt : Runtime}.

Definition inv_probit (x : R) : R :=
  let jitter := 1e-3 in  (* ensures output is strictly between 0 and 1 *)
  0.5 * (1.0 + erf (x / sqrt 2.0)) * (1 - 2 * jitter) + jitter.

(** The inverse link handed to a constructor: the object [tf.exp], the
    object [inv_probit], or any other elementwise callable.  The methods
    compare it by identity ([is]), so a callable that happens to compute the
    exponential is still another object. *)
Inductive inverse_link : Type :=
  | tf_exp
  | inv_probit_fn
  | callable (g : R -> R).

Definition is_tf_exp (l : inverse_link) : bool :=
  match l with tf_exp => true | _ => false end.

Definition is_inv_probit (l : inverse_link) : bool :=
  match l with inv_probit_fn => true | _ => false end.

Definition call (l : inverse_link) (x : R) : R :=
  match l with
  | tf_exp => exp x
  | inv_probit_fn => inv_probit x
  | callable g => g x
  end.

(** [self.invlink(F)] *)
Definition apply_invlink (l : inverse_link) (F : matrix R) : matrix R :=
  tf.map1 (call l) F.

End InverseLinks.

(** *** The base class: the generic operations *)

Module Likelihood.
Section Generic.
Context {rt : Runtime}.

(** [Likelihood.__init__] *)
Definition num_gauss_hermite_points : nat := 20.

Definition predict_mean_and_var
    (conditional_mean conditional_variance : matrix R -> result (matrix R))
    (num_gauss_hermite_points : nat) (Fmu Fvar : matrix R)
  : result (matrix R * matrix R) :=
  let integrand2 X :=
    v ← conditional_variance X;
    m ← conditional_mean X;
    tf.map2 Rplus v (tf.map1 Rsqr m) in
  E_y ← quadrature.ndiagquad conditional_mean num_gauss_hermite_points Fmu Fvar false;
  E_y2 ← quadrature.ndiagquad integrand2 num_gauss_hermite_points Fmu Fvar false;
  V_y ← tf.map2 Rminus E_y2 (tf.map1 Rsqr E_y);
  Ok (E_y, V_y).

Definition predict_density
    (logp : matrix R -> matrix R -> result (matrix R))
    (num_gauss_hermite_points : nat) (Fmu Fvar Y : matrix R) : result (matrix R) :=
  quadrature.ndiagquad_Y logp num_gauss_hermite_points Fmu Fvar true Y.

Definition variational_expectations
    (logp : matrix R -> matrix R -> result (matrix R))
    (num_gauss_hermite_points : nat) (Fmu Fvar Y : matrix R) : result (matrix R) :=
  quadrature.ndiagquad_Y logp num_gauss_hermite_points Fmu Fvar false Y.

End Generic.
End Likelihood.

(** *** Gaussian *)

Module Gaussian.
Section Methods.
Context {rt : Runtime}.

Record t : Type := {
  variance : R;
  num_gauss_hermite_points : nat
}.

Definition __init__ (variance : R) : t :=
  {| variance := variance;
     num_gauss_hermite_points := Likelihood.num_gauss_hermite_points |}.

Definition logp (self : t) (F Y : matrix R) : result (matrix R) :=
  logdensities.gaussian Y F (scalar (variance self)).

Definition conditional_mean (self : t) (F : matrix R) : result (matrix R) :=
  Ok F.

Definition conditional_variance (self : t) (F : matrix R) : result (matrix R) :=
  Ok (tf.map1 (fun _ => variance self) F).

Definition predict_mean_and_var (self : t) (Fmu Fvar : matrix R)
  : result (matrix R * matrix R) :=
  v ← tf.map2 Rplus Fvar (scalar (variance self));
  Ok (Fmu, v).

Definition predict_density (self : t) (Fmu Fvar Y : matrix R) : result (matrix R) :=
  v ← tf.map2 Rplus Fvar (scalar (variance self));
  logdensities.gaussian Y Fmu v.

Definition variational_expectations (self : t) (Fmu Fvar Y : matrix R)
  : result (matrix R) :=
  d ← tf.map2 Rminus Y Fmu;
  s ← tf.map2 Rplus (tf.map1 Rsqr d) Fvar;
  Ok (tf.map1 (fun s => -0.5 * ln (2 * PI) - 0.5 * ln (variance self)
                        - 0.5 * s / variance self) s).

End Methods.
End Gaussian.

(** *** Poisson *)

Module Poisson.
Section Methods.
Context {rt : Runtime}.

Record t : Type := {
  invlink : inverse_link;
  binsize : R;
  num_gauss_hermite_points : nat
}.

Definition __init__ (invlink : inverse_link) (binsize : R) : t :=
  {| invlink := invlink;
     binsize := binsize;
     num_gauss_hermite_points := Likelihood.num_gauss_hermite_points |}.

Definition logp (self : t) (F Y : matrix R) : result (matrix R) :=
  logdensities.poisson Y
    (tf.map1 (fun g => g * binsize self) (apply_invlink (invlink self) F)).

Definition conditional_variance (self : t) (F : matrix R) : result (matrix R) :=
  Ok (tf.map1 (fun g => g * binsize self) (apply_invlink (invlink self) F)).

Definition conditional_mean (self : t) (F : matrix R) : result (matrix R) :=
  Ok (tf.map1 (fun g => g * binsize self) (apply_invlink (invlink self) F)).

Definition variational_expectations (self : t) (Fmu Fvar Y : matrix R)
  : result (matrix R) :=
  if is_tf_exp (invlink self) then
    a ← tf.map2 Rmult Y Fmu;
    e ← tf.map2 Rplus Fmu (tf.map1 (fun v => v / 2) Fvar);
    b ← tf.map2 Rminus a (tf.map1 (fun e => exp e * binsize self) e);
    c ← tf.map2 Rminus b (tf.map1 (fun y => lgamma (y + 1)) Y);
    tf.map2 Rplus c (tf.map1 (fun y => y * ln (binsize self)) Y)
  else
    Likelihood.variational_expectations (logp self)
      (num_gauss_hermite_points self) Fmu Fvar Y.

End Methods.
End Poisson.

(** *** Exponential *)

Module Exponential.
Section Methods.
Context {rt : Runtime}.

Record t : Type := {
  invlink : inverse_link;
  num_gauss_hermite_points : nat
}.

Definition conditional_mean (self : t) (F : matrix R) : result (matrix R) :=
  Ok (apply_invlink (invlink self) F).

Definition conditional_variance (self : t) (F : matrix R) : result (matrix R) :=
  Ok (tf.map1 Rsqr (apply_invlink (invlink self) F)).

End Methods.
End Exponential.

(** *** Student-T *)

Module StudentT.

Record t : Type := {
  scale : R;
  df : R;
  num_gauss_hermite_points : nat
}.

Definition conditional_mean (self : t) (F : matrix R) : result (matrix R) :=
  Ok F.

Definition conditional_variance (self : t) (F : matrix R) : result (matrix R) :=
  let var := (scale self) ^ 2 * (df self / (df self - 2.0)) in
  Ok (tf.map1 (fun _ => var) F).

End StudentT.

(** *** Bernoulli *)

Module Bernoulli.
Section Methods.
Context {rt : Runtime}.

Record t : Type := {
  invlink : inverse_link;
  num_gauss_hermite_points : nat
}.

Definition __init__ (invlink : inverse_link) : t :=
  {| invlink := invlink;
     num_gauss_hermite_points := Likelihood.num_gauss_hermite_points |}.

Definition logp (self : t) (F Y : matrix R) : result (matrix R) :=
  logdensities.bernoulli Y (apply_invlink (invlink self) F).

Definition conditional_mean (self : t) (F : matrix R) : result (matrix R) :=
  Ok (apply_invlink (invlink self) F).

Definition conditional_variance (self : t) (F : matrix R) : result (matrix R) :=
  p ← conditional_mean self F;
  tf.map2 Rminus p (tf.map1 Rsqr p).

Definition predict_mean_and_var (self : t) (Fmu Fvar : matrix R)
  : result (matrix R * matrix R) :=
  if is_inv_probit (invlink self) then
    q ← tf.map2 Rdiv Fmu (tf.map1 (fun v => sqrt (1 + v)) Fvar);
    let p := tf.map1 inv_probit q in
    v ← tf.map2 Rminus p (tf.map1 Rsqr p);
    Ok (p, v)
  else
    (* for other invlink, use quadrature *)
    Likelihood.predict_mean_and_var (conditional_mean self)
      (conditional_variance self) (num_gauss_hermite_points self) Fmu Fvar.

Definition predict_density (self : t) (Fmu Fvar Y : matrix R) : result (matrix R) :=
  pv ← predict_mean_and_var self Fmu Fvar;
  let p := fst pv in
  logdensities.bernoulli Y p.

End Methods.
End Bernoulli.

(** *** Gamma *)

Module Gamma.
Section Methods.
Context {rt : Runtime}.

Record t : Type := {
  invlink : inverse_link;
  shape : R;
  num_gauss_hermite_points : nat
}.

Definition __init__ (invlink : inverse_link) : t :=
  {| invlink := invlink;
     shape := 1.0;
     num_gauss_hermite_points := Likelihood.num_gauss_hermite_points |}.

Definition conditional_mean (self : t) (F : matrix R) : result (matrix R) :=
  Ok (tf.map1 (fun g => shape self * g) (apply_invlink (invlink self) F)).

Definition conditional_variance (self : t) (F : matrix R) : result (matrix R) :=
  let scale := apply_invlink (invlink self) F in
  Ok (tf.map1 (fun s => shape self * Rsqr s) scale).

Definition logp (self : t) (F Y : matrix R) : result (matrix R) :=
  logdensities.gamma Y (shape self) (apply_invlink (invlink self) F).

Definition variational_expectations (self : t) (Fmu Fvar Y : matrix R)
  : result (matrix R) :=
  if is_tf_exp (invlink self) then
    let a := tf.map1 (fun m => - shape self * m - lgamma (shape self)) Fmu in
    b ← tf.map2 Rplus a (tf.map1 (fun y => (shape self - 1) * ln y) Y);
    e ← tf.map2 Rplus (tf.map1 Ropp Fmu) (tf.map1 (fun v => v / 2) Fvar);
    c ← tf.map2 Rmult Y (tf.map1 exp e);
    tf.map2 Rminus b c
  else
    Likelihood.variational_expectations (logp self)
      (num_gauss_hermite_points self) Fmu Fvar Y.

End Methods.
End Gamma.

(** *** Beta *)

Module Beta.
Section Methods.
Context {rt : Runtime}.

Record t : Type := {
  invlink : inverse_link;
  scale : R;
  num_gauss_hermite_points : nat
}.

Definition conditional_mean (self : t) (F : matrix R) : result (matrix R) :=
  Ok (apply_invlink (invlink self) F).

Definition conditional_variance (self : t) (F : matrix R) : result (matrix R) :=
  let mean := apply_invlink (invlink self) F in
  d ← tf.map2 Rminus mean (tf.map1 Rsqr mean);
  Ok (tf.map1 (fun d => d / (scale self + 1)) d).

End Methods.
End Beta.

(** *** RobustMax and MultiClass *)

(** [tf.argmax] along a row: the position of the largest entry, the first
    one among equals; an empty row has none. *)
Fixpoint argmax_from (best_i : nat) (best : R) (i : nat) (row : list R) : nat :=
  match row with
  | [] => best_i
  | x :: xs =>
      if Rlt_dec best x then argmax_from i x (S i) xs
      else argmax_from best_i best (S i) xs
  end.

Definition argmax (row : list R) : result nat :=
  match row with
  | [] => Raise InvalidArgumentError
  | x :: xs => Ok (argmax_from 0 x 1 xs)
  end.

Definition Rprod (l : list R) : R := foldr Rmult 1 l.

(** [tf.matmul(M, tf.reshape(v, (-1, 1)))] *)
Definition matvec (M : matrix R) (v : list R) : result (matrix R) :=
  if tf.shape1_is M (length v)
  then Ok (map (fun row => [Rsum (zip_with Rmult row v)]) M)
  else Raise InvalidArgumentError.

Module RobustMax.
Section Methods.
Context {rt : Runtime}.

Record t : Type := {
  epsilon : R;
  num_classes : nat
}.

Definition __init__ (num_classes : nat) (epsilon : R) : t :=
  {| epsilon := epsilon; num_classes := num_classes |}.

Definition _eps_K1 (self : t) : R :=
  epsilon self / (INR (num_classes self) - 1).

Definition __call__ (self : t) (F : matrix R) : result (matrix R) :=
  i ← mapM argmax F;
  Ok (map (fun i => tf.one_hot (Z.of_nat i) (num_classes self)
                      (1 - epsilon self) (_eps_K1 self)) i).

Definition prob_is_largest (self : t) (Y mu var : matrix R) (gh_x gh_w : list R)
  : result (matrix R) :=
  let Y := map cast_int64 (mjoin Y) in
  (* work out what the mean and variance is of the indicated latent function. *)
  let oh_on := map (fun y => tf.one_hot y (num_classes self) 1 0) Y in
  om ← tf.map2 Rmult oh_on mu;
  let mu_selected := map (fun m => [Rsum m]) om in
  ov ← tf.map2 Rmult oh_on var;
  let var_selected := map (fun v => [Rsum v]) ov in
  let oh_off := map (fun y => tf.one_hot y (num_classes self) 0 1) Y in
  (* one column of the Gauss Hermite grid at a time *)
  prods ← mapM (fun x =>
      X ← tf.map2 (fun m v => m + x * sqrt (Rmax (2 * v) 1e-10)) mu_selected var_selected;
      (* the CDF of the Gaussian between the latent functions and the grid *)
      d ← tf.map2 Rminus X mu;
      dist ← tf.map2 Rdiv d (tf.map1 (fun v => sqrt (Rmax v 1e-10)) var);
      let cdfs := tf.map1 (fun d => 0.5 * (1.0 + erf (d / sqrt 2.0))) dist in
      let cdfs := tf.map1 (fun c => c * (1 - 2e-4) + 1e-4) cdfs in
      (* blank out all the distances on the selected latent function *)
      c ← tf.map2 Rmult cdfs oh_off;
      cdfs ← tf.map2 Rplus c oh_on;
      (* the product over the latent functions *)
      Ok (map Rprod cdfs)) gh_x;
  (* the sum over the grid *)
  matvec (zip_star prods) (map (fun w => w / sqrt PI) gh_w).

End Methods.
End RobustMax.

Module MultiClass.
Section Methods.
Context {rt : Runtime}.

(** What [isinstance(invlink, RobustMax)] tells apart. *)
Inductive link : Type :=
  | robustmax (r : RobustMax.t)
  | not_robustmax (g : matrix R -> result (matrix R)).

Record t : Type := {
  num_classes : nat;
  invlink : link;
  num_gauss_hermite_points : nat
}.

Definition __init__ (num_classes : nat) (invlink : option link) : result t :=
  match invlink with
  | None =>
      Ok {| num_classes := num_classes;
            invlink := robustmax (RobustMax.__init__ num_classes 1e-3);
            num_gauss_hermite_points := Likelihood.num_gauss_hermite_points |}
  | Some (robustmax r) =>
      Ok {| num_classes := num_classes;
            invlink := robustmax r;
            num_gauss_hermite_points := Likelihood.num_gauss_hermite_points |}
  | Some (not_robustmax _) => Raise NotImplementedError
  end.

Definition logp (self : t) (F Y : matrix R) : result (matrix R) :=
  match invlink self with
  | robustmax r =>
      am ← mapM argmax F;
      hits ← tf.map2 (fun a y => Z.eqb (Z.of_nat a) (cast_int64 y))
                     (map (fun a => [a]) am) Y;
      let p := tf.map1 (fun hit : bool =>
                          if hit then 1 - RobustMax.epsilon r
                          else RobustMax._eps_K1 r) hits in
      Ok (tf.map1 ln p)
  | not_robustmax _ => Raise NotImplementedError
  end.

Definition variational_expectations (self : t) (Fmu Fvar Y : matrix R)
  : result (matrix R) :=
  match invlink self with
  | robustmax r =>
      let gh := hermgauss (num_gauss_hermite_points self) in
      p ← RobustMax.prob_is_largest r Y Fmu Fvar (fst gh) (snd gh);
      Ok (tf.map1 (fun p => p * ln (1 - RobustMax.epsilon r)
                            + (1 - p) * ln (RobustMax._eps_K1 r)) p)
  | not_robustmax _ => Raise NotImplementedError
  end.

Definition _predict_non_logged_density (self : t) (Fmu Fvar Y : matrix R)
  : result (matrix R) :=
  match invlink self with
  | robustmax r =>
      let gh := hermgauss (num_gauss_hermite_points self) in
      p ← RobustMax.prob_is_largest r Y Fmu Fvar (fst gh) (snd gh);
      Ok (tf.map1 (fun p => p * (1 - RobustMax.epsilon r)
                            + (1 - p) * RobustMax._eps_K1 r) p)
  | not_robustmax _ => Raise NotImplementedError
  end.

Definition predict_mean_and_var (self : t) (Fmu Fvar : matrix R)
  : result (matrix R * matrix R) :=
  match invlink self with
  | robustmax r =>
      (* the density for each possible output *)
      let possible_outputs :=
        map (fun i => map (fun _ => [INR i]) Fmu) (seq 0 (num_classes self)) in
      ps ← mapM (fun po => _predict_non_logged_density self Fmu Fvar po) possible_outputs;
      (if Nat.eqb (length ps) 0 then Raise ValueError else Ok tt) ;;
      let ps := zip_star (map (fun p => mjoin p) ps) in
      v ← tf.map2 Rminus ps (tf.map1 Rsqr ps);
      Ok (ps, v)
  | not_robustmax _ => Raise NotImplementedError
  end.

Definition predict_density (self : t) (Fmu Fvar Y : matrix R) : result (matrix R) :=
  den ← _predict_non_logged_density self Fmu Fvar Y;
  Ok (tf.map1 ln den).

Definition conditional_mean (self : t) (F : matrix R) : result (matrix R) :=
  match invlink self with
  | robustmax r => RobustMax.__call__ r F
  | not_robustmax g => g F
  end.

Definition conditional_variance (self : t) (F : matrix R) : result (matrix R) :=
  p ← conditional_mean self F;
  tf.map2 Rminus p (tf.map1 Rsqr p).

End Methods.
End MultiClass.

(** *** Ordinal *)

(** A bin edge: a real number or one of the two infinities that close the
    outer bins. *)
Inductive edge : Type :=
  | neg_inf
  | finite (x : R)
  | pos_inf.

(** The matrix with the shape of [F] and the entries [v], row after row. *)
Fixpoint reshape_like {X} (F : matrix X) (v : list R) : matrix R :=
  match F with
  | [] => []
  | row :: rows => take (length row) v :: reshape_like rows (drop (length row) v)
  end.

Module Ordinal.
Section Methods.
Context {rt : Runtime}.

Record t : Type := {
  bin_edges : list R;
  num_bins : nat;
  sigma : R;
  num_gauss_hermite_points : nat
}.

Definition __init__ (bin_edges : list R) : t :=
  {| bin_edges := bin_edges;
     num_bins := length bin_edges + 1;
     sigma := 1.0;
     num_gauss_hermite_points := Likelihood.num_gauss_hermite_points |}.

(** [erf] at an edge moved by a finite amount and scaled: the error
    function is 1 at plus infinity and -1 at minus infinity. *)
Definition erf_at (e : edge) (shift : R) : R :=
  match e with
  | neg_inf => -1
  | finite x => erf ((x - shift) / sqrt 2.0)
  | pos_inf => 1
  end.

(** [inv_probit(e - shift)] *)
Definition inv_probit_at (e : edge) (shift : R) : R :=
  let jitter := 1e-3 in
  0.5 * (1.0 + erf_at e shift) * (1 - 2 * jitter) + jitter.

Definition _make_phi (self : t) (F : matrix R) : matrix R :=
  let scaled_bins_left :=
    map (fun a => finite (a / sigma self)) (bin_edges self) ++ [pos_inf] in
  let scaled_bins_right :=
    [neg_inf] ++ map (fun a => finite (a / sigma self)) (bin_edges self) in
  map (fun f =>
         zip_with (fun l r => inv_probit_at l (f / sigma self)
                              - inv_probit_at r (f / sigma self))
                  scaled_bins_left scaled_bins_right)
      (mjoin F).

Definition logp (self : t) (F Y : matrix R) : result (matrix R) :=
  let Y := tf.map1 cast_int64 Y in
  let scaled_bins_left :=
    map (fun a => finite (a / sigma self)) (bin_edges self) ++ [pos_inf] in
  let scaled_bins_right :=
    [neg_inf] ++ map (fun a => finite (a / sigma self)) (bin_edges self) in
  selected_bins_left ← tf.gather scaled_bins_left Y;
  selected_bins_right ← tf.gather scaled_bins_right Y;
  l ← tf.map2 (fun e f => inv_probit_at e (f / sigma self)) selected_bins_left F;
  r ← tf.map2 (fun e f => inv_probit_at e (f / sigma self)) selected_bins_right F;
  d ← tf.map2 Rminus l r;
  Ok (tf.map1 (fun d => ln (d + 1e-6)) d).

Definition conditional_mean (self : t) (F : matrix R) : result (matrix R) :=
  let phi := _make_phi self F in
  let Ys := map INR (seq 0 (num_bins self)) in
  E_y ← matvec phi Ys;
  Ok (reshape_like F (mjoin E_y)).

Definition conditional_variance (self : t) (F : matrix R) : result (matrix R) :=
  let phi := _make_phi self F in
  let Ys := map INR (seq 0 (num_bins self)) in
  E_y ← matvec phi Ys;
  E_y2 ← matvec phi (map Rsqr Ys);
  d ← tf.map2 Rminus E_y2 (tf.map1 Rsqr E_y);
  Ok (reshape_like F (mjoin d)).

End Methods.
End Ordinal.

(** *** SoftMax *)

(** The class number an integer label stands for. *)
Definition as_index (y : R) : option nat :=
  let z := Int_part y in
  if Req_dec_T (IZR z) y then (if Z.leb 0 z then Some (Z.to_nat z) else None)
  else None.

(** [tf.nn.sparse_softmax_cross_entropy_with_logits]: per row, the negative
    logarithm of the softmax probability of the labelled class; a label
    that is no class of the row is refused. *)
Definition sparse_softmax_cross_entropy_with_logits
    (logits : matrix R) (labels : list R) : result (list R) :=
  if negb (Nat.eqb (length logits) (length labels)) then Raise InvalidArgumentError
  else mapM (fun p =>
               match as_index (snd p) ≫= fun i => fst p !! i with
               | Some x => Ok (ln (Rsum (map exp (fst p))) - x)
               | None => Raise InvalidArgumentError
               end) (zip logits labels).

(** [tf.nn.softmax] *)
Definition softmax (F : matrix R) : matrix R :=
  map (fun row => map (fun x => exp x / Rsum (map exp row)) row) F.

Module SoftMax.

Record t : Type := {
  num_classes : nat;
  num_monte_carlo_points : nat
}.

Definition __init__ (num_classes : nat) : t :=
  {| num_classes := num_classes; num_monte_carlo_points := 100 |}.

Definition logp (self : t) (F Y : matrix R) : result (matrix R) :=
  if negb (tf.shape1_is Y 1) then Raise InvalidArgumentError
  else if negb (tf.shape1_is F (num_classes self)) then Raise InvalidArgumentError
  else
    labels ← mapM (fun row => match row with
                              | y :: _ => Ok y
                              | [] => Raise IndexError
                              end) Y;
    ce ← sparse_softmax_cross_entropy_with_logits F labels;
    Ok (map (fun c => [- c]) ce).

Definition conditional_mean (self : t) (F : matrix R) : result (matrix R) :=
  Ok (softmax F).

Definition conditional_variance (self : t) (F : matrix R) : result (matrix R) :=
  p ← conditional_mean self F;
  tf.map2 Rminus p (tf.map1 Rsqr p).

End SoftMax.

(** ** The likelihoods that define a conditional variance *)

Section Variants.
Context {rt : Runtime}.

(** One constructor per class of the module with a [conditional_variance]
    of its own or an inherited one ([GaussianMC] finds that of [Gaussian]). *)
Inductive variant : Type :=
  | Gaussian_variant (self : Gaussian.t)
  | GaussianMC_variant (self : Gaussian.t)
  | Poisson_variant (self : Poisson.t)
  | Exponential_variant (self : Exponential.t)
  | StudentT_variant (self : StudentT.t)
  | Bernoulli_variant (self : Bernoulli.t)
  | Gamma_variant (self : Gamma.t)
  | Beta_variant (self : Beta.t)
  | MultiClass_variant (self : MultiClass.t)
  | Ordinal_variant (self : Ordinal.t)
  | SoftMax_variant (self : SoftMax.t).

(** [lik.conditional_variance(F)] *)
Definition conditional_variance_of (lik : variant) (F : matrix R) : result (matrix R) :=
  match lik with
  | Gaussian_variant self => Gaussian.conditional_variance self F
  | GaussianMC_variant self => Gaussian.conditional_variance self F
  | Poisson_variant self => Poisson.conditional_variance self F
  | Exponential_variant self => Exponential.conditional_variance self F
  | StudentT_variant self => StudentT.conditional_variance self F
  | Bernoulli_variant self => Bernoulli.conditional_variance self F
  | Gamma_variant self => Gamma.conditional_variance self F
  | Beta_variant self => Beta.conditional_variance self F
  | MultiClass_variant self => MultiClass.conditional_variance self F
  | Ordinal_variant self => Ordinal.conditional_variance self F
  | SoftMax_variant self => SoftMax.conditional_variance self F
  end.

(** The inverse link maps every entry of [F] to a rate (a non-negative
    number), respectively to a probability. *)
Definition rate_link (l : inverse_link) (F : matrix R) : Prop :=
  Forall (Forall (fun f => 0 <= call l f)) F.

Definition probability_link (l : inverse_link) (F : matrix R) : Prop :=
  Forall (Forall (fun f => 0 <= call l f <= 1)) F.

(** What the development assumes of the error function. *)
Definition erf_laws : Prop :=
  (forall x, -1 <= erf x <= 1) /\ (forall x y, x <= y -> erf x <= erf y).

(** The domain of the hyperparameters and of the latent input: positive
    variance, bin size, shape and scale parameters; more than two degrees
    of freedom; an inverse link into the rates, respectively the
    probabilities; a RobustMax with an error rate inside (0, 1) and at
    least two classes, on rows that have an entry; bin edges in increasing
    order, as many bins as the edges delimit, and a positive [sigma]. *)
Definition valid (lik : variant) (F : matrix R) : Prop :=
  match lik with
  | Gaussian_variant self => 0 < Gaussian.variance self
  | GaussianMC_variant self => 0 < Gaussian.variance self
  | Poisson_variant self =>
      0 < Poisson.binsize self /\ rate_link (Poisson.invlink self) F
  | Exponential_variant self => True
  | StudentT_variant self => 2 < StudentT.df self
  | Bernoulli_variant self => probability_link (Bernoulli.invlink self) F
  | Gamma_variant self => 0 < Gamma.shape self
  | Beta_variant self =>
      0 < Beta.scale self /\ probability_link (Beta.invlink self) F
  | MultiClass_variant self =>
      exists r, MultiClass.invlink self = MultiClass.robustmax r /\
                0 < RobustMax.epsilon r < 1 /\
                (2 <= RobustMax.num_classes r)%nat /\
                Forall (fun row => row <> []) F
  | Ordinal_variant self =>
      0 < Ordinal.sigma self /\
      Ordinal.num_bins self = (length (Ordinal.bin_edges self) + 1)%nat /\
      Sorted Rle (Ordinal.bin_edges self) /\
      erf_laws
  | SoftMax_variant self => True
  end.

End Variants.

(** ** Reference quantities and example inputs *)

(** The density of the normal distribution with mean [mean] and variance
    [var] at [y]. *)
Definition normal_density (y mean var : R) : R :=
  / sqrt (2 * PI * var) * exp (- (y - mean)² / (2 * var)).

(** The value of the [n]-point Gauss-Hermite rule on a total integrand [g]
    against the normal distribution with mean [mu] and variance [var]. *)
Definition gauss_hermite_sum {rt : Runtime} (n : nat) (g : R -> R) (mu var : R) : R :=
  Rsum (zip_with (fun w x => w / sqrt PI * g (mu + sqrt (2 * var) * x))
          (snd (hermgauss n)) (fst (hermgauss n))).

(** The error of the rule on the exponential, whose mean under the normal
    distribution with mean [mu] and variance [var] is [exp (mu + var / 2)]. *)
Definition quadrature_error_exp {rt : Runtime} (n : nat) (mu var : R) : R :=
  exp (mu + var / 2) - gauss_hermite_sum n exp mu var.

(** The [n]-point rule integrates the polynomials of degree at most two
    exactly, as every Gauss-Hermite rule with two nodes or more does: as
    many weights as nodes, and the moments of order 0, 1 and 2 of the
    weight [exp (- x²)]. *)
Definition exact_to_degree_2 {rt : Runtime} (n : nat) : Prop :=
  length (snd (hermgauss n)) = length (fst (hermgauss n)) /\
  Rsum (snd (hermgauss n)) = sqrt PI /\
  Rsum (zip_with Rmult (snd (hermgauss n)) (fst (hermgauss n))) = 0 /\
  Rsum (zip_with (fun w x => w * x²) (snd (hermgauss n)) (fst (hermgauss n)))
  = sqrt PI / 2.

(** A runtime for the examples: the one-point Gauss-Hermite rule (node 0,
    weight [sqrt PI]) whatever the number of points asked for, and, in
    place of the error function, [x / (1 + |x|)], which is increasing and
    stays within [-1, 1] as the error function does. *)
Module ExampleRuntime.

Definition soft_sign (x : R) : R := x / (1 + Rabs x).

Definition no_lgamma (x : R) : R := 0.

Definition one_point_rule (n : nat) : list R * list R := ([0], [sqrt PI]).

Definition runtime : Runtime :=
  {| erf := soft_sign; lgamma := no_lgamma; hermgauss := one_point_rule |}.

End ExampleRuntime.

(** A second runtime for the examples, with the two-point Gauss-Hermite
    rule: nodes [-1 / sqrt 2] and [1 / sqrt 2], both of weight
    [sqrt PI / 2]. *)
Module TwoPointRuntime.

Definition two_point_rule (n : nat) : list R * list R :=
  ([- / sqrt 2; / sqrt 2], [sqrt PI / 2; sqrt PI / 2]).

Definition runtime : Runtime :=
  {| erf := ExampleRuntime.soft_sign;
     lgamma := ExampleRuntime.no_lgamma;
     hermgauss := two_point_rule |}.

End TwoPointRuntime.

(** Labels that name a bin: integers from 0 to [len(bin_edges)] once cast. *)
Definition labels_in_range (self : Ordinal.t) (Y : matrix R) : Prop :=
  Forall (Forall (fun y => (0 <= cast_int64 y
                         <= Z.of_nat (length (Ordinal.bin_edges self)))%Z)) Y.

(** A rule the quadrature of probabilities needs: at least one node, as
    many weights as nodes, no negative weight, and weights that sum to
    [sqrt PI], as those of every Gauss-Hermite rule do. *)
Definition positive_rule {rt : Runtime} (n : nat) : Prop :=
  fst (hermgauss n) <> [] /\
  length (snd (hermgauss n)) = length (fst (hermgauss n)) /\
  Forall (fun w => 0 <= w) (snd (hermgauss n)) /\
  Rsum (snd (hermgauss n)) = sqrt PI.

(** * Properties *)

Local Close Scope R_scope.

(** ** The error monad *)

Lemma mapM_Ok_map {A B} (f : A -> result B) (g : A -> B) (l : list A) :
  (forall x, x ∈ l -> f x = Ok (g x)) -> mapM f l = Ok (map g l).
Proof.
  induction l as [|x l IH]; intros Hf; [reflexivity|].
  cbn. rewrite (Hf x) by left. cbn.
  rewrite IH by (intros y Hy; apply Hf; by right). reflexivity.
Qed.

Lemma mapM_Ok_inv {A B} (f : A -> result B) (l : list A) (r : list B) :
  mapM f l = Ok r -> Forall2 (fun x y => f x = Ok y) l r.
Proof.
  revert r. induction l as [|x l IH]; intros r; cbn.
  - intros [= <-]. constructor.
  - destruct (f x) as [y|e] eqn:Hx; cbn; [|discriminate].
    destruct (mapM f l) as [r'|e]; cbn; [|discriminate].
    intros [= <-]. constructor; [done|]. by apply IH.
Qed.

(** ** Partition and stitch *)

Section PartitionStitch.
Context {A : Type}.
Implicit Types (ind : list Z) (X : list A) (k : Z).

Lemma gather_part_sublist k ind X : tf.gather_part k ind X `sublist_of` X.
Proof.
  revert X. induction ind as [|p ind IH]; intros [|x X]; cbn;
    try apply sublist_nil_l.
  destruct (Z.eqb p k); [apply sublist_skip | apply sublist_cons]; apply IH.
Qed.

Lemma gather_part_length k ind X :
  length X = length ind ->
  length (tf.gather_part k ind X) = length (tf.gather_part k ind ind).
Proof.
  revert X. induction ind as [|p ind IH]; intros [|x X]; cbn; try done.
  intros [= Hlen]. destruct (Z.eqb p k); cbn; rewrite (IH X); done.
Qed.

(** Row [i] of the input is row [rank k ind i] of its partition. *)
Lemma gather_part_lookup k ind X i x :
  ind !! i = Some k -> X !! i = Some x ->
  tf.gather_part k ind X !! rank k ind i = Some x.
Proof.
  unfold rank. revert X i.
  induction ind as [|p ind IH]; intros [|y X] [|i]; cbn; try done.
  - intros [= ->] [= ->]. by rewrite Z.eqb_refl.
  - intros Hi Hx. destruct (Z.eqb p k); cbn; by apply IH.
Qed.

End PartitionStitch.

Lemma rank_lt k (ind : list Z) i :
  ind !! i = Some k -> (rank k ind i < length (tf.gather_part k ind ind))%nat.
Proof.
  intros Hi. apply lookup_lt_is_Some_1.
  exists k. by apply gather_part_lookup.
Qed.

(** The positions collected for partition [k] are those whose index is [k]. *)
Lemma gather_part_seq_elem k (ind : list Z) s x :
  x ∈ tf.gather_part k ind (seq s (length ind)) ->
  (s <= x)%nat /\ ind !! (x - s)%nat = Some k.
Proof.
  revert s. induction ind as [|p ind IH]; intros s; cbn.
  - by intros ?%elem_of_nil.
  - destruct (Z.eqb p k) eqn:Hp.
    + intros [->|Hin]%elem_of_cons.
      * split; [lia|]. rewrite Nat.sub_diag. cbn.
        apply Z.eqb_eq in Hp. by subst.
      * destruct (IH _ Hin) as [Hle Hl]. split; [lia|].
        replace (x - s)%nat with (S (x - S s)) by lia. done.
    + intros Hin. destruct (IH _ Hin) as [Hle Hl]. split; [lia|].
      replace (x - s)%nat with (S (x - S s)) by lia. done.
Qed.

Lemma gather_part_seq_NoDup k (ind : list Z) s n :
  NoDup (tf.gather_part k ind (seq s n)).
Proof.
  eapply sublist_NoDup; [apply NoDup_seq | apply gather_part_sublist].
Qed.

Section Scatter.
Context {A : Type}.
Implicit Types (idx : list nat) (vals merged : list A).

Lemma scatter_length idx vals merged :
  length (tf.scatter idx vals merged) = length merged.
Proof.
  revert vals merged. induction idx as [|i idx IH]; intros [|v vals] merged;
    cbn; try done.
  by rewrite IH, length_insert.
Qed.

Lemma scatter_lookup_notin idx vals merged i :
  i ∉ idx -> tf.scatter idx vals merged !! i = merged !! i.
Proof.
  revert vals merged. induction idx as [|j idx IH]; intros [|v vals] merged;
    cbn; try done.
  intros Hni. apply not_elem_of_cons in Hni as [Hne Hni].
  rewrite IH by done. by apply list_lookup_insert_ne.
Qed.

Lemma scatter_lookup_in idx vals merged i j :
  NoDup idx -> length idx = length vals ->
  idx !! j = Some i -> (i < length merged)%nat ->
  tf.scatter idx vals merged !! i = vals !! j.
Proof.
  revert vals merged j.
  induction idx as [|i0 idx IH]; intros [|v vals] merged j Hnd Hlen Hj Hi;
    cbn in *; try done.
  apply NoDup_cons in Hnd as [Hni Hnd].
  destruct j as [|j]; cbn in *.
  - injection Hj as ->. rewrite scatter_lookup_notin by done.
    by apply list_lookup_insert_eq.
  - apply (IH vals (<[i0:=v]> merged) j); try done; [lia|].
    by rewrite length_insert.
Qed.

Lemma stitch_all_length ps merged :
  length (tf.stitch_all ps merged) = length merged.
Proof.
  revert merged. induction ps as [|p ps IH]; intros merged; cbn; [done|].
  unfold tf.stitch_all in IH. by rewrite IH, scatter_length.
Qed.

Lemma stitch_all_notin ps merged i :
  (forall p, p ∈ ps -> i ∉ fst p) ->
  tf.stitch_all ps merged !! i = merged !! i.
Proof.
  revert merged. induction ps as [|p ps IH]; intros merged Hni; cbn; [done|].
  unfold tf.stitch_all in IH. rewrite IH.
  - apply scatter_lookup_notin, Hni. by left.
  - intros q Hq. apply Hni. by right.
Qed.

(** A slot written by exactly one piece holds the value of that piece. *)
Lemma stitch_all_in ps merged m idx vals i j :
  ps !! m = Some (idx, vals) ->
  NoDup idx -> length idx = length vals ->
  idx !! j = Some i -> (i < length merged)%nat ->
  (forall m' p, m' <> m -> ps !! m' = Some p -> i ∉ fst p) ->
  tf.stitch_all ps merged !! i = vals !! j.
Proof.
  revert merged m. induction ps as [|p ps IH]; intros merged m Hm Hnd Hlen Hj Hi Hother;
    [done|]. cbn.
  destruct m as [|m]; cbn in Hm.
  - injection Hm as ->. cbn.
    fold (tf.stitch_all ps (tf.scatter idx vals merged)).
    rewrite stitch_all_notin.
    + by apply scatter_lookup_in.
    + intros q [m' Hq]%list_elem_of_lookup. by apply (Hother (S m') q).
  - fold (tf.stitch_all ps (tf.scatter (fst p) (snd p) merged)).
    apply (IH _ m); try done.
    + by rewrite scatter_length.
    + intros m' q Hne Hq. apply (Hother (S m') q); [lia | done].
Qed.
End Scatter.

Lemma stitch_size_le (indices : list (list nat)) n :
  (forall idx x, idx ∈ indices -> x ∈ idx -> (x < n)%nat) ->
  (tf.stitch_size indices <= n)%nat.
Proof.
  unfold tf.stitch_size. intros H.
  assert (Hall : forall x, x ∈ mjoin indices -> (x < n)%nat).
  { intros x (idx & Hx & Hidx)%list_elem_of_join. eauto. }
  clear H. induction (mjoin indices) as [|y l IH]; cbn; [lia|].
  apply Nat.max_lub.
  - apply Hall. by left.
  - apply IH. intros x Hx. apply Hall. by right.
Qed.

Lemma stitch_size_ge (indices : list (list nat)) idx x :
  idx ∈ indices -> x ∈ idx -> (x < tf.stitch_size indices)%nat.
Proof.
  unfold tf.stitch_size. intros Hidx Hx.
  assert (Hin : x ∈ mjoin indices) by (apply list_elem_of_join; eauto).
  clear Hidx Hx. induction (mjoin indices) as [|y l IH]; cbn.
  - by apply elem_of_nil in Hin.
  - apply elem_of_cons in Hin as [->|Hin]; [lia|].
    specialize (IH Hin). lia.
Qed.

Lemma mapM_Ok_exists {A B} (f : A -> result B) (l : list A) :
  (forall x, x ∈ l -> exists y, f x = Ok y) -> exists r, mapM f l = Ok r.
Proof.
  induction l as [|x l IH]; intros Hf; [by exists []|].
  destruct (Hf x) as [y Hy]; [by left|].
  destruct IH as [r Hr]; [intros z Hz; apply Hf; by right|].
  exists (y :: r). cbn. rewrite Hy. cbn. by rewrite Hr.
Qed.

Lemma dynamic_partition_Ok {A} (data : list A) (ind : list Z) (num : nat) :
  length data = length ind ->
  Forall (fun k => (0 <= k < Z.of_nat num)%Z) ind ->
  tf.dynamic_partition data ind num
  = Ok (map (fun k => tf.gather_part (Z.of_nat k) ind data) (seq 0 num)).
Proof.
  intros Hlen Hind. unfold tf.dynamic_partition.
  rewrite Hlen, Nat.eqb_refl. cbn.
  replace (forallb (tf.in_range num) ind) with true; [done|].
  symmetry. apply forallb_forall. intros k Hk.
  rewrite Forall_forall in Hind. apply list_elem_of_In, Hind in Hk.
  unfold tf.in_range. apply andb_true_iff. split; [apply Z.leb_le | apply Z.ltb_lt]; lia.
Qed.

Lemma uniform_width_Forall {T} (data : list (matrix T)) (w : nat) :
  Forall (fun m => Forall (fun row : list T => length row = w) m) data ->
  tf.uniform_width data = true.
Proof.
  intros H. unfold tf.uniform_width.
  assert (Hall : Forall (fun row : list T => length row = w) (mjoin data)).
  { induction H as [|m data Hm _ IH]; cbn; [constructor|].
    apply Forall_app. by split. }
  destruct (mjoin data) as [|row rows]; [done|].
  apply Forall_cons in Hall as [Hrow Hrows].
  apply forallb_forall. intros r Hr%list_elem_of_In.
  rewrite Forall_forall in Hrows. rewrite (Hrows r Hr), Hrow. apply Nat.eqb_refl.
Qed.

Section SwitchedProps.
Context {T : Type} (cast_int32 : T -> Z).

Lemma last_column_length (Y : matrix T) c :
  last_column Y = Ok c -> length c = length Y.
Proof.
  intros H%mapM_Ok_inv. symmetry. by eapply Forall2_length.
Qed.

(** C1: on a batch whose index column holds indices in
    [0, num_likelihoods), [SwitchedLikelihood.logp] returns, at every row
    [i] of the input, the row that the child selected by the index of
    [i] computes for [i]: that child's [logp] is called on exactly the
    rows of [F] and of [Y] without its index column whose index selects
    it, in input order, and its answer for row [i] (the [rank]-th of its
    rows) is row [i] of the output. *)
Theorem Switched_logp_rowwise (self : SwitchedLikelihood.t) (F Y : matrix T)
    (c : list T) (w : nat) :
  let ind := map cast_int32 c in
  let Y' := strip_last_column Y in
  length F = length Y ->
  last_column Y = Ok c ->
  Forall (fun k => (0 <= k < Z.of_nat (SwitchedLikelihood.num_likelihoods self))%Z)
         ind ->
  (forall m lik, SwitchedLikelihood.likelihood_list self !! m = Some lik ->
     exists r,
       logp lik (tf.gather_part (Z.of_nat m) ind F)
                (tf.gather_part (Z.of_nat m) ind Y') = Ok r
       /\ length r = length (tf.gather_part (Z.of_nat m) ind F)
       /\ Forall (fun row => length row = w) r) ->
  exists out,
    SwitchedLikelihood.logp cast_int32 self F Y = Ok out /\
    length out = length F /\
    forall i k, ind !! i = Some k ->
      exists lik r row,
        SwitchedLikelihood.likelihood_list self !! Z.to_nat k = Some lik /\
        logp lik (tf.gather_part k ind F) (tf.gather_part k ind Y') = Ok r /\
        r !! rank k ind i = Some row /\
        out !! i = Some row.
Proof.
  intros ind Y' HFY Hc Hind Hchild.
  pose proof (last_column_length _ _ Hc) as Hclen.
  assert (HlenF : length F = length ind) by (unfold ind; rewrite length_map; lia).
  assert (HlenY : length Y' = length ind).
  { unfold ind, Y', strip_last_column. rewrite !length_map. lia. }
  set (n := SwitchedLikelihood.num_likelihoods self) in *.
  set (liks := SwitchedLikelihood.likelihood_list self) in *.
  assert (Hn : length liks = n) by reflexivity.
  (* the results of the children *)
  set (call := fun (fa : (list (matrix T) -> result (matrix T)) * list (matrix T)) =>
                 fst fa (snd fa)).
  set (wrap := fun lik : Likelihood T => fun args : list (matrix T) =>
                 match args with
                 | [F0; Y0] => logp lik F0 Y0
                 | _ => Raise TypeError
                 end).
  set (PF := map (fun k => tf.gather_part (Z.of_nat k) ind F) (seq 0 n)).
  set (PY := map (fun k => tf.gather_part (Z.of_nat k) ind Y') (seq 0 n)).
  set (args := zip_with cons PF (map (fun x => [x]) PY)).
  assert (Hargs : forall m, (m < n)%nat ->
            args !! m = Some [tf.gather_part (Z.of_nat m) ind F;
                              tf.gather_part (Z.of_nat m) ind Y']).
  { intros m Hm. unfold args, PF, PY.
    rewrite lookup_zip_with, !list_lookup_fmap.
    rewrite lookup_seq_lt by done. reflexivity. }
  assert (Hargs_len : length args = n).
  { unfold args, PF, PY. rewrite length_zip_with, !length_map, length_seq. lia. }
  destruct (mapM_Ok_exists call (zip (map wrap liks) args)) as [results Hres].
  { intros [f a] [m Hm]%list_elem_of_lookup.
    apply lookup_zip_with_Some in Hm as (f' & a' & [= <- <-] & Hf & Ha).
    rewrite list_lookup_fmap in Hf.
    destruct (liks !! m) as [lik|] eqn:Hlik; [|done]. injection Hf as <-.
    assert (m < n)%nat as Hmn by (apply lookup_lt_Some in Hlik; lia).
    rewrite Hargs in Ha by done. injection Ha as <-.
    destruct (Hchild m lik Hlik) as (r & Hr & _). exists r. exact Hr. }
  pose proof (mapM_Ok_inv _ _ _ Hres) as Hres2.
  assert (Hres_len : length results = n).
  { apply Forall2_length in Hres2. rewrite <- Hres2.
    rewrite length_zip_with, length_map. lia. }
  assert (Hres_k : forall m lik, liks !! m = Some lik ->
            exists r, results !! m = Some r /\
              logp lik (tf.gather_part (Z.of_nat m) ind F)
                       (tf.gather_part (Z.of_nat m) ind Y') = Ok r /\
              length r = length (tf.gather_part (Z.of_nat m) ind F) /\
              Forall (fun row => length row = w) r).
  { intros m lik Hlik.
    assert (m < n)%nat as Hmn by (apply lookup_lt_Some in Hlik; lia).
    destruct (lookup_lt_is_Some_2 results m) as [r Hr]; [lia|].
    exists r. split; [done|].
    rewrite Forall2_lookup in Hres2. specialize (Hres2 m).
    rewrite Hr in Hres2.
    rewrite lookup_zip_with, list_lookup_fmap, Hlik, Hargs in Hres2 by done.
    cbn in Hres2. inversion Hres2 as [? ? Hcall|]; subst.
    unfold call, wrap in Hcall. cbn in Hcall.
    destruct (Hchild m lik Hlik) as (r' & Hr' & Hlen' & Hw').
    rewrite Hr' in Hcall. injection Hcall as <-. done. }
  set (parts := map (fun k => tf.gather_part (Z.of_nat k) ind (seq 0 (length ind)))
                    (seq 0 n)).
  set (out := tf.stitch_all (zip parts results)
                (replicate (tf.stitch_size parts) [])).
  assert (Hparts_elem : forall m x, (m < n)%nat ->
            x ∈ tf.gather_part (Z.of_nat m) ind (seq 0 (length ind)) ->
            ind !! x = Some (Z.of_nat m)).
  { intros m x Hm Hx. apply gather_part_seq_elem in Hx as [_ Hx].
    by rewrite Nat.sub_0_r in Hx. }
  assert (Hsize : tf.stitch_size parts = length ind).
  { apply Nat.le_antisymm.
    - apply stitch_size_le. intros idx x [m Hm]%list_elem_of_lookup Hx.
      unfold parts in Hm. rewrite list_lookup_fmap in Hm.
      destruct (seq 0 n !! m) as [m'|] eqn:Hseq; [|done].
      apply lookup_seq in Hseq as [-> Hmn]. injection Hm as <-.
      apply Hparts_elem in Hx; [|done]. by apply lookup_lt_Some in Hx.
    - destruct (Nat.eq_dec (length ind) 0) as [Hz|Hnz]; [lia|].
      set (N := pred (length ind)).
      destruct (lookup_lt_is_Some_2 ind N) as [k Hk]; [lia|].
      rewrite Forall_forall in Hind.
      pose proof (Hind k (list_elem_of_lookup_2 _ _ _ Hk)) as Hkr.
      enough (N < tf.stitch_size parts)%nat by lia.
      apply (stitch_size_ge parts
               (tf.gather_part k ind (seq 0 (length ind))) N).
      + apply list_elem_of_lookup. exists (Z.to_nat k). unfold parts.
        rewrite list_lookup_fmap, lookup_seq_lt by lia. cbn.
        by rewrite Z2Nat.id by lia.
      + apply list_elem_of_lookup. exists (rank k ind N).
        apply gather_part_lookup; [done|].
        rewrite lookup_seq_lt by lia. done. }
  exists out. split; [|split].
  - unfold SwitchedLikelihood.logp, SwitchedLikelihood._partition_and_stitch. cbn.
    rewrite Hc. cbn. fold ind. fold Y'.
    rewrite (dynamic_partition_Ok F ind) by done. cbn.
    rewrite (dynamic_partition_Ok Y' ind) by done. cbn.
    rewrite (mapM_Ok_map _ wrap) by (intros; reflexivity). cbn.
    fold n liks PF PY args call.
    rewrite Hres. cbn. unfold tf.range.
    rewrite (dynamic_partition_Ok (seq 0 (length ind)) ind)
      by (try done; by rewrite length_seq).
    cbn. unfold tf.dynamic_stitch.
    fold n parts.
    replace (tf.same_lengths parts results) with true; cycle 1.
    { symmetry. unfold tf.same_lengths. apply andb_true_iff. split.
      - apply Nat.eqb_eq. unfold parts. rewrite length_map, length_seq. lia.
      - apply forallb_forall. intros [idx r] [m Hm]%list_elem_of_In%list_elem_of_lookup.
        apply lookup_zip_with_Some in Hm as (idx' & r' & [= <- <-] & Hidx & Hr).
        unfold parts in Hidx. rewrite list_lookup_fmap in Hidx.
        destruct (seq 0 n !! m) as [m'|] eqn:Hseq; [|done].
        apply lookup_seq in Hseq as [-> Hmn]. injection Hidx as <-.
        destruct (lookup_lt_is_Some_2 liks m) as [lik Hlik]; [lia|].
        destruct (Hres_k m lik Hlik) as (r' & Hr'1 & _ & Hlen & _).
        rewrite Hr in Hr'1. injection Hr'1 as <-. cbn.
        apply Nat.eqb_eq. rewrite Hlen.
        rewrite (gather_part_length _ _ (seq 0 (length ind))) by (by rewrite length_seq).
        by rewrite (gather_part_length _ _ F). }
    cbn.
    rewrite (uniform_width_Forall results w); [done|].
    apply Forall_lookup. intros m r Hr.
    assert (m < n)%nat as Hmn by (apply lookup_lt_Some in Hr; lia).
    destruct (lookup_lt_is_Some_2 liks m) as [lik Hlik]; [lia|].
    destruct (Hres_k m lik Hlik) as (r' & Hr'1 & _ & _ & Hw).
    rewrite Hr in Hr'1. by injection Hr'1 as <-.
  - unfold out. rewrite stitch_all_length, length_replicate. lia.
  - intros i k Hi.
    rewrite Forall_forall in Hind.
    pose proof (Hind k (list_elem_of_lookup_2 _ _ _ Hi)) as Hkr.
    assert (Z.to_nat k < n)%nat as Hkn by lia.
    destruct (lookup_lt_is_Some_2 liks (Z.to_nat k)) as [lik Hlik]; [lia|].
    destruct (Hres_k _ lik Hlik) as (r & Hr & Hlogp & Hlen & Hw).
    rewrite Z2Nat.id in Hlogp, Hlen by lia.
    assert (Hrank : (rank k ind i < length r)%nat).
    { rewrite Hlen, gather_part_length by done. by apply rank_lt. }
    destruct (lookup_lt_is_Some_2 r (rank k ind i) Hrank) as [row Hrow].
    exists lik, r, row. repeat split; try done.
    rewrite <- Hrow. unfold out.
    apply (stitch_all_in _ _ (Z.to_nat k)
             (tf.gather_part k ind (seq 0 (length ind)))).
    + rewrite lookup_zip_with. unfold parts.
      rewrite list_lookup_fmap, lookup_seq_lt by done. cbn.
      rewrite Z2Nat.id by lia. by rewrite Hr.
    + apply gather_part_seq_NoDup.
    + rewrite Hlen.
      rewrite (gather_part_length _ _ (seq 0 (length ind))) by (by rewrite length_seq).
      by rewrite (gather_part_length _ _ F).
    + apply gather_part_lookup; [done|].
      apply lookup_seq_lt. by apply lookup_lt_Some in Hi.
    + rewrite length_replicate, Hsize. by apply lookup_lt_Some in Hi.
    + intros m' [idx r'] Hne Hm'.
      apply lookup_zip_with_Some in Hm' as (idx' & r'' & [= <- <-] & Hidx & _).
      unfold parts in Hidx. rewrite list_lookup_fmap in Hidx.
      destruct (seq 0 n !! m') as [m''|] eqn:Hseq; [|done].
      apply lookup_seq in Hseq as [-> Hmn]. injection Hidx as <-. cbn.
      intros Hx. apply Hparts_elem in Hx; [|done].
      rewrite Hi in Hx. injection Hx as ->. apply Hne. by rewrite Nat2Z.id.
Qed.
End SwitchedProps.

(** The two primitives on the interleaved indices, and the failure of the
    partition on an index that selects no likelihood. *)
Example dynamic_partition_interleaved :
  tf.dynamic_partition [10; 20; 30; 40; 50]%Z [0; 1; 0; 1; 0]%Z 2
  = Ok [[10; 30; 50]; [20; 40]]%Z.
Proof. reflexivity. Qed.

Example dynamic_stitch_interleaved :
  tf.dynamic_stitch [] [[0; 2; 4]; [1; 3]]%nat
    [[[11]; [33]; [55]]; [[40]; [160]]]%Z
  = Ok [[11]; [40]; [33]; [160]; [55]]%Z.
Proof. reflexivity. Qed.

Example dynamic_partition_out_of_range :
  tf.dynamic_partition [10; 20]%Z [0; 2]%Z 2 = Raise InvalidArgumentError.
Proof. reflexivity. Qed.

Example rank_interleaved :
  map (fun i => rank (default 0%Z ([0; 1; 0; 1; 0]%Z !! i)) [0; 1; 0; 1; 0]%Z i)
      (seq 0 5)
  = [0; 0; 1; 1; 2]%nat.
Proof. reflexivity. Qed.

(** The interleaved batch: rows 0, 2 and 4 go to the first child, rows 1
    and 3 to the second, and every answer returns to the row it came from. *)
Example Switched_logp_interleaved :
  SwitchedLikelihood.logp SwitchedExample.cast SwitchedExample.composite
    SwitchedExample.F SwitchedExample.Y
  = Ok [[11]; [40]; [33]; [160]; [55]]%Z.
Proof. vm_compute. reflexivity. Qed.

Lemma Switched_logp_rowwise_witness :
  exists out,
    SwitchedLikelihood.logp SwitchedExample.cast SwitchedExample.composite
      SwitchedExample.F SwitchedExample.Y = Ok out /\
    length out = length SwitchedExample.F /\
    forall i k, map SwitchedExample.cast [0; 1; 0; 1; 0]%Z !! i = Some k ->
      exists lik r row,
        SwitchedLikelihood.likelihood_list SwitchedExample.composite !! Z.to_nat k = Some lik /\
        logp lik (tf.gather_part k (map SwitchedExample.cast [0; 1; 0; 1; 0]%Z) SwitchedExample.F)
                 (tf.gather_part k (map SwitchedExample.cast [0; 1; 0; 1; 0]%Z)
                    (strip_last_column SwitchedExample.Y)) = Ok r /\
        r !! rank k (map SwitchedExample.cast [0; 1; 0; 1; 0]%Z) i = Some row /\
        out !! i = Some row.
Proof.
  apply (Switched_logp_rowwise SwitchedExample.cast SwitchedExample.composite
           SwitchedExample.F SwitchedExample.Y [0; 1; 0; 1; 0]%Z 1).
  - reflexivity.
  - reflexivity.
  - cbn. repeat (constructor; [unfold SwitchedExample.cast; lia|]). constructor.
  - intros [|[|m]] lik; cbn; intros [= <-].
    + eexists. split; [reflexivity|]. split; [reflexivity|]. repeat constructor.
    + eexists. split; [reflexivity|]. split; [reflexivity|]. repeat constructor.
Defined.

(** ** Elementwise operations *)

Lemma broadcast_same_length {X Y Z} (f : X -> Y -> result Z) (g : X -> Y -> Z)
    (a : list X) (b : list Y) :
  length a = length b ->
  (forall i x y, a !! i = Some x -> b !! i = Some y -> f x y = Ok (g x y)) ->
  tf.broadcast f a b = Ok (zip_with g a b).
Proof.
  intros Hlen Hf. unfold tf.broadcast.
  rewrite Hlen, Nat.eqb_refl.
  rewrite (mapM_Ok_map _ (fun p => g (fst p) (snd p))).
  - f_equal. clear. revert b. induction a as [|x a IH]; intros [|y b]; cbn; try done.
    by rewrite IH.
  - intros [x y] [i Hi]%list_elem_of_lookup.
    apply lookup_zip_with_Some in Hi as (x' & y' & [= <- <-] & Hx & Hy).
    cbn. eauto.
Qed.

Section Elementwise.
Context {X Y Z : Type}.

Lemma same_shape_length (A : matrix X) (B : matrix Y) :
  same_shape A B -> length A = length B.
Proof. apply Forall2_length. Qed.

Lemma same_shape_lookup (A : matrix X) (B : matrix Y) i a b :
  same_shape A B -> A !! i = Some a -> B !! i = Some b -> length a = length b.
Proof.
  intros HAB Ha Hb. unfold same_shape in HAB.
  rewrite Forall2_lookup in HAB. specialize (HAB i).
  rewrite Ha, Hb in HAB. by inversion HAB.
Qed.

Lemma map2M_same_shape (f : X -> Y -> result Z) (g : X -> Y -> Z)
    (A : matrix X) (B : matrix Y) :
  same_shape A B ->
  (forall i j x y, entry A i j = Some x -> entry B i j = Some y -> f x y = Ok (g x y)) ->
  tf.map2M f A B = Ok (zip_with (zip_with g) A B).
Proof.
  intros HAB Hf. unfold tf.map2M.
  apply broadcast_same_length; [by apply same_shape_length|].
  intros i a b Ha Hb. apply broadcast_same_length.
  - by eapply same_shape_lookup.
  - intros j x y Hx Hy. apply (Hf i j); unfold entry.
    + by rewrite Ha.
    + by rewrite Hb.
Qed.

Lemma map2_same_shape (f : X -> Y -> Z) (A : matrix X) (B : matrix Y) :
  same_shape A B -> tf.map2 f A B = Ok (zip_with (zip_with f) A B).
Proof. intros HAB. unfold tf.map2. by apply map2M_same_shape. Qed.

Lemma entry_zip_with (f : X -> Y -> Z) (A : matrix X) (B : matrix Y) i j x y :
  entry A i j = Some x -> entry B i j = Some y ->
  entry (zip_with (zip_with f) A B) i j = Some (f x y).
Proof.
  unfold entry. rewrite lookup_zip_with.
  destruct (A !! i) as [a|]; [|done]. destruct (B !! i) as [b|]; [|done]. cbn.
  intros Hx Hy. rewrite lookup_zip_with, Hx. cbn. by rewrite Hy.
Qed.

Lemma same_shape_zip_with_l (f : X -> Y -> Z) (A : matrix X) (B : matrix Y) :
  same_shape A B -> same_shape (zip_with (zip_with f) A B) A.
Proof.
  unfold same_shape. intros HAB. induction HAB as [|a b A B Hab _ IH]; cbn;
    constructor; [|done].
  rewrite length_zip_with. lia.
Qed.

End Elementwise.

Lemma entry_map1 {X Y} (f : X -> Y) (A : matrix X) i j x :
  entry A i j = Some x -> entry (tf.map1 f A) i j = Some (f x).
Proof.
  unfold entry, tf.map1. rewrite list_lookup_fmap.
  destruct (A !! i) as [a|]; [|done]. cbn. intros Hx.
  by rewrite list_lookup_fmap, Hx.
Qed.

Lemma same_shape_map1_l {X Y} (f : X -> Y) (A : matrix X) :
  same_shape (tf.map1 f A) A.
Proof.
  unfold same_shape, tf.map1. induction A as [|a A IH]; cbn; constructor; [|done].
  by rewrite length_map.
Qed.

Lemma same_shape_refl {X} (A : matrix X) : same_shape A A.
Proof. unfold same_shape. induction A; by constructor. Qed.

Lemma same_shape_sym {X Y} (A : matrix X) (B : matrix Y) :
  same_shape A B -> same_shape B A.
Proof. unfold same_shape. induction 1; by constructor. Qed.

Lemma same_shape_trans {X Y Z} (A : matrix X) (B : matrix Y) (C : matrix Z) :
  same_shape A B -> same_shape B C -> same_shape A C.
Proof.
  unfold same_shape. intros HAB. revert C.
  induction HAB as [|a b A B Hab _ IH]; intros C HBC; inversion HBC; subst;
    constructor; [congruence | by apply IH].
Qed.

Lemma same_shape_entry {X Y} (A : matrix X) (B : matrix Y) i j x :
  same_shape A B -> entry A i j = Some x -> exists y, entry B i j = Some y.
Proof.
  intros HAB. unfold entry.
  destruct (A !! i) as [a|] eqn:Ha; [|done]. intros Hx.
  destruct (lookup_lt_is_Some_2 B i) as [b Hb].
  { rewrite <- (same_shape_length _ _ HAB). by eapply lookup_lt_Some. }
  rewrite Hb. apply lookup_lt_is_Some_2.
  rewrite <- (same_shape_lookup _ _ _ _ _ HAB Ha Hb). by eapply lookup_lt_Some.
Qed.

(** A parameter broadcasts against every matrix. *)
Lemma map2_scalar {X Y Z} (f : X -> Y -> Z) (A : matrix X) (s : Y) :
  tf.map2 f A [[s]] = Ok (tf.map1 (fun x => f x s) A).
Proof.
  assert (Hrow : forall a : list X,
    tf.broadcast (fun x y => Ok (f x y)) a [s] = Ok (map (fun x => f x s) a)).
  { intros a. unfold tf.broadcast.
    destruct (Nat.eqb (length a) (length [s])) eqn:Hl.
    - destruct a as [|x [|x' a]]; try done.
    - destruct a as [|x [|x' a]]; try done.
      + by apply mapM_Ok_map.
  }
  unfold tf.map2, tf.map2M. unfold tf.broadcast at 1.
  destruct (Nat.eqb (length A) (length [[s]])) eqn:Hl.
  - destruct A as [|a [|a' A]]; try done. cbn -[tf.broadcast]. by rewrite Hrow.
  - destruct A as [|a [|a' A]]; try done.
    apply mapM_Ok_map. intros a'' _. apply Hrow.
Qed.

(** Shapes of elementwise expressions, all compared with one base matrix. *)
Ltac shape_base B :=
  lazymatch goal with
  | |- same_shape (tf.map1 _ _) _ =>
      eapply same_shape_trans; [apply same_shape_map1_l|]; shape_base B
  | |- same_shape (zip_with (zip_with _) _ _) _ =>
      eapply same_shape_trans; [apply same_shape_zip_with_l; shape_pair B|];
      shape_base B
  | |- same_shape B B => apply same_shape_refl
  | _ => assumption
  end
with shape_pair B :=
  lazymatch goal with
  | |- same_shape ?A ?C =>
      apply (same_shape_trans A B C); [shape_base B | apply same_shape_sym; shape_base B]
  end.

(** The entry of an elementwise expression from the entries of its leaves. *)
Ltac entry_solve :=
  lazymatch goal with
  | |- entry (tf.map1 _ _) _ _ = Some _ => eapply entry_map1; entry_solve
  | |- entry (zip_with (zip_with _) _ _) _ _ = Some _ =>
      eapply entry_zip_with; entry_solve
  | _ => eassumption
  end.

Ltac entry_eq :=
  lazymatch goal with
  | |- entry ?E ?i ?j = Some _ =>
      let H := fresh "Hentry" in
      eassert (H : entry E i j = Some _) by entry_solve;
      rewrite H; f_equal; clear H
  end.

(** Decimal constants as quotients of integers. *)
Ltac decimals :=
  unfold Q2R in *; cbn [QArith_base.Qnum QArith_base.Qden] in *.

(** ** Gaussian *)

Section GaussianProps.
Local Open Scope R_scope.

Lemma logdensities_gaussian_same_shape (x mu var : matrix R) :
  same_shape mu x -> same_shape var x ->
  logdensities.gaussian x mu var
  = Ok (tf.map1 (fun t => -0.5 * t)
          (zip_with (zip_with Rplus)
             (tf.map1 (fun v => ln (2 * PI) + ln v) var)
             (zip_with (zip_with Rdiv)
                (tf.map1 Rsqr (zip_with (zip_with Rminus) mu x)) var))).
Proof.
  intros Hmu Hvar. unfold logdensities.gaussian.
  assert (Hx : same_shape x x) by apply same_shape_refl.
  rewrite map2_same_shape by shape_pair x. cbn.
  rewrite map2_same_shape by shape_pair x. cbn.
  rewrite map2_same_shape by shape_pair x. cbn.
  reflexivity.
Qed.

(** The density of the normal distribution with mean [m] and variance
    [var] at [y]. *)
Lemma ln_normal_density (y m var : R) :
  0 < var ->
  ln (/ sqrt (2 * PI * var) * exp (- (y - m)² / (2 * var)))
  = -0.5 * (ln (2 * PI) + ln var + (m - y)² / var).
Proof.
  intros Hvar.
  assert (Hpi : 0 < 2 * PI) by (pose proof PI_RGT_0; lra).
  assert (Hs : 0 < sqrt (2 * PI * var)) by (apply sqrt_lt_R0; nra).
  rewrite ln_mult; [| by apply Rinv_0_lt_compat | apply exp_pos].
  rewrite ln_Rinv by done. rewrite ln_exp.
  rewrite <- Rpower_sqrt, ln_Rpower by nra. rewrite ln_mult by done.
  unfold Rsqr. decimals. field. lra.
Qed.
End GaussianProps.

Section GaussianClosedForm.
Local Open Scope R_scope.

(** C2: [Gaussian.predict_density(Fmu, Fvar, Y)] is, entry by entry, the
    logarithm of the normal density of [Y] under mean [Fmu] and variance
    [Fvar + variance]: an exact closed form, in which no quadrature node or
    weight occurs. *)
Theorem Gaussian_predict_density_closed_form (self : Gaussian.t)
    (Fmu Fvar Y : matrix R) :
  same_shape Fmu Y -> same_shape Fvar Y ->
  exists out,
    Gaussian.predict_density self Fmu Fvar Y = Ok out /\
    same_shape out Y /\
    forall i j m v y,
      entry Fmu i j = Some m -> entry Fvar i j = Some v -> entry Y i j = Some y ->
      0 < v + Gaussian.variance self ->
      entry out i j = Some (ln (normal_density y m (v + Gaussian.variance self))).
Proof.
  intros Hmu Hvar. unfold Gaussian.predict_density, scalar.
  rewrite map2_scalar. cbn.
  assert (HY : same_shape Y Y) by apply same_shape_refl.
  rewrite logdensities_gaussian_same_shape by shape_base Y.
  eexists. split; [reflexivity|]. split; [shape_base Y|].
  intros i j m v y Hm Hv Hy Hpos.
  entry_eq. unfold normal_density. by rewrite ln_normal_density.
Qed.
End GaussianClosedForm.

Lemma Gaussian_predict_density_closed_form_witness :
  exists out,
    Gaussian.predict_density (Gaussian.__init__ 1%R) [[0%R]] [[1%R]] [[3%R]] = Ok out /\
    entry out 0 0 = Some (ln (normal_density 3 0 (1 + 1)))%R.
Proof.
  destruct (Gaussian_predict_density_closed_form
              (Gaussian.__init__ 1%R) [[0%R]] [[1%R]] [[3%R]])
    as (out & Hout & _ & Hentry).
  - repeat constructor.
  - repeat constructor.
  - exists out. split; [exact Hout|].
    apply (Hentry 0%nat 0%nat 0 1 3)%R; try reflexivity. cbn. lra.
Defined.

(** ** The switched likelihood: predictions *)

Section SwitchedPredict.
Context {T : Type}.

(** Row [i] of the matrices [ms] laid side by side. *)
Lemma concat1_rows (ms : list (matrix T)) (n : nat) :
  ms <> [] ->
  Forall (fun m => length m = n) ms ->
  exists out,
    tf.concat1 ms = Ok out /\ length out = n /\
    forall i, (i < n)%nat ->
      out !! i = Some (mjoin (map (fun m => default [] (m !! i)) ms)).
Proof.
  induction ms as [|m ms IH]; [done|]. intros _ Hall.
  apply Forall_cons in Hall as [Hm Hms].
  destruct ms as [|m' ms].
  - exists m. split; [done|]. split; [done|]. intros i Hi. cbn.
    destruct (lookup_lt_is_Some_2 m i) as [row Hrow]; [lia|].
    rewrite Hrow. cbn. by rewrite app_nil_r.
  - destruct IH as (rest & Hrest & Hlen & Hrows); [done..|].
    exists (zip_with app m rest). split; [|split].
    + change (tf.concat1 (m :: m' :: ms))
        with (tf.concat1 (m' :: ms) ≫= fun rest =>
                if Nat.eqb (length m) (length rest) then Ok (zip_with app m rest)
                else Raise InvalidArgumentError).
      rewrite Hrest. cbn. by rewrite Hm, Hlen, Nat.eqb_refl.
    + rewrite length_zip_with. lia.
    + intros i Hi. rewrite lookup_zip_with.
      destruct (lookup_lt_is_Some_2 m i) as [row Hrow]; [lia|].
      rewrite Hrow, (Hrows i Hi). cbn. by rewrite Hrow.
Qed.

(** C8: [SwitchedLikelihood.predict_mean_and_var] takes no index and does
    not partition: every child is called on the whole of [Fmu] and [Fvar],
    and row [i] of the mean (of the variance) is the row [i] of the
    children's means (variances) one after the other, one block of columns
    per child. *)
Theorem Switched_predict_mean_and_var_blocks (self : SwitchedLikelihood.t)
    (Fmu Fvar : matrix T) (mvs : list (matrix T * matrix T)) :
  SwitchedLikelihood.likelihood_list self <> [] ->
  Forall2 (fun lik mv =>
             predict_mean_and_var lik Fmu Fvar = Ok mv /\
             length (fst mv) = length Fmu /\ length (snd mv) = length Fmu)
          (SwitchedLikelihood.likelihood_list self) mvs ->
  exists mu var,
    SwitchedLikelihood.predict_mean_and_var self Fmu Fvar = Ok (mu, var) /\
    length mu = length Fmu /\ length var = length Fmu /\
    forall i, (i < length Fmu)%nat ->
      mu !! i = Some (mjoin (map (fun mv => default [] (fst mv !! i)) mvs)) /\
      var !! i = Some (mjoin (map (fun mv => default [] (snd mv !! i)) mvs)).
Proof.
  intros Hne Hmvs.
  assert (HmapM : mapM (fun lik => predict_mean_and_var lik Fmu Fvar)
                    (SwitchedLikelihood.likelihood_list self) = Ok mvs).
  { clear Hne. induction Hmvs as [|lik mv liks mvs (Hmv & _) _ IH]; [done|].
    cbn. rewrite Hmv. cbn. by rewrite IH. }
  assert (Hmvs_ne : mvs <> []).
  { intros ->. apply Forall2_length in Hmvs.
    destruct (SwitchedLikelihood.likelihood_list self); done. }
  destruct (concat1_rows (map fst mvs) (length Fmu)) as (mu & Hmu & Hmu_len & Hmu_rows).
  { by destruct mvs. }
  { apply Forall_fmap, Forall_forall. intros mv [k Hk]%list_elem_of_lookup.
    rewrite Forall2_lookup in Hmvs. specialize (Hmvs k). rewrite Hk in Hmvs.
    inversion Hmvs as [? ? (_ & Hl & _)|]; subst. exact Hl. }
  destruct (concat1_rows (map snd mvs) (length Fmu)) as (var & Hvar & Hvar_len & Hvar_rows).
  { by destruct mvs. }
  { apply Forall_fmap, Forall_forall. intros mv [k Hk]%list_elem_of_lookup.
    rewrite Forall2_lookup in Hmvs. specialize (Hmvs k). rewrite Hk in Hmvs.
    inversion Hmvs as [? ? (_ & _ & Hl)|]; subst. exact Hl. }
  exists mu, var. split; [|split; [done|split; [done|]]].
  - unfold SwitchedLikelihood.predict_mean_and_var. rewrite HmapM.
    cbn [mbind result_bind].
    replace (Nat.eqb (length mvs) 0) with false by (by destruct mvs).
    cbn [mbind result_bind]. rewrite Hmu. cbn [mbind result_bind].
    rewrite Hvar. reflexivity.
  - intros i Hi. rewrite (Hmu_rows i Hi), (Hvar_rows i Hi).
    rewrite !map_map. done.
Qed.
End SwitchedPredict.

Lemma Switched_predict_mean_and_var_blocks_witness :
  exists mu var,
    SwitchedLikelihood.predict_mean_and_var SwitchedExample.composite
      SwitchedExample.F SwitchedExample.Y = Ok (mu, var) /\
    mu !! 1%nat = Some ([20] ++ [20])%Z /\
    var !! 1%nat = Some ([2; 1] ++ [2; 1])%Z.
Proof.
  destruct (Switched_predict_mean_and_var_blocks SwitchedExample.composite
              SwitchedExample.F SwitchedExample.Y
              [(SwitchedExample.F, SwitchedExample.Y);
               (SwitchedExample.F, SwitchedExample.Y)])
    as (mu & var & Hcall & _ & _ & Hrows).
  - discriminate.
  - repeat constructor.
  - exists mu, var. split; [exact Hcall|]. apply (Hrows 1%nat). cbn. lia.
Defined.

(** ** MultiClass: the inverse link must be a RobustMax *)

Section MultiClassProps.
Context {rt : Runtime}.

(** C6: constructing [MultiClass] with an inverse link that is not a
    [RobustMax] raises [NotImplementedError], and so do [logp],
    [variational_expectations], [predict_mean_and_var] and
    [predict_density] on an object whose inverse link is not a [RobustMax]:
    each call ends in the failure and yields no value. *)
Theorem MultiClass_not_robustmax_raises (self : MultiClass.t)
    (g : matrix R -> result (matrix R)) (num_classes : nat)
    (F Fmu Fvar Y : matrix R) :
  MultiClass.invlink self = MultiClass.not_robustmax g ->
  MultiClass.__init__ num_classes (Some (MultiClass.not_robustmax g))
    = Raise NotImplementedError /\
  MultiClass.logp self F Y = Raise NotImplementedError /\
  MultiClass.variational_expectations self Fmu Fvar Y = Raise NotImplementedError /\
  MultiClass.predict_mean_and_var self Fmu Fvar = Raise NotImplementedError /\
  MultiClass.predict_density self Fmu Fvar Y = Raise NotImplementedError.
Proof.
  intros Hlink.
  unfold MultiClass.logp, MultiClass.variational_expectations,
    MultiClass.predict_mean_and_var, MultiClass.predict_density,
    MultiClass._predict_non_logged_density.
  rewrite Hlink. repeat split; reflexivity.
Qed.

(** With no inverse link given, or with a [RobustMax], the constructor
    succeeds and the object holds a [RobustMax]. *)
Lemma MultiClass_init_robustmax (num_classes : nat) (invlink : option MultiClass.link) :
  (forall g, invlink <> Some (MultiClass.not_robustmax g)) ->
  exists self r,
    MultiClass.__init__ num_classes invlink = Ok self /\
    MultiClass.invlink self = MultiClass.robustmax r.
Proof.
  intros Hrm. destruct invlink as [[r|g]|]; cbn.
  - by eexists _, r.
  - by destruct (Hrm g).
  - by eexists _, _.
Qed.
End MultiClassProps.

Lemma MultiClass_not_robustmax_raises_witness :
  let rt := ExampleRuntime.runtime in
  let softmax_link := MultiClass.not_robustmax (fun F => Ok (softmax F)) in
  let self := {| MultiClass.num_classes := 3;
                 MultiClass.invlink := softmax_link;
                 MultiClass.num_gauss_hermite_points := 20 |} in
  MultiClass.__init__ 3 (Some softmax_link) = Raise NotImplementedError /\
  MultiClass.logp self [[0; 1; 2]]%R [[1]]%R = Raise NotImplementedError /\
  MultiClass.variational_expectations self [[0; 1; 2]]%R [[1; 1; 1]]%R [[1]]%R
    = Raise NotImplementedError /\
  MultiClass.predict_mean_and_var self [[0; 1; 2]]%R [[1; 1; 1]]%R
    = Raise NotImplementedError /\
  MultiClass.predict_density self [[0; 1; 2]]%R [[1; 1; 1]]%R [[1]]%R
    = Raise NotImplementedError.
Proof.
  intros rt softmax_link self.
  apply (MultiClass_not_robustmax_raises self (fun F => Ok (softmax F))).
  reflexivity.
Defined.

(** ** SoftMax: the shape assertions *)

Lemma shape1_is_Forall {X} (M : matrix X) (n : nat) :
  tf.shape1_is M n = true <-> Forall (fun row => length row = n) M.
Proof.
  unfold tf.shape1_is. rewrite forallb_forall, Forall_forall.
  split; intros Hall row Hrow.
  - apply Nat.eqb_eq, Hall. by apply list_elem_of_In.
  - apply Nat.eqb_eq, Hall. by apply list_elem_of_In.
Qed.

(** C9: [SoftMax.logp] fails with the assertion error as soon as [Y] does
    not have exactly one column or the rows of [F] do not have
    [num_classes] entries, whatever the cross-entropy of the inputs would
    be. *)
Theorem SoftMax_logp_requires_shapes (self : SoftMax.t) (F Y : matrix R) :
  ~ (Forall (fun row => length row = 1%nat) Y /\
     Forall (fun row => length row = SoftMax.num_classes self) F) ->
  SoftMax.logp self F Y = Raise InvalidArgumentError.
Proof.
  intros Hbad. unfold SoftMax.logp.
  destruct (tf.shape1_is Y 1) eqn:HY; [|done].
  destruct (tf.shape1_is F (SoftMax.num_classes self)) eqn:HF; [|done].
  destruct Hbad. split; by apply shape1_is_Forall.
Qed.

(** With the shapes as required, the result is the negated cross-entropy
    of the rows of [F] against the labels in the single column of [Y]. *)
Lemma SoftMax_logp_shapes_ok (self : SoftMax.t) (F Y : matrix R) :
  Forall (fun row => length row = 1%nat) Y ->
  Forall (fun row => length row = SoftMax.num_classes self) F ->
  SoftMax.logp self F Y
  = sparse_softmax_cross_entropy_with_logits F (mjoin Y) ≫= fun ce =>
      Ok (map (fun c => [(- c)%R]) ce).
Proof.
  intros HY HF. unfold SoftMax.logp.
  rewrite (proj2 (shape1_is_Forall Y 1) HY).
  rewrite (proj2 (shape1_is_Forall F _) HF). cbn [negb].
  replace (mapM _ Y) with (Ok (mjoin Y)); [done|].
  clear HF. induction HY as [|row Y Hrow _ IH]; [done|].
  destruct row as [|y [|y' row]]; try done.
  cbn. rewrite <- IH. reflexivity.
Qed.

Lemma SoftMax_logp_requires_shapes_witness :
  SoftMax.logp (SoftMax.__init__ 3) [[1; 2]]%R [[0]]%R = Raise InvalidArgumentError /\
  SoftMax.logp (SoftMax.__init__ 3) [[1; 2; 3]]%R [[0; 1]]%R = Raise InvalidArgumentError.
Proof.
  split; apply SoftMax_logp_requires_shapes.
  - intros [_ HF]. apply Forall_cons in HF as [HF _]. cbn in HF. lia.
  - intros [HY _]. apply Forall_cons in HY as [HY _]. cbn in HY. lia.
Defined.

(** ** Bernoulli *)

Section BernoulliProps.
Context {rt : Runtime}.
Local Open Scope R_scope.

(** The closed form taken on the probit link. *)
Lemma Bernoulli_probit_mean_and_var (self : Bernoulli.t) (Fmu Fvar : matrix R) :
  Bernoulli.invlink self = inv_probit_fn ->
  same_shape Fvar Fmu ->
  let p := tf.map1 inv_probit
             (zip_with (zip_with Rdiv) Fmu (tf.map1 (fun v => sqrt (1 + v)) Fvar)) in
  Bernoulli.predict_mean_and_var self Fmu Fvar
  = Ok (p, zip_with (zip_with Rminus) p (tf.map1 Rsqr p)).
Proof.
  intros Hlink Hvar p. unfold Bernoulli.predict_mean_and_var.
  rewrite Hlink. cbn [is_inv_probit].
  assert (Hmu : same_shape Fmu Fmu) by apply same_shape_refl.
  rewrite map2_same_shape by shape_pair Fmu. cbn [mbind result_bind].
  rewrite map2_same_shape by shape_pair Fmu. reflexivity.
Qed.

(** C7: [Bernoulli.predict_mean_and_var] takes the closed form exactly when
    the inverse link is [inv_probit]: then the mean is
    [p = inv_probit(Fmu / sqrt(1 + Fvar))] and the variance [p - p^2],
    entry by entry; with any other inverse link the call is the generic
    quadrature of the base class on this object's conditional mean and
    variance. *)
Theorem Bernoulli_predict_mean_and_var_dispatch (self : Bernoulli.t)
    (Fmu Fvar : matrix R) :
  same_shape Fvar Fmu ->
  (Bernoulli.invlink self = inv_probit_fn ->
   exists p v,
     Bernoulli.predict_mean_and_var self Fmu Fvar = Ok (p, v) /\
     same_shape p Fmu /\ same_shape v Fmu /\
     forall i j m s,
       entry Fmu i j = Some m -> entry Fvar i j = Some s ->
       entry p i j = Some (inv_probit (m / sqrt (1 + s))) /\
       entry v i j = Some (inv_probit (m / sqrt (1 + s))
                           - (inv_probit (m / sqrt (1 + s)))²)) /\
  (Bernoulli.invlink self <> inv_probit_fn ->
   Bernoulli.predict_mean_and_var self Fmu Fvar
   = Likelihood.predict_mean_and_var
       (Bernoulli.conditional_mean self) (Bernoulli.conditional_variance self)
       (Bernoulli.num_gauss_hermite_points self) Fmu Fvar).
Proof.
  intros Hvar. split.
  - intros Hlink. rewrite Bernoulli_probit_mean_and_var by done.
    assert (Hmu : same_shape Fmu Fmu) by apply same_shape_refl.
    eexists _, _. split; [reflexivity|].
    split; [shape_base Fmu|]. split; [shape_base Fmu|].
    intros i j m s Hm Hs. split; entry_eq; reflexivity.
  - intros Hlink. unfold Bernoulli.predict_mean_and_var.
    destruct (Bernoulli.invlink self); try done.
Qed.

(** C10: [Bernoulli.predict_density] is the Bernoulli log-mass of [Y] at
    the mean [p] that [Bernoulli.predict_mean_and_var] returns for the same
    [Fmu] and [Fvar] (the probit closed form, or the quadrature for another
    link): for a binary [y] the entry is [y ln p + (1 - y) ln (1 - p)].  No
    log-space quadrature over [logp] takes part. *)
Theorem Bernoulli_predict_density_at_mean (self : Bernoulli.t)
    (Fmu Fvar Y p v : matrix R) :
  Bernoulli.predict_mean_and_var self Fmu Fvar = Ok (p, v) ->
  same_shape p Y ->
  exists out,
    Bernoulli.predict_density self Fmu Fvar Y = Ok out /\
    same_shape out Y /\
    forall i j y q,
      entry Y i j = Some y -> entry p i j = Some q ->
      y = 0 \/ y = 1 ->
      entry out i j = Some (y * ln q + (1 - y) * ln (1 - q)).
Proof.
  intros Hpv Hp. unfold Bernoulli.predict_density.
  rewrite Hpv. cbn [mbind result_bind fst]. unfold logdensities.bernoulli.
  assert (HY : same_shape Y Y) by apply same_shape_refl.
  rewrite map2_same_shape by shape_pair Y.
  eexists. split; [reflexivity|]. split; [shape_base Y|].
  intros i j y q Hy Hq Hbin. entry_eq.
  destruct (Req_dec_T y 1) as [-> | Hne]; [lra|].
  destruct Hbin as [-> | ->]; [lra|done].
Qed.

(** When the mean fails, so does the density. *)
Lemma Bernoulli_predict_density_raises (self : Bernoulli.t)
    (Fmu Fvar Y : matrix R) (e : exn) :
  Bernoulli.predict_mean_and_var self Fmu Fvar = Raise e ->
  Bernoulli.predict_density self Fmu Fvar Y = Raise e.
Proof. intros Hpv. unfold Bernoulli.predict_density. by rewrite Hpv. Qed.
End BernoulliProps.

Lemma Bernoulli_predict_mean_and_var_dispatch_witness :
  let rt := ExampleRuntime.runtime in
  let Fmu := [[0%R]] in
  let Fvar := [[3%R]] in
  (exists p v,
     Bernoulli.predict_mean_and_var (Bernoulli.__init__ inv_probit_fn) Fmu Fvar
     = Ok (p, v) /\
     entry p 0 0 = Some (inv_probit (0 / sqrt (1 + 3)))%R /\
     entry v 0 0 = Some (inv_probit (0 / sqrt (1 + 3))
                         - (inv_probit (0 / sqrt (1 + 3)))²)%R) /\
  Bernoulli.predict_mean_and_var (Bernoulli.__init__ tf_exp) Fmu Fvar
  = Likelihood.predict_mean_and_var
      (Bernoulli.conditional_mean (Bernoulli.__init__ tf_exp))
      (Bernoulli.conditional_variance (Bernoulli.__init__ tf_exp))
      20 Fmu Fvar.
Proof.
  intros rt Fmu Fvar. split.
  - destruct (Bernoulli_predict_mean_and_var_dispatch
                (Bernoulli.__init__ inv_probit_fn) Fmu Fvar)
      as [Hprobit _]; [repeat constructor|].
    destruct (Hprobit eq_refl) as (p & v & Hcall & _ & _ & Hentries).
    exists p, v. split; [exact Hcall|].
    apply (Hentries 0%nat 0%nat 0%R 3%R); reflexivity.
  - destruct (Bernoulli_predict_mean_and_var_dispatch
                (Bernoulli.__init__ tf_exp) Fmu Fvar)
      as [_ Hother]; [repeat constructor|].
    apply Hother. discriminate.
Defined.

Lemma Bernoulli_predict_density_at_mean_witness :
  let rt := ExampleRuntime.runtime in
  let p := tf.map1 inv_probit
             (zip_with (zip_with Rdiv) [[0%R]] (tf.map1 (fun v => sqrt (1 + v))%R [[3%R]])) in
  exists out,
    Bernoulli.predict_density (Bernoulli.__init__ inv_probit_fn)
      [[0%R]] [[3%R]] [[1%R]] = Ok out /\
    entry out 0 0
    = Some (1 * ln (inv_probit (0 / sqrt (1 + 3)))
            + (1 - 1) * ln (1 - inv_probit (0 / sqrt (1 + 3))))%R.
Proof.
  intros rt p.
  destruct (Bernoulli_predict_density_at_mean (Bernoulli.__init__ inv_probit_fn)
              [[0%R]] [[3%R]] [[1%R]] p
              (zip_with (zip_with Rminus) p (tf.map1 Rsqr p)))
    as (out & Hcall & _ & Hentries).
  - apply Bernoulli_probit_mean_and_var; [reflexivity | repeat constructor].
  - repeat constructor.
  - exists out. split; [exact Hcall|].
    apply (Hentries 0%nat 0%nat 1%R); [reflexivity | reflexivity | by right].
Defined.

(** ** The quadrature rule on total integrands *)

Section QuadratureProps.
Context {rt : Runtime}.
Local Open Scope R_scope.

Lemma gauss_hermite_total (n : nat) (g : R -> result R) (g' : R -> R) (mu var : R) :
  (forall f, g f = Ok (g' f)) ->
  quadrature.gauss_hermite n false g mu var = Ok (gauss_hermite_sum n g' mu var).
Proof.
  intros Hg. unfold quadrature.gauss_hermite, gauss_hermite_sum.
  rewrite (mapM_Ok_map _ (fun x => g' (mu + sqrt (2 * var) * x))) by (intros; apply Hg).
  cbn [mbind result_bind]. f_equal.
  generalize (snd (hermgauss n)). induction (fst (hermgauss n)) as [|x xs IH];
    intros [|w ws]; cbn; try done.
  by rewrite IH.
Qed.

(** The rule is linear, and exact on constants and on the identity when
    its weights sum to [sqrt PI] and its first moment vanishes. *)
Lemma weighted_sum_affine (ws xs : list R) (c A B C : R) (phi : R -> R) :
  length ws = length xs ->
  Rsum (zip_with (fun w x => w / c * (A + B * x + C * phi x)) ws xs)
  = A / c * Rsum ws + B / c * Rsum (zip_with Rmult ws xs)
    + C * Rsum (zip_with (fun w x => w / c * phi x) ws xs).
Proof.
  unfold Rsum.
  revert xs. induction ws as [|w ws IH]; intros [|x xs]; cbn; try done.
  - intros _. lra.
  - intros [= Hlen]. rewrite (IH xs Hlen). unfold Rdiv. lra.
Qed.

Lemma gauss_hermite_sum_affine_exp (n : nat) (A B C mu var : R) :
  length (snd (hermgauss n)) = length (fst (hermgauss n)) ->
  Rsum (snd (hermgauss n)) = sqrt PI ->
  Rsum (zip_with Rmult (snd (hermgauss n)) (fst (hermgauss n))) = 0 ->
  gauss_hermite_sum n (fun f => A + B * f + C * exp f) mu var
  = A + B * mu + C * gauss_hermite_sum n exp mu var.
Proof.
  intros Hlen Hw Hwx. unfold gauss_hermite_sum.
  set (s := sqrt (2 * var)).
  rewrite (zip_with_ext _
             (fun w x => w / sqrt PI
                         * ((A + B * mu) + (B * s) * x + C * exp (mu + s * x)))
             (snd (hermgauss n)) (snd (hermgauss n))
             (fst (hermgauss n)) (fst (hermgauss n)))
    by (intros; done || lra).
  rewrite weighted_sum_affine by done. rewrite Hw, Hwx.
  assert (0 < sqrt PI) by (apply sqrt_lt_R0, PI_RGT_0).
  field. lra.
Qed.
End QuadratureProps.

(** ** Poisson *)

Section PoissonProps.
Context {rt : Runtime}.
Local Open Scope R_scope.

Lemma gauss_hermite_sum_ext (n : nat) (g g' : R -> R) (mu var : R) :
  (forall f, g f = g' f) ->
  gauss_hermite_sum n g mu var = gauss_hermite_sum n g' mu var.
Proof.
  intros Hg. unfold gauss_hermite_sum. f_equal.
  apply zip_with_ext; [|done..]. intros w x. by rewrite Hg.
Qed.

(** The closed form taken on the exponential link. *)
Lemma Poisson_closed_form (self : Poisson.t) (Fmu Fvar Y : matrix R) :
  Poisson.invlink self = tf_exp ->
  same_shape Fmu Y -> same_shape Fvar Y ->
  Poisson.variational_expectations self Fmu Fvar Y
  = Ok (zip_with (zip_with Rplus)
          (zip_with (zip_with Rminus)
             (zip_with (zip_with Rminus)
                (zip_with (zip_with Rmult) Y Fmu)
                (tf.map1 (fun e => exp e * Poisson.binsize self)
                   (zip_with (zip_with Rplus) Fmu (tf.map1 (fun v => v / 2) Fvar))))
             (tf.map1 (fun y => lgamma (y + 1)) Y))
          (tf.map1 (fun y => y * ln (Poisson.binsize self)) Y)).
Proof.
  intros Hlink Hmu Hvar. unfold Poisson.variational_expectations.
  rewrite Hlink. cbn [is_tf_exp].
  assert (HY : same_shape Y Y) by apply same_shape_refl.
  do 5 (rewrite map2_same_shape by shape_pair Y; cbn [mbind result_bind]).
  reflexivity.
Qed.

(** [logp] at one latent value and one datum. *)
Lemma Poisson_logp_point (self : Poisson.t) (f y : R) :
  Poisson.invlink self = tf_exp ->
  Poisson.logp self [[f]] [[y]] ≫= quadrature.scalar_of
  = Ok (y * ln (exp f * Poisson.binsize self) - exp f * Poisson.binsize self
        - lgamma (y + 1)).
Proof.
  intros Hlink. unfold Poisson.logp. rewrite Hlink. reflexivity.
Qed.

(** The generic quadrature of the base class on the Poisson [logp]. *)
Lemma Poisson_generic_quadrature (self : Poisson.t) (Fmu Fvar Y : matrix R) :
  Poisson.invlink self = tf_exp ->
  same_shape Fmu Y -> same_shape Fvar Y ->
  Likelihood.variational_expectations (Poisson.logp self)
    (Poisson.num_gauss_hermite_points self) Fmu Fvar Y
  = Ok (zip_with (zip_with (fun (mv : R * R) y =>
            gauss_hermite_sum (Poisson.num_gauss_hermite_points self)
              (fun f => y * ln (exp f * Poisson.binsize self)
                        - exp f * Poisson.binsize self - lgamma (y + 1))
              (fst mv) (snd mv)))
          (zip_with (zip_with pair) Fmu Fvar) Y).
Proof.
  intros Hlink Hmu Hvar.
  unfold Likelihood.variational_expectations, quadrature.ndiagquad_Y.
  assert (HY : same_shape Y Y) by apply same_shape_refl.
  rewrite (map2M_same_shape _ pair) by (done || shape_pair Y).
  cbn [mbind result_bind].
  apply map2M_same_shape; [shape_pair Y|].
  intros i j mv y _ _. apply gauss_hermite_total.
  intros f. by apply Poisson_logp_point.
Qed.

(** C5: [Poisson.variational_expectations] takes the closed form
    [Y Fmu - binsize exp(Fmu + Fvar / 2) - lgamma(Y + 1) + Y log(binsize)]
    exactly when the inverse link is the object [tf.exp], and is the generic
    quadrature of the base class for any other inverse link.  On the
    exponential link the generic quadrature differs from the closed form by
    [binsize] times the error of the quadrature rule on the exponential, and
    by nothing else, for a rule whose weights sum to [sqrt PI] and whose
    first moment vanishes. *)
Theorem Poisson_variational_expectations_dispatch (self : Poisson.t)
    (Fmu Fvar Y : matrix R) :
  same_shape Fmu Y -> same_shape Fvar Y ->
  (Poisson.invlink self = tf_exp ->
   exists closed,
     Poisson.variational_expectations self Fmu Fvar Y = Ok closed /\
     same_shape closed Y /\
     (forall i j m v y,
        entry Fmu i j = Some m -> entry Fvar i j = Some v -> entry Y i j = Some y ->
        entry closed i j
        = Some (y * m - exp (m + v / 2) * Poisson.binsize self
                - lgamma (y + 1) + y * ln (Poisson.binsize self))) /\
     (let n := Poisson.num_gauss_hermite_points self in
      length (snd (hermgauss n)) = length (fst (hermgauss n)) ->
      Rsum (snd (hermgauss n)) = sqrt PI ->
      Rsum (zip_with Rmult (snd (hermgauss n)) (fst (hermgauss n))) = 0 ->
      0 < Poisson.binsize self ->
      exists generic,
        Likelihood.variational_expectations (Poisson.logp self) n Fmu Fvar Y
        = Ok generic /\
        forall i j m v y c,
          entry Fmu i j = Some m -> entry Fvar i j = Some v ->
          entry Y i j = Some y -> entry closed i j = Some c ->
          entry generic i j
          = Some (c + Poisson.binsize self * quadrature_error_exp n m v))) /\
  (Poisson.invlink self <> tf_exp ->
   Poisson.variational_expectations self Fmu Fvar Y
   = Likelihood.variational_expectations (Poisson.logp self)
       (Poisson.num_gauss_hermite_points self) Fmu Fvar Y).
Proof.
  intros Hmu Hvar. split.
  - intros Hlink. rewrite Poisson_closed_form by done.
    assert (HY : same_shape Y Y) by apply same_shape_refl.
    eexists. split; [reflexivity|]. split; [shape_base Y|]. split.
    + intros i j m v y Hm Hv Hy. by entry_eq.
    + intros n Hlen Hw Hwx Hbin.
      rewrite Poisson_generic_quadrature by done.
      eexists. split; [reflexivity|].
      intros i j m v y c Hm Hv Hy Hc. fold n.
      assert (Hc' : c = y * m - exp (m + v / 2) * Poisson.binsize self
                        - lgamma (y + 1) + y * ln (Poisson.binsize self)).
      { apply (inj Some). rewrite <- Hc. by entry_eq. }
      entry_eq. cbn [fst snd].
      rewrite (gauss_hermite_sum_ext n _
                 (fun f => (y * ln (Poisson.binsize self) - lgamma (y + 1))
                           + y * f + (- Poisson.binsize self) * exp f)).
      * rewrite gauss_hermite_sum_affine_exp by done.
        rewrite Hc'. unfold quadrature_error_exp. lra.
      * intros f. rewrite ln_mult by (done || apply exp_pos).
        rewrite ln_exp. lra.
  - intros Hlink. unfold Poisson.variational_expectations.
    destruct (Poisson.invlink self); try done.
Qed.
End PoissonProps.

Lemma Poisson_variational_expectations_dispatch_witness :
  let rt := ExampleRuntime.runtime in
  let Fmu := [[0%R]] in
  let Fvar := [[2%R]] in
  let Y := [[3%R]] in
  (exists closed generic,
     Poisson.variational_expectations (Poisson.__init__ tf_exp 2%R) Fmu Fvar Y
     = Ok closed /\
     entry closed 0 0
     = Some (3 * 0 - exp (0 + 2 / 2) * 2 - lgamma (3 + 1) + 3 * ln 2)%R /\
     Likelihood.variational_expectations
       (Poisson.logp (Poisson.__init__ tf_exp 2%R)) 20 Fmu Fvar Y = Ok generic /\
     entry generic 0 0
     = Some ((3 * 0 - exp (0 + 2 / 2) * 2 - lgamma (3 + 1) + 3 * ln 2)
             + 2 * quadrature_error_exp 20 0 2)%R) /\
  Poisson.variational_expectations (Poisson.__init__ (callable exp) 2%R) Fmu Fvar Y
  = Likelihood.variational_expectations
      (Poisson.logp (Poisson.__init__ (callable exp) 2%R)) 20 Fmu Fvar Y.
Proof.
  intros rt Fmu Fvar Y. split.
  - destruct (Poisson_variational_expectations_dispatch
                (Poisson.__init__ tf_exp 2%R) Fmu Fvar Y) as [Hexp _];
      [repeat constructor..|].
    destruct (Hexp eq_refl) as (closed & Hcall & _ & Hclosed & Hgeneric).
    destruct Hgeneric as (generic & Hquad & Hdiff).
    + reflexivity.
    + unfold Rsum. cbn. lra.
    + unfold Rsum. cbn. lra.
    + cbn. lra.
    + exists closed, generic.
      pose proof (Hclosed 0%nat 0%nat 0%R 2%R 3%R eq_refl eq_refl eq_refl) as Hc.
      split; [exact Hcall|]. split; [exact Hc|]. split; [exact Hquad|].
      exact (Hdiff 0%nat 0%nat 0%R 2%R 3%R _ eq_refl eq_refl eq_refl Hc).
  - destruct (Poisson_variational_expectations_dispatch
                (Poisson.__init__ (callable exp) 2%R) Fmu Fvar Y) as [_ Hother];
      [repeat constructor..|].
    apply Hother. discriminate.
Defined.

(** ** RobustMax *)

Section RobustMaxProps.
Local Open Scope R_scope.

(** The invariant of the scan: [best] is the entry at [best_i] and bounds
    the entries already seen. *)
Lemma argmax_from_spec (pre xs : list R) (best_i : nat) (best : R) :
  pre !! best_i = Some best ->
  (forall x, x ∈ pre -> x <= best) ->
  exists top,
    (pre ++ xs) !! argmax_from best_i best (length pre) xs = Some top /\
    forall x, x ∈ pre ++ xs -> x <= top.
Proof.
  revert pre best_i best. induction xs as [|y xs IH]; intros pre best_i best Hb Hle; cbn.
  - exists best. rewrite app_nil_r. by split.
  - replace (pre ++ y :: xs) with ((pre ++ [y]) ++ xs) by (by rewrite <- app_assoc).
    replace (S (length pre)) with (length (pre ++ [y]))
      by (rewrite length_app; cbn; lia).
    destruct (Rlt_dec best y) as [Hlt|Hge].
    + apply IH.
      * rewrite lookup_app_r by lia. by rewrite Nat.sub_diag.
      * intros x [Hx|Hx%list_elem_of_singleton]%elem_of_app; [|lra].
        specialize (Hle x Hx). lra.
    + apply IH.
      * rewrite lookup_app_l; [done|]. by eapply lookup_lt_Some.
      * intros x [Hx|Hx%list_elem_of_singleton]%elem_of_app; [by apply Hle|lra].
Qed.

(** [argmax] returns a position of the row that holds its largest entry. *)
Lemma argmax_spec (row : list R) :
  row <> [] ->
  exists a top,
    argmax row = Ok a /\ row !! a = Some top /\ forall x, x ∈ row -> x <= top.
Proof.
  destruct row as [|x xs]; [done|]. intros _.
  destruct (argmax_from_spec [x] xs 0 x) as (top & Htop & Hmax); [done| |].
  - intros y ->%list_elem_of_singleton. lra.
  - exists (argmax_from 0 x 1 xs), top. by split.
Qed.

Lemma one_hot_lookup {X} (a j depth : nat) (on off : X) :
  (j < depth)%nat ->
  tf.one_hot (Z.of_nat a) depth on off !! j
  = Some (if Nat.eqb j a then on else off).
Proof.
  intros Hj. unfold tf.one_hot.
  rewrite list_lookup_fmap, lookup_seq_lt by done. cbn.
  destruct (Nat.eqb_spec j a) as [->|Hne].
  - by rewrite Z.eqb_refl.
  - destruct (Z.eqb_spec (Z.of_nat j) (Z.of_nat a)); [lia|done].
Qed.

Lemma one_hot_sum_from (a s n : nat) (on off : R) :
  Rsum (map (fun j => if Z.eqb (Z.of_nat j) (Z.of_nat a) then on else off) (seq s n))
  = if bool_decide (s <= a < s + n)%nat then on + (INR n - 1) * off
    else INR n * off.
Proof.
  revert s. induction n as [|n IH]; intros s.
  - cbn. rewrite bool_decide_eq_false_2 by lia. lra.
  - cbn [seq map Rsum foldr]. fold (Rsum (map
      (fun j => if Z.eqb (Z.of_nat j) (Z.of_nat a) then on else off) (seq (S s) n))).
    rewrite IH, S_INR.
    destruct (Z.eqb_spec (Z.of_nat s) (Z.of_nat a)) as [Heq|Hne].
    + rewrite bool_decide_eq_false_2 by lia.
      rewrite bool_decide_eq_true_2 by lia. lra.
    + destruct (decide (S s <= a < S s + n)%nat) as [Hin|Hout].
      * rewrite !bool_decide_eq_true_2 by lia. lra.
      * rewrite !bool_decide_eq_false_2 by lia. lra.
Qed.

Lemma one_hot_sum (a depth : nat) (on off : R) :
  (a < depth)%nat ->
  Rsum (tf.one_hot (Z.of_nat a) depth on off) = on + (INR depth - 1) * off.
Proof.
  intros Ha. unfold tf.one_hot. rewrite one_hot_sum_from.
  by rewrite bool_decide_eq_true_2 by lia.
Qed.

(** C3: on a score matrix with [K = num_classes] columns, [K] at least 2,
    every row of [RobustMax(F)] sums to 1, holds [1 - epsilon] at the
    position [tf.argmax] selects in the row of [F] (a position of a largest
    score) and [epsilon / (K - 1)] everywhere else. *)
Theorem RobustMax_call_rows (self : RobustMax.t) (F : matrix R) :
  (2 <= RobustMax.num_classes self)%nat ->
  Forall (fun row => length row = RobustMax.num_classes self) F ->
  exists out,
    RobustMax.__call__ self F = Ok out /\
    length out = length F /\
    forall i row, F !! i = Some row ->
      exists a top orow,
        argmax row = Ok a /\ row !! a = Some top /\ (forall x, x ∈ row -> x <= top) /\
        out !! i = Some orow /\
        Rsum orow = 1 /\
        orow !! a = Some (1 - RobustMax.epsilon self) /\
        forall j, (j < RobustMax.num_classes self)%nat -> j <> a ->
          orow !! j
          = Some (RobustMax.epsilon self / (INR (RobustMax.num_classes self) - 1)).
Proof.
  intros HK Hwidth.
  set (K := RobustMax.num_classes self) in *.
  rewrite Forall_forall in Hwidth.
  destruct (mapM_Ok_exists argmax F) as [idx Hidx].
  { intros row Hrow. destruct (argmax_spec row) as (a & _ & Ha & _).
    - intros ->. specialize (Hwidth _ Hrow). cbn in Hwidth. lia.
    - by exists a. }
  pose proof (mapM_Ok_inv _ _ _ Hidx) as Hall.
  unfold RobustMax.__call__. rewrite Hidx. cbn [mbind result_bind].
  eexists. split; [reflexivity|]. split.
  { rewrite length_map. symmetry. by eapply Forall2_length. }
  intros i row Hrow.
  assert (Hne : row <> []).
  { intros ->. specialize (Hwidth _ (list_elem_of_lookup_2 _ _ _ Hrow)).
    cbn in Hwidth. lia. }
  destruct (argmax_spec row Hne) as (a & top & Ha & Htop & Hmax).
  assert (HaK : (a < K)%nat).
  { rewrite <- (Hwidth row (list_elem_of_lookup_2 _ _ _ Hrow)).
    by eapply lookup_lt_Some. }
  rewrite Forall2_lookup in Hall. specialize (Hall i). rewrite Hrow in Hall.
  inversion Hall as [? a' Ha' Hrow' Hi|]; subst. rewrite Ha in Ha'. injection Ha' as <-.
  exists a, top. eexists. split; [done|]. split; [done|]. split; [done|].
  split; [by rewrite list_lookup_fmap, <- Hi|].
  fold K. split; [|split].
  - rewrite one_hot_sum by done. unfold RobustMax._eps_K1. fold K.
    assert (2 <= INR K) by (change 2 with (INR 2); by apply le_INR).
    field. lra.
  - by rewrite one_hot_lookup, Nat.eqb_refl.
  - intros j Hj Hja. rewrite one_hot_lookup by done.
    by destruct (Nat.eqb_spec j a).
Qed.
End RobustMaxProps.

Lemma RobustMax_call_rows_witness :
  exists out,
    RobustMax.__call__ (RobustMax.__init__ 3 1e-3%R) [[0; 5; 2]]%R = Ok out /\
    exists orow,
      out !! 0%nat = Some orow /\ Rsum orow = 1%R /\
      orow !! 1%nat = Some (1 - 1e-3)%R /\
      orow !! 0%nat = Some (1e-3 / (INR 3 - 1))%R /\
      orow !! 2%nat = Some (1e-3 / (INR 3 - 1))%R.
Proof.
  destruct (RobustMax_call_rows (RobustMax.__init__ 3 1e-3%R) [[0; 5; 2]]%R)
    as (out & Hcall & _ & Hrows).
  - cbn. lia.
  - repeat constructor.
  - exists out. split; [exact Hcall|].
    destruct (Hrows 0%nat [0; 5; 2]%R eq_refl)
      as (a & top & orow & Ha & _ & _ & Hout & Hsum & Hon & Hoff).
    assert (a = 1%nat) as ->.
    { cbn in Ha. destruct (Rlt_dec 0 5) as [_|Hn]; [|exfalso; lra].
      destruct (Rlt_dec 5 2) as [Hn|_]; [exfalso; lra|]. by injection Ha. }
    exists orow. repeat split; try done.
    + apply Hoff; cbn; lia.
    + apply Hoff; cbn; lia.
Defined.

(** ** Conditional variances *)

Lemma Forall_map1 {X Y} (P : Y -> Prop) (f : X -> Y) (A : matrix X) :
  Forall (Forall P) (tf.map1 f A) <-> Forall (Forall (fun x => P (f x))) A.
Proof.
  unfold tf.map1. rewrite Forall_fmap. apply Forall_proper; [|done].
  intros row. cbn. by rewrite Forall_fmap.
Qed.

Lemma zip_with_map1_diag {X Y Z} (f : X -> Y -> Z) (g : X -> Y) (A : matrix X) :
  zip_with (zip_with f) A (tf.map1 g A) = tf.map1 (fun x => f x (g x)) A.
Proof.
  unfold tf.map1. induction A as [|row A IH]; [done|]. cbn. rewrite IH. f_equal.
  clear. induction row as [|x row IH]; [done|]. cbn. by rewrite IH.
Qed.

Section VarianceProps.
Context {rt : Runtime}.
Local Open Scope R_scope.

(** [p - tf.square(p)] *)
Lemma minus_square (p : matrix R) :
  tf.map2 Rminus p (tf.map1 Rsqr p) = Ok (tf.map1 (fun x => x - x²) p).
Proof.
  rewrite map2_same_shape by (apply same_shape_sym, same_shape_map1_l).
  by rewrite zip_with_map1_diag.
Qed.

Lemma probability_variance (x : R) : 0 <= x <= 1 -> 0 <= x - x².
Proof. intros Hx. unfold Rsqr. nra. Qed.

Lemma quotient_probability (a b : R) : 0 <= a <= b -> 0 < b -> 0 <= a / b <= 1.
Proof.
  intros Ha Hb. pose proof (Rinv_0_lt_compat b Hb) as Hinv.
  assert (Hone : b * / b = 1) by (apply Rinv_r; lra).
  unfold Rdiv. split; nra.
Qed.

Lemma Gaussian_variance_nonneg (self : Gaussian.t) (F : matrix R) :
  0 < Gaussian.variance self ->
  exists V, Gaussian.conditional_variance self F = Ok V /\ nonnegative V.
Proof.
  intros Hvar. eexists. split; [reflexivity|].
  apply Forall_map1, Forall_forall. intros row _. apply Forall_forall.
  intros f _. lra.
Qed.

Lemma Poisson_variance_nonneg (self : Poisson.t) (F : matrix R) :
  0 < Poisson.binsize self -> rate_link (Poisson.invlink self) F ->
  exists V, Poisson.conditional_variance self F = Ok V /\ nonnegative V.
Proof.
  intros Hbin Hlink. eexists. split; [reflexivity|].
  unfold apply_invlink. apply Forall_map1, Forall_map1.
  eapply Forall_impl; [exact Hlink|]. intros row Hrow.
  eapply Forall_impl; [exact Hrow|]. intros f Hf. cbn in Hf. nra.
Qed.

Lemma Exponential_variance_nonneg (self : Exponential.t) (F : matrix R) :
  exists V, Exponential.conditional_variance self F = Ok V /\ nonnegative V.
Proof.
  eexists. split; [reflexivity|].
  apply Forall_map1, Forall_forall. intros row _. apply Forall_forall.
  intros x _. apply Rle_0_sqr.
Qed.

Lemma StudentT_variance_nonneg (self : StudentT.t) (F : matrix R) :
  2 < StudentT.df self ->
  exists V, StudentT.conditional_variance self F = Ok V /\ nonnegative V.
Proof.
  intros Hdf. eexists. split; [reflexivity|].
  apply Forall_map1, Forall_forall. intros row _. apply Forall_forall.
  intros f _. apply Rmult_le_pos; [apply pow2_ge_0|].
  apply Rlt_le, Rdiv_lt_0_compat; lra.
Qed.

Lemma Bernoulli_variance_nonneg (self : Bernoulli.t) (F : matrix R) :
  probability_link (Bernoulli.invlink self) F ->
  exists V, Bernoulli.conditional_variance self F = Ok V /\ nonnegative V.
Proof.
  intros Hlink. unfold Bernoulli.conditional_variance, Bernoulli.conditional_mean.
  cbn [mbind result_bind]. rewrite minus_square.
  eexists. split; [reflexivity|].
  unfold apply_invlink. apply Forall_map1, Forall_map1.
  eapply Forall_impl; [exact Hlink|]. intros row Hrow.
  eapply Forall_impl; [exact Hrow|]. intros f Hf. by apply probability_variance.
Qed.

Lemma Gamma_variance_nonneg (self : Gamma.t) (F : matrix R) :
  0 < Gamma.shape self ->
  exists V, Gamma.conditional_variance self F = Ok V /\ nonnegative V.
Proof.
  intros Hshape. eexists. split; [reflexivity|].
  apply Forall_map1, Forall_forall. intros row _. apply Forall_forall.
  intros x _. pose proof (Rle_0_sqr x). nra.
Qed.

Lemma Beta_variance_nonneg (self : Beta.t) (F : matrix R) :
  0 < Beta.scale self -> probability_link (Beta.invlink self) F ->
  exists V, Beta.conditional_variance self F = Ok V /\ nonnegative V.
Proof.
  intros Hscale Hlink. unfold Beta.conditional_variance.
  rewrite minus_square. cbn [mbind result_bind].
  eexists. split; [reflexivity|].
  unfold apply_invlink. apply Forall_map1, Forall_map1, Forall_map1.
  eapply Forall_impl; [exact Hlink|]. intros row Hrow.
  eapply Forall_impl; [exact Hrow|]. intros f Hf.
  pose proof (probability_variance _ Hf).
  apply Rmult_le_pos; [done|]. apply Rlt_le, Rinv_0_lt_compat. lra.
Qed.
End VarianceProps.

Section ClassVarianceProps.
Context {rt : Runtime}.
Local Open Scope R_scope.

Lemma one_hot_Forall {X} (P : X -> Prop) (i : Z) (depth : nat) (on off : X) :
  P on -> P off -> Forall P (tf.one_hot i depth on off).
Proof.
  intros Hon Hoff. unfold tf.one_hot. apply Forall_fmap, Forall_forall.
  intros j _. cbn. by destruct (Z.eqb (Z.of_nat j) i).
Qed.

Lemma MultiClass_variance_nonneg (self : MultiClass.t) (r : RobustMax.t)
    (F : matrix R) :
  MultiClass.invlink self = MultiClass.robustmax r ->
  0 < RobustMax.epsilon r < 1 ->
  (2 <= RobustMax.num_classes r)%nat ->
  Forall (fun row => row <> []) F ->
  exists V, MultiClass.conditional_variance self F = Ok V /\ nonnegative V.
Proof.
  intros Hlink Heps HK Hrows.
  unfold MultiClass.conditional_variance, MultiClass.conditional_mean.
  rewrite Hlink. unfold RobustMax.__call__.
  destruct (mapM_Ok_exists argmax F) as [idx Hidx].
  { intros row Hrow. rewrite Forall_forall in Hrows.
    destruct (argmax_spec row (Hrows row Hrow)) as (a & _ & Ha & _). by exists a. }
  rewrite Hidx. cbn [mbind result_bind]. rewrite minus_square.
  eexists. split; [reflexivity|].
  apply Forall_map1, Forall_fmap, Forall_forall. intros a _. cbn.
  assert (HK' : 2 <= INR (RobustMax.num_classes r))
    by (change 2 with (INR 2); by apply le_INR).
  apply one_hot_Forall; apply probability_variance.
  - lra.
  - unfold RobustMax._eps_K1. apply quotient_probability; lra.
Qed.

Lemma Rsum_exp_bound (row : list R) (x : R) :
  x ∈ row -> 0 < exp x <= Rsum (map exp row).
Proof.
  unfold Rsum.
  assert (Hpos : forall l : list R, 0 <= foldr Rplus 0 (map exp l)).
  { induction l as [|y l IH]; cbn; [lra|]. pose proof (exp_pos y). lra. }
  intros Hx. split; [apply exp_pos|].
  induction row as [|y row IH]; [by apply elem_of_nil in Hx|].
  cbn. apply elem_of_cons in Hx as [->|Hx].
  - specialize (Hpos row). lra.
  - specialize (IH Hx). pose proof (exp_pos y). lra.
Qed.

Lemma SoftMax_variance_nonneg (self : SoftMax.t) (F : matrix R) :
  exists V, SoftMax.conditional_variance self F = Ok V /\ nonnegative V.
Proof.
  unfold SoftMax.conditional_variance, SoftMax.conditional_mean.
  cbn [mbind result_bind]. rewrite minus_square.
  eexists. split; [reflexivity|].
  apply Forall_map1. unfold softmax. apply Forall_fmap, Forall_forall.
  intros row _. cbn. apply Forall_fmap, Forall_forall. intros x Hx. cbn.
  destruct (Rsum_exp_bound row x Hx) as [Hpos Hle].
  apply probability_variance, quotient_probability; lra.
Qed.
End ClassVarianceProps.

(** ** Ordinal *)

Section WeightedMoments.
Local Open Scope R_scope.

Lemma weighted_square_sum (ps ys : list R) (t : R) :
  length ps = length ys ->
  Rsum (zip_with (fun p y => p * (y - t)²) ps ys)
  = Rsum (zip_with Rmult ps (map Rsqr ys)) - 2 * t * Rsum (zip_with Rmult ps ys)
    + t² * Rsum ps.
Proof.
  unfold Rsum. revert ys. induction ps as [|p ps IH]; intros [|y ys]; cbn; try done.
  - intros _. unfold Rsqr. lra.
  - intros [= Hlen]. rewrite (IH ys Hlen). unfold Rsqr. lra.
Qed.

Lemma weighted_square_sum_nonneg (ps ys : list R) (t : R) :
  Forall (fun p => 0 <= p) ps ->
  0 <= Rsum (zip_with (fun p y => p * (y - t)²) ps ys).
Proof.
  unfold Rsum. intros Hps. revert ys.
  induction Hps as [|p ps Hp _ IH]; intros [|y ys]; cbn; try lra.
  specialize (IH ys). pose proof (Rle_0_sqr (y - t)). nra.
Qed.

Lemma Rsum_nonneg (ps : list R) : Forall (fun p => 0 <= p) ps -> 0 <= Rsum ps.
Proof. unfold Rsum. induction 1; cbn; lra. Qed.

(** The second moment of weights that are non-negative and sum to at most
    one dominates the square of the first. *)
Lemma weighted_variance_nonneg (ps ys : list R) :
  Forall (fun p => 0 <= p) ps -> Rsum ps <= 1 -> length ps = length ys ->
  0 <= Rsum (zip_with Rmult ps (map Rsqr ys)) - (Rsum (zip_with Rmult ps ys))².
Proof.
  intros Hps Hone Hlen.
  pose proof (weighted_square_sum_nonneg ps ys (Rsum (zip_with Rmult ps ys)) Hps) as Hsq.
  rewrite weighted_square_sum in Hsq by done.
  pose proof (Rsum_nonneg ps Hps) as H0.
  pose proof (Rle_0_sqr (Rsum (zip_with Rmult ps ys))) as H1.
  unfold Rsqr in *. nra.
Qed.

(** Differences of neighbours along an increasing chain from [a] to [b]:
    none is negative and they add up to [b - a]. *)
Lemma chain_differences_sum (gs : list R) (a b : R) :
  Rsum (zip_with Rminus (gs ++ [b]) (a :: gs)) = b - a.
Proof.
  unfold Rsum. revert a. induction gs as [|g gs IH]; intros a; cbn; [lra|].
  rewrite IH. lra.
Qed.

Lemma chain_differences_nonneg (gs : list R) (a b : R) :
  Sorted Rle (a :: gs ++ [b]) ->
  Forall (fun d => 0 <= d) (zip_with Rminus (gs ++ [b]) (a :: gs)).
Proof.
  revert a. induction gs as [|g gs IH]; intros a Hs; cbn.
  - apply Sorted_inv in Hs as [_ Hab]. apply HdRel_inv in Hab.
    constructor; [lra|constructor].
  - apply Sorted_inv in Hs as [Hs Hag]. apply HdRel_inv in Hag.
    constructor; [lra|]. by apply IH.
Qed.

Lemma chain_sorted (G : R -> R) (es : list R) (lo hi : R) :
  Sorted Rle es ->
  (forall x y, x <= y -> G x <= G y) ->
  (forall x, lo <= G x <= hi) -> lo <= hi ->
  Sorted Rle (lo :: map G es ++ [hi]).
Proof.
  intros Hes Hmono Hbound Hlohi.
  assert (Htail : Sorted Rle (map G es ++ [hi])).
  { induction Hes as [|e es Hes IH Hhd]; cbn; [by repeat constructor|].
    constructor; [done|].
    destruct es as [|e' es]; cbn; constructor.
    - apply Hbound.
    - apply HdRel_inv in Hhd. by apply Hmono. }
  constructor; [done|].
  destruct es as [|e es]; cbn; constructor; [done|apply Hbound].
Qed.
End WeightedMoments.

Lemma reshape_like_map {X} (h : X -> R) (F : matrix X) :
  reshape_like F (map h (mjoin F)) = tf.map1 h F.
Proof.
  induction F as [|row F IH]; [done|]. cbn.
  rewrite fmap_app. f_equal.
  - rewrite <- (length_map h row). apply take_app_length.
  - rewrite <- (length_map h row) at 1. rewrite drop_app_length. exact IH.
Qed.

Lemma neighbour_differences_map {X} (Phi : X -> R) (es : list X) (top bot : X) :
  zip_with (fun l r => (Phi l - Phi r)%R) (es ++ [top]) (bot :: es)
  = zip_with Rminus (map Phi es ++ [Phi top]) (Phi bot :: map Phi es).
Proof.
  revert bot. induction es as [|e es IH]; intros bot; [done|].
  cbn. by rewrite IH.
Qed.

Lemma zip_with_maps {W X Y Z} (f : X -> Y -> Z) (g : W -> X) (h : W -> Y) (l : list W) :
  zip_with f (map g l) (map h l) = map (fun x => f (g x) (h x)) l.
Proof. induction l as [|x l IH]; [done|]. cbn. by rewrite IH. Qed.

Section OrdinalProps.
Context {rt : Runtime}.
Local Open Scope R_scope.

(** The probabilities of the bins at one latent value. *)
Lemma Ordinal_bin_probabilities (self : Ordinal.t) (f : R) :
  0 < Ordinal.sigma self -> Sorted Rle (Ordinal.bin_edges self) -> erf_laws ->
  let edges := map (fun a => finite (a / Ordinal.sigma self)) (Ordinal.bin_edges self) in
  let row := zip_with (fun l r => Ordinal.inv_probit_at l (f / Ordinal.sigma self)
                                  - Ordinal.inv_probit_at r (f / Ordinal.sigma self))
               (edges ++ [pos_inf]) ([neg_inf] ++ edges) in
  Forall (fun p => 0 <= p) row /\ Rsum row <= 1 /\
  length row = (length (Ordinal.bin_edges self) + 1)%nat.
Proof.
  intros Hsigma Hsorted [Hbound Hmono] edges row.
  set (s := f / Ordinal.sigma self) in *.
  set (G := fun a => Ordinal.inv_probit_at (finite (a / Ordinal.sigma self)) s).
  set (lo := Ordinal.inv_probit_at neg_inf s).
  set (hi := Ordinal.inv_probit_at pos_inf s).
  assert (Hrow : row = zip_with Rminus (map G (Ordinal.bin_edges self) ++ [hi])
                         (lo :: map G (Ordinal.bin_edges self))).
  { unfold row, edges, G, lo, hi. cbn [app].
    rewrite (neighbour_differences_map (fun e => Ordinal.inv_probit_at e s)).
    by rewrite map_map. }
  assert (Hsqrt : 0 < sqrt 2.0) by (apply sqrt_lt_R0; lra).
  assert (HG_mono : forall x y, x <= y -> G x <= G y).
  { intros x y Hxy. unfold G, Ordinal.inv_probit_at, Ordinal.erf_at.
    assert (Harg : (x / Ordinal.sigma self - s) / sqrt 2.0
                   <= (y / Ordinal.sigma self - s) / sqrt 2.0).
    { apply Rmult_le_compat_r; [apply Rlt_le, Rinv_0_lt_compat, Hsqrt|].
      apply Rplus_le_compat_r, Rmult_le_compat_r; [|done].
      apply Rlt_le, Rinv_0_lt_compat, Hsigma. }
    specialize (Hmono _ _ Harg). lra. }
  assert (HG_bound : forall x, lo <= G x <= hi).
  { intros x. unfold G, lo, hi, Ordinal.inv_probit_at, Ordinal.erf_at.
    specialize (Hbound ((x / Ordinal.sigma self - s) / sqrt 2.0)). lra. }
  assert (Hlohi : lo <= hi).
  { unfold lo, hi, Ordinal.inv_probit_at, Ordinal.erf_at. lra. }
  rewrite Hrow. split; [|split].
  - apply chain_differences_nonneg. by apply chain_sorted.
  - rewrite chain_differences_sum.
    unfold lo, hi, Ordinal.inv_probit_at, Ordinal.erf_at. lra.
  - rewrite length_zip_with, length_app, length_cons.
    pose proof (length_map G (Ordinal.bin_edges self)). cbn. lia.
Qed.

Lemma Ordinal_variance_nonneg (self : Ordinal.t) (F : matrix R) :
  0 < Ordinal.sigma self ->
  Ordinal.num_bins self = (length (Ordinal.bin_edges self) + 1)%nat ->
  Sorted Rle (Ordinal.bin_edges self) -> erf_laws ->
  exists V, Ordinal.conditional_variance self F = Ok V /\ nonnegative V.
Proof.
  intros Hsigma Hbins Hsorted Hlaws.
  unfold Ordinal.conditional_variance, Ordinal._make_phi.
  set (rowf := fun f : R =>
         zip_with (fun l r => Ordinal.inv_probit_at l (f / Ordinal.sigma self)
                              - Ordinal.inv_probit_at r (f / Ordinal.sigma self))
           (map (fun a => finite (a / Ordinal.sigma self)) (Ordinal.bin_edges self)
              ++ [pos_inf])
           ([neg_inf]
              ++ map (fun a => finite (a / Ordinal.sigma self)) (Ordinal.bin_edges self))).
  set (Ys := map INR (seq 0 (Ordinal.num_bins self))).
  assert (HYs : length Ys = Ordinal.num_bins self)
    by (unfold Ys; by rewrite length_map, length_seq).
  assert (Hwidth : forall v : list R, length v = Ordinal.num_bins self ->
            matvec (map rowf (mjoin F)) v
            = Ok (map (fun row => [Rsum (zip_with Rmult row v)]) (map rowf (mjoin F)))).
  { intros v Hv. unfold matvec.
    rewrite (proj2 (shape1_is_Forall _ _)); [done|].
    apply Forall_fmap, Forall_forall. intros f _. cbn.
    destruct (Ordinal_bin_probabilities self f Hsigma Hsorted Hlaws) as (_ & _ & Hlen).
    fold (rowf f) in Hlen. lia. }
  rewrite (Hwidth Ys HYs). cbn [mbind result_bind].
  rewrite (Hwidth (map Rsqr Ys)) by (by rewrite length_map). cbn [mbind result_bind].
  set (var := fun f : R =>
         Rsum (zip_with Rmult (rowf f) (map Rsqr Ys))
         - (Rsum (zip_with Rmult (rowf f) Ys))²).
  assert (Hd : tf.map2 Rminus
                 (map (fun row => [Rsum (zip_with Rmult row (map Rsqr Ys))])
                    (map rowf (mjoin F)))
                 (tf.map1 Rsqr
                    (map (fun row => [Rsum (zip_with Rmult row Ys)]) (map rowf (mjoin F))))
               = Ok (map (fun f => [var f]) (mjoin F))).
  { rewrite map2_same_shape.
    - f_equal. unfold tf.map1. rewrite !map_map. by rewrite zip_with_maps.
    - unfold same_shape, tf.map1. rewrite !map_map.
      generalize (mjoin F). intros fs.
      induction fs as [|f fs IH]; cbn; by constructor. }
  rewrite Hd. cbn [mbind result_bind].
  replace (mjoin (map (fun f => [var f]) (mjoin F))) with (map var (mjoin F)); cycle 1.
  { generalize (mjoin F). intros fs.
    induction fs as [|f fs IH]; [done|].
    change (var f :: map var fs = var f :: mjoin (map (fun f => [var f]) fs)).
    by rewrite IH. }
  rewrite reshape_like_map.
  eexists. split; [reflexivity|].
  apply Forall_map1, Forall_forall. intros row _. apply Forall_forall. intros f _.
  destruct (Ordinal_bin_probabilities self f Hsigma Hsorted Hlaws)
    as (Hpos & Hone & Hlen).
  fold (rowf f) in Hpos, Hone, Hlen.
  unfold var. apply weighted_variance_nonneg; try done. lia.
Qed.
End OrdinalProps.

Section ConditionalVariance.
Context {rt : Runtime}.
Local Open Scope R_scope.

(** The default inverse links are valid: the exponential is a rate, and
    the jittered probit a probability when [erf] stays within [-1, 1]. *)
Lemma tf_exp_rate_link (F : matrix R) : rate_link tf_exp F.
Proof.
  apply Forall_forall. intros row _. apply Forall_forall. intros f _.
  cbn. apply Rlt_le, exp_pos.
Qed.

Lemma inv_probit_probability_link (F : matrix R) :
  (forall x, -1 <= erf x <= 1) -> probability_link inv_probit_fn F.
Proof.
  intros Hbound. apply Forall_forall. intros row _. apply Forall_forall.
  intros f _. cbn. unfold inv_probit.
  specialize (Hbound (f / sqrt 2.0)). lra.
Qed.

(** C4: for every likelihood of the module that has a conditional
    variance, with its hyperparameters and the latent input in their
    domains ([valid]), [conditional_variance(F)] returns a tensor without a
    negative entry. *)
Theorem conditional_variance_nonnegative (lik : variant) (F : matrix R) :
  valid lik F ->
  exists V, conditional_variance_of lik F = Ok V /\ nonnegative V.
Proof.
  destruct lik as [self|self|self|self|self|self|self|self|self|self|self];
    cbn [valid conditional_variance_of].
  - apply (Gaussian_variance_nonneg self).
  - apply (Gaussian_variance_nonneg self).
  - intros [Hbin Hlink]. by apply (Poisson_variance_nonneg self).
  - intros _. apply (Exponential_variance_nonneg self).
  - apply (StudentT_variance_nonneg self).
  - apply (Bernoulli_variance_nonneg self).
  - apply (Gamma_variance_nonneg self).
  - intros [Hscale Hlink]. by apply (Beta_variance_nonneg self).
  - intros (r & Hlink & Heps & HK & Hrows).
    exact (MultiClass_variance_nonneg self r F Hlink Heps HK Hrows).
  - intros (Hsigma & Hbins & Hsorted & Hlaws). by apply (Ordinal_variance_nonneg self).
  - intros _. apply (SoftMax_variance_nonneg self).
Qed.
End ConditionalVariance.

Lemma conditional_variance_nonnegative_witness :
  let rt := ExampleRuntime.runtime in
  let F := [[0; 1]; [-2; 3]]%R in
  (exists V,
     conditional_variance_of
       (StudentT_variant {| StudentT.scale := 1; StudentT.df := 3;
                            StudentT.num_gauss_hermite_points := 20 |}) F = Ok V /\
     nonnegative V) /\
  (exists V,
     conditional_variance_of (Poisson_variant (Poisson.__init__ tf_exp 1)) F = Ok V /\
     nonnegative V) /\
  (exists V,
     conditional_variance_of
       (MultiClass_variant
          {| MultiClass.num_classes := 2;
             MultiClass.invlink := MultiClass.robustmax (RobustMax.__init__ 2 1e-3);
             MultiClass.num_gauss_hermite_points := 20 |}) F = Ok V /\
     nonnegative V).
Proof.
  intros rt F. split; [|split]; apply conditional_variance_nonnegative;
    cbn [valid].
  - cbn [StudentT.df]. lra.
  - split; [unfold Poisson.__init__; cbn [Poisson.binsize]; lra|].
    apply tf_exp_rate_link.
  - exists (RobustMax.__init__ 2 1e-3). split; [reflexivity|].
    unfold RobustMax.__init__. cbn [RobustMax.epsilon RobustMax.num_classes].
    split; [lra|]. split; [lia|]. repeat constructor; discriminate.
Defined.

(** * Further properties *)

(** ** The switched likelihood: the other partitioned operations *)

Lemma zip_star_partitions {A B} (g : nat -> A -> B) (args : list A) (ks : list nat) :
  args <> [] ->
  zip_star (map (fun X => map (fun k => g k X) ks) args)
  = map (fun k => map (g k) args) ks.
Proof.
  induction args as [|X args IH]; [done|]. intros _.
  destruct args as [|X' args].
  - cbn. by rewrite map_map.
  - change (zip_with cons (map (fun k => g k X) ks)
              (zip_star (map (fun X => map (fun k => g k X) ks) (X' :: args)))
            = map (fun k => map (g k) (X :: X' :: args)) ks).
    rewrite IH by done. by rewrite zip_with_maps.
Qed.

Section SwitchedRows.
Context {T : Type} (cast_int32 : T -> Z).

(** What [_partition_and_stitch] does with any argument list that ends in
    [Y] and any method [meth] that [getattr] finds under [func_name]. *)
Lemma partition_and_stitch_rows (self : SwitchedLikelihood.t)
    (Xs : list (matrix T)) (Y : matrix T) (c : list T) (w : nat)
    (func_name : string)
    (meth : Likelihood T -> list (matrix T) -> result (matrix T)) :
  let ind := map cast_int32 c in
  let args := Xs ++ [strip_last_column Y] in
  (forall lik, getattr lik func_name = Ok (meth lik)) ->
  Forall (fun X => length X = length Y) Xs ->
  last_column Y = Ok c ->
  Forall (fun k => (0 <= k < Z.of_nat (SwitchedLikelihood.num_likelihoods self))%Z)
         ind ->
  (forall m lik, SwitchedLikelihood.likelihood_list self !! m = Some lik ->
     exists r,
       meth lik (map (tf.gather_part (Z.of_nat m) ind) args) = Ok r
       /\ length r = length (tf.gather_part (Z.of_nat m) ind ind)
       /\ Forall (fun row => length row = w) r) ->
  exists out,
    SwitchedLikelihood._partition_and_stitch cast_int32 self (Xs ++ [Y]) func_name
    = Ok out /\
    length out = length Y /\
    forall i k, ind !! i = Some k ->
      exists lik r row,
        SwitchedLikelihood.likelihood_list self !! Z.to_nat k = Some lik /\
        meth lik (map (tf.gather_part k ind) args) = Ok r /\
        r !! rank k ind i = Some row /\
        out !! i = Some row.
Proof.
  intros ind args Hget HXs Hc Hind Hchild.
  pose proof (last_column_length _ _ Hc) as Hclen.
  assert (Hlen_ind : length ind = length Y) by (unfold ind; by rewrite length_map).
  assert (Hargs_len : Forall (fun X => length X = length ind) args).
  { unfold args. apply Forall_app. split.
    - eapply Forall_impl; [exact HXs|]. intros X HX. cbn in HX. lia.
    - constructor; [|constructor]. unfold strip_last_column.
      rewrite length_map. lia. }
  assert (Hargs_ne : args <> []) by (unfold args; by destruct Xs).
  set (n := SwitchedLikelihood.num_likelihoods self) in *.
  set (liks := SwitchedLikelihood.likelihood_list self) in *.
  assert (Hn : length liks = n) by reflexivity.
  set (call := fun (fa : (list (matrix T) -> result (matrix T)) * list (matrix T)) =>
                 fst fa (snd fa)).
  set (pieces := map (fun k => map (tf.gather_part (Z.of_nat k) ind) args) (seq 0 n)).
  assert (Hpieces : forall m, (m < n)%nat ->
            pieces !! m = Some (map (tf.gather_part (Z.of_nat m) ind) args)).
  { intros m Hm. unfold pieces. by rewrite list_lookup_fmap, lookup_seq_lt. }
  destruct (mapM_Ok_exists call (zip (map meth liks) pieces)) as [results Hres].
  { intros [f a] [m Hm]%list_elem_of_lookup.
    apply lookup_zip_with_Some in Hm as (f' & a' & [= <- <-] & Hf & Ha).
    rewrite list_lookup_fmap in Hf.
    destruct (liks !! m) as [lik|] eqn:Hlik; [|done]. injection Hf as <-.
    assert (m < n)%nat as Hmn by (apply lookup_lt_Some in Hlik; lia).
    rewrite Hpieces in Ha by done. injection Ha as <-.
    destruct (Hchild m lik Hlik) as (r & Hr & _). exists r. exact Hr. }
  pose proof (mapM_Ok_inv _ _ _ Hres) as Hres2.
  assert (Hres_len : length results = n).
  { apply Forall2_length in Hres2. rewrite <- Hres2.
    rewrite length_zip_with, length_map. unfold pieces.
    rewrite length_map, length_seq. lia. }
  assert (Hres_k : forall m lik, liks !! m = Some lik ->
            exists r, results !! m = Some r /\
              meth lik (map (tf.gather_part (Z.of_nat m) ind) args) = Ok r /\
              length r = length (tf.gather_part (Z.of_nat m) ind ind) /\
              Forall (fun row => length row = w) r).
  { intros m lik Hlik.
    assert (m < n)%nat as Hmn by (apply lookup_lt_Some in Hlik; lia).
    destruct (lookup_lt_is_Some_2 results m) as [r Hr]; [lia|].
    exists r. split; [done|].
    rewrite Forall2_lookup in Hres2. specialize (Hres2 m).
    rewrite Hr in Hres2.
    rewrite lookup_zip_with, list_lookup_fmap, Hlik, Hpieces in Hres2 by done.
    cbn in Hres2. inversion Hres2 as [? ? Hcall|]; subst.
    unfold call in Hcall. cbn in Hcall.
    destruct (Hchild m lik Hlik) as (r' & Hr' & Hlen' & Hw').
    rewrite Hr' in Hcall. injection Hcall as <-. done. }
  set (parts := map (fun k => tf.gather_part (Z.of_nat k) ind (seq 0 (length ind)))
                    (seq 0 n)).
  set (out := tf.stitch_all (zip parts results)
                (replicate (tf.stitch_size parts) [])).
  assert (Hparts_elem : forall m x, (m < n)%nat ->
            x ∈ tf.gather_part (Z.of_nat m) ind (seq 0 (length ind)) ->
            ind !! x = Some (Z.of_nat m)).
  { intros m x Hm Hx. apply gather_part_seq_elem in Hx as [_ Hx].
    by rewrite Nat.sub_0_r in Hx. }
  assert (Hsize : tf.stitch_size parts = length ind).
  { apply Nat.le_antisymm.
    - apply stitch_size_le. intros idx x [m Hm]%list_elem_of_lookup Hx.
      unfold parts in Hm. rewrite list_lookup_fmap in Hm.
      destruct (seq 0 n !! m) as [m'|] eqn:Hseq; [|done].
      apply lookup_seq in Hseq as [-> Hmn]. injection Hm as <-.
      apply Hparts_elem in Hx; [|done]. by apply lookup_lt_Some in Hx.
    - destruct (Nat.eq_dec (length ind) 0) as [Hz|Hnz]; [lia|].
      set (N := pred (length ind)).
      destruct (lookup_lt_is_Some_2 ind N) as [k Hk]; [lia|].
      rewrite Forall_forall in Hind.
      pose proof (Hind k (list_elem_of_lookup_2 _ _ _ Hk)) as Hkr.
      enough (N < tf.stitch_size parts)%nat by lia.
      apply (stitch_size_ge parts
               (tf.gather_part k ind (seq 0 (length ind))) N).
      + apply list_elem_of_lookup. exists (Z.to_nat k). unfold parts.
        rewrite list_lookup_fmap, lookup_seq_lt by lia. cbn.
        by rewrite Z2Nat.id by lia.
      + apply list_elem_of_lookup. exists (rank k ind N).
        apply gather_part_lookup; [done|].
        rewrite lookup_seq_lt by lia. done. }
  exists out. split; [|split].
  - unfold SwitchedLikelihood._partition_and_stitch, last_arg.
    rewrite last_snoc. cbn [mbind result_bind]. rewrite Hc. cbn [mbind result_bind].
    fold ind.
    replace (set_last_arg (Xs ++ [Y]) (strip_last_column Y)) with args; cycle 1.
    { unfold set_last_arg, args. rewrite length_app. cbn [length].
      replace (pred (length Xs + 1)) with (length Xs + 0)%nat by lia.
      by rewrite insert_app_r. }
    rewrite (mapM_Ok_map _
               (fun X => map (fun k => tf.gather_part (Z.of_nat k) ind X) (seq 0 n))).
    2:{ intros X HX. rewrite Forall_forall in Hargs_len.
        apply dynamic_partition_Ok; [by apply Hargs_len|done]. }
    cbn [mbind result_bind].
    rewrite (zip_star_partitions (fun k X => tf.gather_part (Z.of_nat k) ind X))
      by done.
    fold pieces.
    rewrite (mapM_Ok_map _ meth) by (intros; apply Hget).
    cbn [mbind result_bind]. fold liks call.
    change (map (fun k => map (fun X => tf.gather_part (Z.of_nat k) ind X) args)
              (seq 0 n)) with pieces.
    rewrite Hres. cbn [mbind result_bind]. unfold tf.range. fold n.
    rewrite (dynamic_partition_Ok (seq 0 (length ind)) ind)
      by (try done; by rewrite length_seq).
    cbn [mbind result_bind]. unfold tf.dynamic_stitch. fold n parts.
    replace (tf.same_lengths parts results) with true; cycle 1.
    { symmetry. unfold tf.same_lengths. apply andb_true_iff. split.
      - apply Nat.eqb_eq. unfold parts. rewrite length_map, length_seq. lia.
      - apply forallb_forall. intros [idx r] [m Hm]%list_elem_of_In%list_elem_of_lookup.
        apply lookup_zip_with_Some in Hm as (idx' & r' & [= <- <-] & Hidx & Hr).
        unfold parts in Hidx. rewrite list_lookup_fmap in Hidx.
        destruct (seq 0 n !! m) as [m'|] eqn:Hseq; [|done].
        apply lookup_seq in Hseq as [-> Hmn]. injection Hidx as <-.
        destruct (lookup_lt_is_Some_2 liks m) as [lik Hlik]; [lia|].
        destruct (Hres_k m lik Hlik) as (r' & Hr'1 & _ & Hlen & _).
        rewrite Hr in Hr'1. injection Hr'1 as <-. cbn.
        apply Nat.eqb_eq. rewrite Hlen.
        by rewrite (gather_part_length _ _ (seq 0 (length ind)))
          by (by rewrite length_seq). }
    cbn [negb].
    rewrite (uniform_width_Forall results w); [reflexivity|].
    apply Forall_lookup. intros m r Hr.
    assert (m < n)%nat as Hmn by (apply lookup_lt_Some in Hr; lia).
    destruct (lookup_lt_is_Some_2 liks m) as [lik Hlik]; [lia|].
    destruct (Hres_k m lik Hlik) as (r' & Hr'1 & _ & _ & Hw).
    rewrite Hr in Hr'1. by injection Hr'1 as <-.
  - unfold out. rewrite stitch_all_length, length_replicate. lia.
  - intros i k Hi.
    rewrite Forall_forall in Hind.
    pose proof (Hind k (list_elem_of_lookup_2 _ _ _ Hi)) as Hkr.
    assert (Z.to_nat k < n)%nat as Hkn by lia.
    destruct (lookup_lt_is_Some_2 liks (Z.to_nat k)) as [lik Hlik]; [lia|].
    destruct (Hres_k _ lik Hlik) as (r & Hr & Hmeth & Hlen & Hw).
    rewrite Z2Nat.id in Hmeth, Hlen by lia.
    assert (Hrank : (rank k ind i < length r)%nat).
    { rewrite Hlen. by apply rank_lt. }
    destruct (lookup_lt_is_Some_2 r (rank k ind i) Hrank) as [row Hrow].
    exists lik, r, row. repeat split; try done.
    rewrite <- Hrow. unfold out.
    apply (stitch_all_in _ _ (Z.to_nat k)
             (tf.gather_part k ind (seq 0 (length ind)))).
    + rewrite lookup_zip_with. unfold parts.
      rewrite list_lookup_fmap, lookup_seq_lt by done. cbn.
      rewrite Z2Nat.id by lia. by rewrite Hr.
    + apply gather_part_seq_NoDup.
    + rewrite Hlen.
      by rewrite (gather_part_length _ _ (seq 0 (length ind)))
        by (by rewrite length_seq).
    + apply gather_part_lookup; [done|].
      apply lookup_seq_lt. by apply lookup_lt_Some in Hi.
    + rewrite length_replicate, Hsize. by apply lookup_lt_Some in Hi.
    + intros m' [idx r'] Hne Hm'.
      apply lookup_zip_with_Some in Hm' as (idx' & r'' & [= <- <-] & Hidx & _).
      unfold parts in Hidx. rewrite list_lookup_fmap in Hidx.
      destruct (seq 0 n !! m') as [m''|] eqn:Hseq; [|done].
      apply lookup_seq in Hseq as [-> Hmn]. injection Hidx as <-. cbn.
      intros Hx. apply Hparts_elem in Hx; [|done].
      rewrite Hi in Hx. injection Hx as ->. apply Hne. by rewrite Nat2Z.id.
Qed.
End SwitchedRows.

Section SwitchedOperations.
Context {T : Type} (cast_int32 : T -> Z).

(** X1: [SwitchedLikelihood.predict_density] dispatches by row as [logp]
    does: each child's [predict_density] is called on exactly the rows of
    [Fmu], [Fvar] and [Y] (without the index column) whose index selects
    it, and its answer for a row returns to the position of that row. *)
Theorem Switched_predict_density_rowwise (self : SwitchedLikelihood.t)
    (Fmu Fvar Y : matrix T) (c : list T) (w : nat) :
  let ind := map cast_int32 c in
  let part k (X : matrix T) := tf.gather_part k ind X in
  let Y' := strip_last_column Y in
  length Fmu = length Y -> length Fvar = length Y ->
  last_column Y = Ok c ->
  Forall (fun k => (0 <= k < Z.of_nat (SwitchedLikelihood.num_likelihoods self))%Z)
         ind ->
  (forall m lik, SwitchedLikelihood.likelihood_list self !! m = Some lik ->
     exists r,
       predict_density lik (part (Z.of_nat m) Fmu) (part (Z.of_nat m) Fvar)
         (part (Z.of_nat m) Y') = Ok r
       /\ length r = length (part (Z.of_nat m) Fmu)
       /\ Forall (fun row => length row = w) r) ->
  exists out,
    SwitchedLikelihood.predict_density cast_int32 self Fmu Fvar Y = Ok out /\
    length out = length Y /\
    forall i k, ind !! i = Some k ->
      exists lik r row,
        SwitchedLikelihood.likelihood_list self !! Z.to_nat k = Some lik /\
        predict_density lik (part k Fmu) (part k Fvar) (part k Y') = Ok r /\
        r !! rank k ind i = Some row /\
        out !! i = Some row.
Proof.
  intros ind part Y' Hmu Hvar Hc Hind Hchild.
  assert (Hlen : length Fmu = length ind).
  { unfold ind. rewrite length_map, (last_column_length _ _ Hc). done. }
  apply (partition_and_stitch_rows cast_int32 self [Fmu; Fvar] Y c w
           "predict_density"
           (fun lik args => match args with
                            | [a; b; y] => predict_density lik a b y
                            | _ => Raise TypeError
                            end)); try done.
  - by repeat constructor.
  - intros m lik Hlik. destruct (Hchild m lik Hlik) as (r & Hr & Hl & Hw).
    exists r. split; [exact Hr|]. split; [|done].
    rewrite Hl. unfold part. by apply gather_part_length.
Qed.

(** X2: [SwitchedLikelihood.variational_expectations] dispatches by row in
    the same way, through each child's [variational_expectations]. *)
Theorem Switched_variational_expectations_rowwise (self : SwitchedLikelihood.t)
    (Fmu Fvar Y : matrix T) (c : list T) (w : nat) :
  let ind := map cast_int32 c in
  let part k (X : matrix T) := tf.gather_part k ind X in
  let Y' := strip_last_column Y in
  length Fmu = length Y -> length Fvar = length Y ->
  last_column Y = Ok c ->
  Forall (fun k => (0 <= k < Z.of_nat (SwitchedLikelihood.num_likelihoods self))%Z)
         ind ->
  (forall m lik, SwitchedLikelihood.likelihood_list self !! m = Some lik ->
     exists r,
       variational_expectations lik (part (Z.of_nat m) Fmu) (part (Z.of_nat m) Fvar)
         (part (Z.of_nat m) Y') = Ok r
       /\ length r = length (part (Z.of_nat m) Fmu)
       /\ Forall (fun row => length row = w) r) ->
  exists out,
    SwitchedLikelihood.variational_expectations cast_int32 self Fmu Fvar Y = Ok out /\
    length out = length Y /\
    forall i k, ind !! i = Some k ->
      exists lik r row,
        SwitchedLikelihood.likelihood_list self !! Z.to_nat k = Some lik /\
        variational_expectations lik (part k Fmu) (part k Fvar) (part k Y') = Ok r /\
        r !! rank k ind i = Some row /\
        out !! i = Some row.
Proof.
  intros ind part Y' Hmu Hvar Hc Hind Hchild.
  assert (Hlen : length Fmu = length ind).
  { unfold ind. rewrite length_map, (last_column_length _ _ Hc). done. }
  apply (partition_and_stitch_rows cast_int32 self [Fmu; Fvar] Y c w
           "variational_expectations"
           (fun lik args => match args with
                            | [a; b; y] => variational_expectations lik a b y
                            | _ => Raise TypeError
                            end)); try done.
  - by repeat constructor.
  - intros m lik Hlik. destruct (Hchild m lik Hlik) as (r & Hr & Hl & Hw).
    exists r. split; [exact Hr|]. split; [|done].
    rewrite Hl. unfold part. by apply gather_part_length.
Qed.
End SwitchedOperations.

Lemma Switched_predict_density_rowwise_witness :
  exists out,
    SwitchedLikelihood.predict_density SwitchedExample.cast SwitchedExample.composite
      SwitchedExample.F SwitchedExample.F SwitchedExample.Y = Ok out /\
    out !! 3%nat = Some [160%Z].
Proof.
  destruct (Switched_predict_density_rowwise SwitchedExample.cast
              SwitchedExample.composite SwitchedExample.F SwitchedExample.F
              SwitchedExample.Y [0; 1; 0; 1; 0]%Z 1)
    as (out & Hcall & _ & Hrows).
  - reflexivity.
  - reflexivity.
  - reflexivity.
  - cbn. repeat (constructor; [unfold SwitchedExample.cast; lia|]). constructor.
  - intros [|[|m]] lik; cbn; intros [= <-].
    + eexists. split; [reflexivity|]. split; [reflexivity|]. repeat constructor.
    + eexists. split; [reflexivity|]. split; [reflexivity|]. repeat constructor.
  - exists out. split; [exact Hcall|].
    destruct (Hrows 3%nat 1%Z eq_refl) as (lik & r & row & Hlik & Hr & Hrow & Hout).
    cbn in Hlik. injection Hlik as <-. cbn in Hr. injection Hr as <-.
    cbn in Hrow. injection Hrow as <-. exact Hout.
Defined.

Lemma Switched_variational_expectations_rowwise_witness :
  exists out,
    SwitchedLikelihood.variational_expectations SwitchedExample.cast
      SwitchedExample.composite
      SwitchedExample.F SwitchedExample.F SwitchedExample.Y = Ok out /\
    out !! 2%nat = Some [33%Z].
Proof.
  destruct (Switched_variational_expectations_rowwise SwitchedExample.cast
              SwitchedExample.composite SwitchedExample.F SwitchedExample.F
              SwitchedExample.Y [0; 1; 0; 1; 0]%Z 1)
    as (out & Hcall & _ & Hrows).
  - reflexivity.
  - reflexivity.
  - reflexivity.
  - cbn. repeat (constructor; [unfold SwitchedExample.cast; lia|]). constructor.
  - intros [|[|m]] lik; cbn; intros [= <-].
    + eexists. split; [reflexivity|]. split; [reflexivity|]. repeat constructor.
    + eexists. split; [reflexivity|]. split; [reflexivity|]. repeat constructor.
  - exists out. split; [exact Hcall|].
    destruct (Hrows 2%nat 0%Z eq_refl) as (lik & r & row & Hlik & Hr & Hrow & Hout).
    cbn in Hlik. injection Hlik as <-. cbn in Hr. injection Hr as <-.
    cbn in Hrow. injection Hrow as <-. exact Hout.
Defined.

(** ** The switched likelihood: failures *)



Section SwitchedFailures.
Context {T : Type} (cast_int32 : T -> Z).

End SwitchedFailures.


Section SwitchedChildren.
Context {T : Type} (cast_int32 : T -> Z).


End SwitchedChildren.


(** ** The example runtime obeys the laws assumed of the error function *)

Section ExampleRuntimeProps.
Local Open Scope R_scope.

Lemma soft_sign_bound (x : R) : -1 <= ExampleRuntime.soft_sign x <= 1.
Proof.
  unfold ExampleRuntime.soft_sign.
  assert (Hd : 0 < 1 + Rabs x) by (pose proof (Rabs_pos x); lra).
  pose proof (Rinv_0_lt_compat _ Hd) as Hinv.
  assert (Hone : (1 + Rabs x) * / (1 + Rabs x) = 1) by (apply Rinv_r; lra).
  unfold Rdiv. destruct (Rcase_abs x) as [Hneg|Hpos].
  - rewrite (Rabs_left x Hneg) in *. split; nra.
  - rewrite (Rabs_right x Hpos) in *. split; nra.
Qed.

Lemma soft_sign_mono (x y : R) :
  x <= y -> ExampleRuntime.soft_sign x <= ExampleRuntime.soft_sign y.
Proof.
  intros Hxy. unfold ExampleRuntime.soft_sign.
  assert (Hdx : 0 < 1 + Rabs x) by (pose proof (Rabs_pos x); lra).
  assert (Hdy : 0 < 1 + Rabs y) by (pose proof (Rabs_pos y); lra).
  apply (Rmult_le_reg_r ((1 + Rabs x) * (1 + Rabs y))); [nra|].
  replace (x / (1 + Rabs x) * ((1 + Rabs x) * (1 + Rabs y)))
    with (x * (1 + Rabs y)) by (field; lra).
  replace (y / (1 + Rabs y) * ((1 + Rabs x) * (1 + Rabs y)))
    with (y * (1 + Rabs x)) by (field; lra).
  destruct (Rcase_abs x) as [Hx|Hx]; destruct (Rcase_abs y) as [Hy|Hy].
  - rewrite (Rabs_left x Hx), (Rabs_left y Hy). nra.
  - rewrite (Rabs_left x Hx), (Rabs_right y Hy). nra.
  - rewrite (Rabs_right x Hx), (Rabs_left y Hy). nra.
  - rewrite (Rabs_right x Hx), (Rabs_right y Hy). nra.
Qed.

Lemma example_erf_laws : erf_laws (rt := ExampleRuntime.runtime).
Proof. split; [apply soft_sign_bound | apply soft_sign_mono]. Qed.
End ExampleRuntimeProps.

(** ** The jittered probit and the Bernoulli predictions *)

Section ProbitProps.
Context {rt : Runtime}.
Local Open Scope R_scope.

Lemma inv_probit_jitter (x : R) :
  (forall z, -1 <= erf z <= 1) -> 1e-3 <= inv_probit x <= 1 - 1e-3.
Proof.
  intros Hbound. unfold inv_probit.
  specialize (Hbound (x / sqrt 2.0)). lra.
Qed.

(** X5: [inv_probit] stays inside the unit interval, at distance at least
    the jitter [1e-3] from both ends, as long as [erf] stays within
    [-1, 1]. *)
Theorem inv_probit_range (x : R) :
  (forall z, -1 <= erf z <= 1) ->
  1e-3 <= inv_probit x <= 1 - 1e-3.
Proof.
  intros Hbound. unfold inv_probit.
  specialize (Hbound (x / sqrt 2.0)). lra.
Qed.

(** X6: with the probit link, the predictive mean of [Bernoulli] lies in
    [1e-3, 1 - 1e-3] and the predictive variance is positive and at most
    1/4, entry by entry. *)
Theorem Bernoulli_probit_prediction_bounds (self : Bernoulli.t)
    (Fmu Fvar p v : matrix R) :
  (forall z, -1 <= erf z <= 1) ->
  Bernoulli.invlink self = inv_probit_fn ->
  same_shape Fvar Fmu ->
  Bernoulli.predict_mean_and_var self Fmu Fvar = Ok (p, v) ->
  same_shape p Fmu /\ same_shape v Fmu /\
  Forall (Forall (fun q => 1e-3 <= q <= 1 - 1e-3)) p /\
  Forall (Forall (fun s => 0 < s <= 1 / 4)) v.
Proof.
  intros Hbound Hlink Hshape Hcall.
  rewrite Bernoulli_probit_mean_and_var in Hcall by done.
  injection Hcall as <- <-.
  assert (Hmu : same_shape Fmu Fmu) by apply same_shape_refl.
  split; [shape_base Fmu|]. split; [shape_base Fmu|]. split.
  - apply Forall_map1, Forall_forall. intros row _. apply Forall_forall.
    intros q _. by apply inv_probit_jitter.
  - rewrite zip_with_map1_diag. apply Forall_map1, Forall_map1, Forall_forall.
    intros row _. apply Forall_forall. intros q _.
    pose proof (inv_probit_jitter q Hbound) as Hq. cbn beta.
    set (t := inv_probit q) in *.
    assert (Ht : 1 / 1000 <= t <= 999 / 1000) by lra. clear Hq. clearbody t.
    assert (Hpos : 0 < t * (1 - t)) by (apply Rmult_lt_0_compat; lra).
    pose proof (Rle_0_sqr (t - 1 / 2)) as Hsq.
    unfold Rsqr in *. split; lra.
Qed.

(** X7: with the probit link, [Bernoulli.logp] never goes below [ln 1e-3]
    (the jitter keeps the argument of the logarithm away from zero) and
    never above 0, whatever the data. *)
Theorem Bernoulli_probit_logp_bounds (self : Bernoulli.t) (F Y : matrix R) :
  (forall z, -1 <= erf z <= 1) ->
  Bernoulli.invlink self = inv_probit_fn ->
  same_shape F Y ->
  exists out,
    Bernoulli.logp self F Y = Ok out /\ same_shape out Y /\
    Forall (Forall (fun l => ln 1e-3 <= l <= 0)) out.
Proof.
  intros Hbound Hlink Hshape.
  unfold Bernoulli.logp, logdensities.bernoulli, apply_invlink.
  rewrite Hlink.
  assert (HY : same_shape Y Y) by apply same_shape_refl.
  rewrite map2_same_shape by shape_pair Y.
  eexists. split; [reflexivity|]. split; [shape_base Y|].
  apply Forall_forall. intros row [i Hrow]%list_elem_of_lookup.
  apply Forall_forall. intros l [j Hl]%list_elem_of_lookup.
  apply lookup_zip_with_Some in Hrow as (yrow & frow & -> & Hyrow & Hfrow).
  apply lookup_zip_with_Some in Hl as (y & q & -> & Hy & Hq).
  unfold tf.map1 in Hfrow. rewrite list_lookup_fmap in Hfrow.
  destruct (F !! i) as [frow'|]; [|done]. injection Hfrow as <-.
  rewrite list_lookup_fmap in Hq.
  destruct (frow' !! j) as [f|]; [|done]. injection Hq as <-. cbn [call].
  pose proof (inv_probit_jitter f Hbound) as Hf.
  assert (Hln : forall t, 1e-3 <= t <= 1 -> ln 1e-3 <= ln t <= 0).
  { intros t Ht. split.
    - destruct (Req_dec t 1e-3) as [->|Hne]; [lra|].
      apply Rlt_le, ln_increasing; lra.
    - rewrite <- ln_1. destruct (Req_dec t 1) as [->|Hne]; [lra|].
      apply Rlt_le, ln_increasing; lra. }
  destruct (Req_dec_T y 1); apply Hln; lra.
Qed.
End ProbitProps.

Section BernoulliDensityBounds.
Context {rt : Runtime}.
Local Open Scope R_scope.

Lemma ln_jitter_bounds (t : R) : 1e-3 <= t <= 1 -> ln 1e-3 <= ln t <= 0.
Proof.
  intros Ht. split.
  - destruct (Req_dec t 1e-3) as [->|Hne]; [lra|].
    apply Rlt_le, ln_increasing; lra.
  - rewrite <- ln_1. destruct (Req_dec t 1) as [->|Hne]; [lra|].
    apply Rlt_le, ln_increasing; lra.
Qed.

(** X8: with the probit link, [Bernoulli.predict_density] lies within
    [ln 1e-3, 0] entry by entry, whatever the data. *)
Theorem Bernoulli_probit_predict_density_bounds (self : Bernoulli.t)
    (Fmu Fvar Y : matrix R) :
  (forall z, -1 <= erf z <= 1) ->
  Bernoulli.invlink self = inv_probit_fn ->
  same_shape Fvar Y -> same_shape Fmu Y ->
  exists out,
    Bernoulli.predict_density self Fmu Fvar Y = Ok out /\ same_shape out Y /\
    Forall (Forall (fun l => ln 1e-3 <= l <= 0)) out.
Proof.
  intros Hbound Hlink Hvar Hmu.
  assert (HY : same_shape Y Y) by apply same_shape_refl.
  unfold Bernoulli.predict_density.
  rewrite Bernoulli_probit_mean_and_var by (done || shape_pair Y).
  cbn [mbind result_bind fst]. unfold logdensities.bernoulli.
  rewrite map2_same_shape by shape_pair Y.
  eexists. split; [reflexivity|]. split; [shape_base Y|].
  apply Forall_forall. intros row [i Hrow]%list_elem_of_lookup.
  apply Forall_forall. intros l [j Hl]%list_elem_of_lookup.
  apply lookup_zip_with_Some in Hrow as (yrow & prow & -> & Hyrow & Hprow).
  apply lookup_zip_with_Some in Hl as (y & q & -> & Hy & Hq).
  unfold tf.map1 in Hprow. rewrite list_lookup_fmap in Hprow.
  destruct (zip_with (zip_with Rdiv) Fmu _ !! i) as [qrow|]; [|done].
  injection Hprow as <-. rewrite list_lookup_fmap in Hq.
  destruct (qrow !! j) as [z|]; [|done]. injection Hq as <-.
  pose proof (inv_probit_jitter z Hbound) as Hz.
  destruct (Req_dec_T y 1); apply ln_jitter_bounds; lra.
Qed.
End BernoulliDensityBounds.

Lemma inv_probit_range_witness :
  (1e-3 <= inv_probit (rt := ExampleRuntime.runtime) 5
   <= 1 - 1e-3)%R.
Proof. apply inv_probit_range. apply soft_sign_bound. Defined.

Lemma Bernoulli_probit_prediction_bounds_witness :
  let rt := ExampleRuntime.runtime in
  exists p v,
    Bernoulli.predict_mean_and_var (Bernoulli.__init__ inv_probit_fn)
      [[0%R]] [[3%R]] = Ok (p, v) /\
    Forall (Forall (fun q => 1e-3 <= q <= 1 - 1e-3)%R) p /\
    Forall (Forall (fun s => 0 < s <= 1 / 4)%R) v.
Proof.
  intros rt.
  pose proof (Bernoulli_probit_mean_and_var (Bernoulli.__init__ inv_probit_fn)
                [[0%R]] [[3%R]] eq_refl) as Hcall.
  cbn zeta in Hcall. eexists _, _. split.
  - apply Hcall. repeat constructor.
  - eapply (Bernoulli_probit_prediction_bounds (Bernoulli.__init__ inv_probit_fn)
              [[0%R]] [[3%R]]).
    + apply soft_sign_bound.
    + reflexivity.
    + repeat constructor.
    + apply Hcall. repeat constructor.
Defined.

Lemma Bernoulli_probit_logp_bounds_witness :
  let rt := ExampleRuntime.runtime in
  exists out,
    Bernoulli.logp (Bernoulli.__init__ inv_probit_fn) [[0; 7]]%R [[1; 0]]%R = Ok out /\
    Forall (Forall (fun l => ln 1e-3 <= l <= 0)%R) out.
Proof.
  intros rt.
  destruct (Bernoulli_probit_logp_bounds (Bernoulli.__init__ inv_probit_fn)
              [[0; 7]]%R [[1; 0]]%R) as (out & Hcall & _ & Hout).
  - apply soft_sign_bound.
  - reflexivity.
  - repeat constructor.
  - by exists out.
Defined.

Lemma Bernoulli_probit_predict_density_bounds_witness :
  let rt := ExampleRuntime.runtime in
  exists out,
    Bernoulli.predict_density (Bernoulli.__init__ inv_probit_fn)
      [[0; 7]]%R [[1; 2]]%R [[1; 0]]%R = Ok out /\
    Forall (Forall (fun l => ln 1e-3 <= l <= 0)%R) out.
Proof.
  intros rt.
  destruct (Bernoulli_probit_predict_density_bounds (Bernoulli.__init__ inv_probit_fn)
              [[0; 7]]%R [[1; 2]]%R [[1; 0]]%R) as (out & Hcall & _ & Hout).
  - apply soft_sign_bound.
  - reflexivity.
  - repeat constructor.
  - repeat constructor.
  - by exists out.
Defined.

(** ** Gaussian: the closed forms are the quadrature *)

Lemma matrix_ext {X} (A B : matrix X) :
  same_shape A B ->
  (forall i j a b, entry A i j = Some a -> entry B i j = Some b -> a = b) ->
  A = B.
Proof.
  intros Hshape Hentries. apply list_eq. intros i.
  unfold same_shape in Hshape. rewrite Forall2_lookup in Hshape.
  specialize (Hshape i).
  destruct (A !! i) as [a|] eqn:Ha; destruct (B !! i) as [b|] eqn:Hb;
    inversion Hshape as [? ? Hlen|]; subst; [|done].
  f_equal. apply list_eq. intros j.
  destruct (a !! j) as [x|] eqn:Hx; destruct (b !! j) as [y|] eqn:Hy.
  - f_equal. apply (Hentries i j); unfold entry.
    + by rewrite Ha.
    + by rewrite Hb.
  - apply lookup_lt_Some in Hx. apply lookup_ge_None in Hy. lia.
  - apply lookup_lt_Some in Hy. apply lookup_ge_None in Hx. lia.
  - done.
Qed.

Section QuadraticIntegrands.
Context {rt : Runtime}.
Local Open Scope R_scope.

Lemma weighted_sum_quadratic (ws xs : list R) (c A B C : R) :
  length ws = length xs ->
  Rsum (zip_with (fun w x => w / c * (A + B * x + C * x²)) ws xs)
  = A / c * Rsum ws + B / c * Rsum (zip_with Rmult ws xs)
    + C / c * Rsum (zip_with (fun w x => w * x²) ws xs).
Proof.
  unfold Rsum.
  revert xs. induction ws as [|w ws IH]; intros [|x xs]; cbn; try done.
  - intros _. lra.
  - intros [= Hlen]. rewrite (IH xs Hlen). unfold Rdiv, Rsqr. lra.
Qed.

(** On a polynomial of degree two the rule returns its mean under the
    normal distribution. *)
Lemma gauss_hermite_sum_quadratic (n : nat) (A B C mu var : R) :
  exact_to_degree_2 n -> 0 <= var ->
  gauss_hermite_sum n (fun f => A + B * f + C * f²) mu var
  = A + B * mu + C * (mu² + var).
Proof.
  intros (Hlen & Hw & Hwx & Hwxx) Hvar. unfold gauss_hermite_sum.
  set (s := sqrt (2 * var)).
  assert (Hs : s * s = 2 * var) by (apply sqrt_sqrt; lra).
  rewrite (zip_with_ext _
             (fun w x => w / sqrt PI
                         * ((A + B * mu + C * mu²) + (B * s + 2 * C * mu * s) * x
                            + (C * (2 * var)) * x²))
             (snd (hermgauss n)) (snd (hermgauss n))
             (fst (hermgauss n)) (fst (hermgauss n))); [|
    intros w x; rewrite <- Hs; unfold Rsqr; lra | done | done].
  rewrite weighted_sum_quadratic by done. rewrite Hw, Hwx, Hwxx.
  assert (0 < sqrt PI) by (apply sqrt_lt_R0, PI_RGT_0).
  unfold Rsqr. field. lra.
Qed.
End QuadraticIntegrands.

Section GaussianQuadrature.
Context {rt : Runtime}.
Local Open Scope R_scope.

Lemma Gaussian_logp_point (self : Gaussian.t) (f y : R) :
  Gaussian.logp self [[f]] [[y]] ≫= quadrature.scalar_of
  = Ok (-0.5 * (ln (2 * PI) + ln (Gaussian.variance self)
                + (f - y)² / Gaussian.variance self)).
Proof. reflexivity. Qed.

(** X9: for a positive noise variance, a quadrature rule that is exact up
    to degree two and non-negative latent variances, the closed form of
    [Gaussian.variational_expectations] is the value of the generic
    quadrature of the base class on [Gaussian.logp]: overriding the method
    changes no result. *)
Theorem Gaussian_variational_expectations_is_quadrature (self : Gaussian.t)
    (Fmu Fvar Y : matrix R) :
  0 < Gaussian.variance self ->
  exact_to_degree_2 (Gaussian.num_gauss_hermite_points self) ->
  same_shape Fmu Y -> same_shape Fvar Y ->
  nonnegative Fvar ->
  exists out,
    Gaussian.variational_expectations self Fmu Fvar Y = Ok out /\
    Likelihood.variational_expectations (Gaussian.logp self)
      (Gaussian.num_gauss_hermite_points self) Fmu Fvar Y = Ok out.
Proof.
  intros _ Hrule Hmu Hvar Hpos.
  assert (HY : same_shape Y Y) by apply same_shape_refl.
  unfold Gaussian.variational_expectations.
  rewrite map2_same_shape by shape_pair Y. cbn [mbind result_bind].
  rewrite map2_same_shape by shape_pair Y. cbn [mbind result_bind].
  eexists. split; [reflexivity|].
  unfold Likelihood.variational_expectations, quadrature.ndiagquad_Y.
  rewrite (map2M_same_shape _ pair) by (done || shape_pair Y).
  cbn [mbind result_bind].
  rewrite (map2M_same_shape _
             (fun (mv : R * R) y =>
                gauss_hermite_sum (Gaussian.num_gauss_hermite_points self)
                  (fun f => -0.5 * (ln (2 * PI) + ln (Gaussian.variance self)
                                    + (f - y)² / Gaussian.variance self))
                  (fst mv) (snd mv))).
  2:{ shape_pair Y. }
  2:{ intros i j mv y _ _. apply gauss_hermite_total.
      intros f. apply Gaussian_logp_point. }
  f_equal. apply matrix_ext; [shape_pair Y|].
  intros i j a b Ha Hb.
  pose proof Ha as Hy.
  eapply (same_shape_entry _ Y) in Hy as [y Hy]; [|shape_base Y].
  destruct (same_shape_entry Y Fmu i j y) as [m Hm];
    [by apply same_shape_sym|done|].
  destruct (same_shape_entry Y Fvar i j y) as [v Hv];
    [by apply same_shape_sym|done|].
  assert (Hv0 : 0 <= v).
  { unfold entry in Hv. destruct (Fvar !! i) as [row|] eqn:Hrow; [|done].
    unfold nonnegative in Hpos. rewrite Forall_forall in Hpos.
    specialize (Hpos row (list_elem_of_lookup_2 _ _ _ Hrow)).
    rewrite Forall_forall in Hpos.
    exact (Hpos v (list_elem_of_lookup_2 _ _ _ Hv)). }
  assert (Ha' : entry
    (zip_with (zip_with (fun (mv : R * R) y0 =>
        gauss_hermite_sum (Gaussian.num_gauss_hermite_points self)
          (fun f => -0.5 * (ln (2 * PI) + ln (Gaussian.variance self)
                            + (f - y0)² / Gaussian.variance self))
          (fst mv) (snd mv)))
       (zip_with (zip_with pair) Fmu Fvar) Y) i j = Some _) by entry_solve.
  rewrite Ha in Ha'. injection Ha' as ->.
  assert (Hb' : entry
    (tf.map1 (fun s => -0.5 * ln (2 * PI) - 0.5 * ln (Gaussian.variance self)
                       - 0.5 * s / Gaussian.variance self)
       (zip_with (zip_with Rplus) (tf.map1 Rsqr (zip_with (zip_with Rminus) Y Fmu))
          Fvar)) i j = Some _) by entry_solve.
  rewrite Hb in Hb'. injection Hb' as ->. cbn [fst snd].
  set (s2 := Gaussian.variance self).
  rewrite (gauss_hermite_sum_ext _ _
             (fun f => (-0.5 * (ln (2 * PI) + ln s2) - 0.5 * y² / s2)
                       + (y / s2) * f + (-0.5 / s2) * f²))
    by (intros f; unfold Rsqr, Rdiv; lra).
  rewrite gauss_hermite_sum_quadratic by done.
  unfold Rsqr, Rdiv. lra.
Qed.
End GaussianQuadrature.

Lemma two_point_rule_exact (n : nat) :
  exact_to_degree_2 (rt := TwoPointRuntime.runtime) n.
Proof.
  assert (Hq : (/ sqrt 2 * / sqrt 2 = / 2)%R).
  { rewrite <- Rinv_mult, sqrt_sqrt; lra. }
  unfold exact_to_degree_2, Rsum, Rsqr. cbn.
  repeat split.
  - lra.
  - ring.
  - replace (- / sqrt 2 * - / sqrt 2)%R with (/ sqrt 2 * / sqrt 2)%R by ring.
    rewrite Hq. lra.
Qed.

Lemma Gaussian_variational_expectations_is_quadrature_witness :
  let rt := TwoPointRuntime.runtime in
  exists out,
    Gaussian.variational_expectations (Gaussian.__init__ 2) [[1; 0]]%R [[4; 0]]%R
      [[3; 1]]%R = Ok out /\
    Likelihood.variational_expectations (Gaussian.logp (Gaussian.__init__ 2))
      (Gaussian.num_gauss_hermite_points (Gaussian.__init__ 2))
      [[1; 0]]%R [[4; 0]]%R [[3; 1]]%R = Ok out.
Proof.
  intros rt.
  apply (Gaussian_variational_expectations_is_quadrature (Gaussian.__init__ 2)
           [[1; 0]]%R [[4; 0]]%R [[3; 1]]%R).
  - cbn. lra.
  - apply two_point_rule_exact.
  - repeat constructor.
  - repeat constructor.
  - repeat constructor; lra.
Defined.

Section GaussianPrediction.
Context {rt : Runtime}.
Local Open Scope R_scope.

(** X10: for a quadrature rule that is exact up to degree two and
    non-negative latent variances of the shape of the means, the closed form
    of [Gaussian.predict_mean_and_var] (the latent mean, and the latent
    variance plus the noise variance) is what the generic quadrature of the
    base class returns on the conditional mean and variance of [Gaussian]. *)
Theorem Gaussian_predict_mean_and_var_is_quadrature (self : Gaussian.t)
    (Fmu Fvar : matrix R) :
  exact_to_degree_2 (Gaussian.num_gauss_hermite_points self) ->
  same_shape Fmu Fvar ->
  nonnegative Fvar ->
  exists out,
    Gaussian.predict_mean_and_var self Fmu Fvar = Ok out /\
    Likelihood.predict_mean_and_var
      (Gaussian.conditional_mean self) (Gaussian.conditional_variance self)
      (Gaussian.num_gauss_hermite_points self) Fmu Fvar = Ok out.
Proof.
  intros Hrule Hshape Hpos.
  assert (Hshape' : same_shape Fvar Fmu) by (by apply same_shape_sym).
  assert (Hnonneg : forall i j v, entry Fvar i j = Some v -> 0 <= v).
  { intros i j v Hv. unfold entry in Hv.
    destruct (Fvar !! i) as [row|] eqn:Hrow; [|done].
    unfold nonnegative in Hpos. rewrite Forall_forall in Hpos.
    specialize (Hpos row (list_elem_of_lookup_2 _ _ _ Hrow)).
    rewrite Forall_forall in Hpos.
    exact (Hpos v (list_elem_of_lookup_2 _ _ _ Hv)). }
  set (n := Gaussian.num_gauss_hermite_points self) in *.
  set (s2 := Gaussian.variance self).
  unfold Gaussian.predict_mean_and_var, scalar.
  rewrite map2_scalar. cbn [mbind result_bind].
  eexists. split; [reflexivity|].
  unfold Likelihood.predict_mean_and_var, quadrature.ndiagquad.
  rewrite (map2M_same_shape _
             (fun mu var => gauss_hermite_sum n (fun f => s2 + f²) mu var)).
  2:{ done. }
  2:{ intros i j mu var _ _. apply gauss_hermite_total. intros f. reflexivity. }
  rewrite (map2M_same_shape _ (fun mu var => gauss_hermite_sum n (fun f => f) mu var)).
  2:{ done. }
  2:{ intros i j mu var _ _. apply gauss_hermite_total. intros f. reflexivity. }
  cbn [mbind result_bind].
  rewrite map2_same_shape by shape_pair Fmu.
  cbn [mbind result_bind]. f_equal. f_equal.
  - apply matrix_ext; [shape_pair Fmu|].
    intros i j a b Ha Hb.
    destruct (same_shape_entry Fmu Fvar i j b) as [v Hv]; [done|done|].
    assert (Ha' : entry
      (zip_with (zip_with (fun mu var => gauss_hermite_sum n (fun f => f) mu var))
         Fmu Fvar) i j = Some _) by entry_solve.
    rewrite Ha in Ha'. injection Ha' as ->.
    rewrite (gauss_hermite_sum_ext _ _ (fun f => 0 + 1 * f + 0 * f²))
      by (intros f; lra).
    rewrite gauss_hermite_sum_quadratic by eauto. lra.
  - apply matrix_ext; [shape_pair Fmu|].
    intros i j a b Ha Hb.
    pose proof Hb as Hv.
    eapply (same_shape_entry _ Fvar) in Hv as [v Hv]; [|shape_base Fvar].
    destruct (same_shape_entry Fvar Fmu i j v) as [m Hm]; [done|done|].
    assert (Ha' : entry
      (zip_with (zip_with Rminus)
         (zip_with (zip_with (fun mu var => gauss_hermite_sum n (fun f => s2 + f²) mu var))
            Fmu Fvar)
         (tf.map1 Rsqr
            (zip_with (zip_with (fun mu var => gauss_hermite_sum n (fun f => f) mu var))
               Fmu Fvar))) i j = Some _) by entry_solve.
    rewrite Ha in Ha'. injection Ha' as ->.
    assert (Hb' : entry (tf.map1 (fun x => x + Gaussian.variance self) Fvar) i j
                 = Some _) by entry_solve.
    rewrite Hb in Hb'. injection Hb' as ->.
    rewrite (gauss_hermite_sum_ext _ (fun f => f) (fun f => 0 + 1 * f + 0 * f²))
      by (intros f; lra).
    rewrite (gauss_hermite_sum_ext _ _ (fun f => s2 + 0 * f + 1 * f²))
      by (intros f; lra).
    rewrite !gauss_hermite_sum_quadratic by eauto.
    subst s2. unfold Rsqr. ring.
Qed.
End GaussianPrediction.

Lemma Gaussian_predict_mean_and_var_is_quadrature_witness :
  let rt := TwoPointRuntime.runtime in
  exists out,
    Gaussian.predict_mean_and_var (Gaussian.__init__ 2) [[1; 0]]%R [[4; 0]]%R
    = Ok out /\
    Likelihood.predict_mean_and_var
      (Gaussian.conditional_mean (Gaussian.__init__ 2))
      (Gaussian.conditional_variance (Gaussian.__init__ 2))
      (Gaussian.num_gauss_hermite_points (Gaussian.__init__ 2))
      [[1; 0]]%R [[4; 0]]%R = Ok out.
Proof.
  intros rt.
  apply (Gaussian_predict_mean_and_var_is_quadrature (Gaussian.__init__ 2)
           [[1; 0]]%R [[4; 0]]%R).
  - apply two_point_rule_exact.
  - repeat constructor.
  - repeat constructor; lra.
Defined.

(** ** Gamma: the closed form and the quadrature *)

Section GammaProps.
Context {rt : Runtime}.
Local Open Scope R_scope.

Lemma gauss_hermite_sum_affine (n : nat) (phi : R -> R) (A B C mu var : R) :
  length (snd (hermgauss n)) = length (fst (hermgauss n)) ->
  Rsum (snd (hermgauss n)) = sqrt PI ->
  Rsum (zip_with Rmult (snd (hermgauss n)) (fst (hermgauss n))) = 0 ->
  gauss_hermite_sum n (fun f => A + B * f + C * phi f) mu var
  = A + B * mu + C * gauss_hermite_sum n phi mu var.
Proof.
  intros Hlen Hw Hwx. unfold gauss_hermite_sum.
  set (s := sqrt (2 * var)).
  rewrite (zip_with_ext _
             (fun w x => w / sqrt PI
                         * ((A + B * mu) + (B * s) * x + C * phi (mu + s * x)))
             (snd (hermgauss n)) (snd (hermgauss n))
             (fst (hermgauss n)) (fst (hermgauss n)))
    by (intros; done || lra).
  rewrite (weighted_sum_affine _ _ _ _ _ _ (fun x => phi (mu + s * x))) by done.
  rewrite Hw, Hwx.
  assert (0 < sqrt PI) by (apply sqrt_lt_R0, PI_RGT_0).
  field. lra.
Qed.

Lemma Gamma_closed_form (self : Gamma.t) (Fmu Fvar Y : matrix R) :
  Gamma.invlink self = tf_exp ->
  same_shape Fmu Y -> same_shape Fvar Y ->
  Gamma.variational_expectations self Fmu Fvar Y
  = Ok (zip_with (zip_with Rminus)
          (zip_with (zip_with Rplus)
             (tf.map1 (fun m => - Gamma.shape self * m - lgamma (Gamma.shape self)) Fmu)
             (tf.map1 (fun y => (Gamma.shape self - 1) * ln y) Y))
          (zip_with (zip_with Rmult) Y
             (tf.map1 exp
                (zip_with (zip_with Rplus) (tf.map1 Ropp Fmu)
                   (tf.map1 (fun v => v / 2) Fvar))))).
Proof.
  intros Hlink Hmu Hvar. unfold Gamma.variational_expectations.
  rewrite Hlink. cbn [is_tf_exp].
  assert (HY : same_shape Y Y) by apply same_shape_refl.
  do 4 (rewrite map2_same_shape by shape_pair Y; cbn [mbind result_bind]).
  reflexivity.
Qed.

Lemma Gamma_logp_point (self : Gamma.t) (f y : R) :
  Gamma.invlink self = tf_exp ->
  Gamma.logp self [[f]] [[y]] ≫= quadrature.scalar_of
  = Ok (- Gamma.shape self * ln (exp f) - lgamma (Gamma.shape self)
        + (Gamma.shape self - 1) * ln y - y / exp f).
Proof.
  intros Hlink. unfold Gamma.logp. rewrite Hlink. reflexivity.
Qed.

Lemma Gamma_generic_quadrature (self : Gamma.t) (Fmu Fvar Y : matrix R) :
  Gamma.invlink self = tf_exp ->
  same_shape Fmu Y -> same_shape Fvar Y ->
  Likelihood.variational_expectations (Gamma.logp self)
    (Gamma.num_gauss_hermite_points self) Fmu Fvar Y
  = Ok (zip_with (zip_with (fun (mv : R * R) y =>
            gauss_hermite_sum (Gamma.num_gauss_hermite_points self)
              (fun f => - Gamma.shape self * ln (exp f) - lgamma (Gamma.shape self)
                        + (Gamma.shape self - 1) * ln y - y / exp f)
              (fst mv) (snd mv)))
          (zip_with (zip_with pair) Fmu Fvar) Y).
Proof.
  intros Hlink Hmu Hvar.
  unfold Likelihood.variational_expectations, quadrature.ndiagquad_Y.
  assert (HY : same_shape Y Y) by apply same_shape_refl.
  rewrite (map2M_same_shape _ pair) by (done || shape_pair Y).
  cbn [mbind result_bind].
  apply map2M_same_shape; [shape_pair Y|].
  intros i j mv y _ _. apply gauss_hermite_total.
  intros f. by apply Gamma_logp_point.
Qed.

(** X11: on the exponential link, [Gamma.variational_expectations] returns
    [- shape Fmu - lgamma(shape) + (shape - 1) log(Y) - Y exp(- Fmu + Fvar / 2)]
    entry by entry; the generic quadrature of the base class on [Gamma.logp]
    differs from it by [Y] times the error of the quadrature rule on
    [exp(- f)], whose mean under the latent normal is
    [exp(- Fmu + Fvar / 2)], and by nothing else, for a rule whose weights sum
    to [sqrt PI] and whose first moment vanishes.  With any other inverse
    link the method is the generic quadrature. *)
Theorem Gamma_variational_expectations_dispatch (self : Gamma.t)
    (Fmu Fvar Y : matrix R) :
  same_shape Fmu Y -> same_shape Fvar Y ->
  (Gamma.invlink self = tf_exp ->
   let n := Gamma.num_gauss_hermite_points self in
   length (snd (hermgauss n)) = length (fst (hermgauss n)) ->
   Rsum (snd (hermgauss n)) = sqrt PI ->
   Rsum (zip_with Rmult (snd (hermgauss n)) (fst (hermgauss n))) = 0 ->
   exists closed generic,
     Gamma.variational_expectations self Fmu Fvar Y = Ok closed /\
     Likelihood.variational_expectations (Gamma.logp self) n Fmu Fvar Y
     = Ok generic /\
     same_shape closed Y /\
     forall i j m v y,
       entry Fmu i j = Some m -> entry Fvar i j = Some v -> entry Y i j = Some y ->
       let c := - Gamma.shape self * m - lgamma (Gamma.shape self)
                + (Gamma.shape self - 1) * ln y - y * exp (- m + v / 2) in
       entry closed i j = Some c /\
       entry generic i j
       = Some (c + y * (exp (- m + v / 2)
                        - gauss_hermite_sum n (fun f => exp (- f)) m v))) /\
  (Gamma.invlink self <> tf_exp ->
   Gamma.variational_expectations self Fmu Fvar Y
   = Likelihood.variational_expectations (Gamma.logp self)
       (Gamma.num_gauss_hermite_points self) Fmu Fvar Y).
Proof.
  intros Hmu Hvar. split.
  - intros Hlink n Hlen Hw Hwx.
    rewrite Gamma_closed_form by done.
    unfold n. rewrite Gamma_generic_quadrature by done. fold n.
    assert (HY : same_shape Y Y) by apply same_shape_refl.
    eexists. eexists. split; [reflexivity|]. split; [reflexivity|].
    split; [shape_base Y|].
    intros i j m v y Hm Hv Hy. cbv zeta. split.
    + by entry_eq.
    + entry_eq. cbn [fst snd].
      rewrite (gauss_hermite_sum_ext n _
                 (fun f => (- lgamma (Gamma.shape self)
                            + (Gamma.shape self - 1) * ln y)
                           + (- Gamma.shape self) * f
                           + (- y) * (fun f => exp (- f)) f)).
      * rewrite (gauss_hermite_sum_affine n (fun f => exp (- f))) by done.
        lra.
      * intros f. rewrite ln_exp, exp_Ropp. unfold Rdiv. lra.
  - intros Hlink. unfold Gamma.variational_expectations.
    destruct (Gamma.invlink self); try done.
Qed.
End GammaProps.

Lemma Gamma_variational_expectations_dispatch_witness :
  let rt := ExampleRuntime.runtime in
  (exists closed generic,
     Gamma.variational_expectations (Gamma.__init__ tf_exp) [[0]]%R [[2]]%R [[3]]%R
     = Ok closed /\
     Likelihood.variational_expectations (Gamma.logp (Gamma.__init__ tf_exp)) 20
       [[0]]%R [[2]]%R [[3]]%R = Ok generic /\
     same_shape closed [[3%R]]) /\
  Gamma.variational_expectations (Gamma.__init__ (callable exp)) [[0]]%R [[2]]%R [[3]]%R
  = Likelihood.variational_expectations (Gamma.logp (Gamma.__init__ (callable exp))) 20
      [[0]]%R [[2]]%R [[3]]%R.
Proof.
  intros rt. split.
  - destruct (Gamma_variational_expectations_dispatch (Gamma.__init__ tf_exp)
                [[0]]%R [[2]]%R [[3]]%R) as [Hexp _].
    + repeat constructor.
    + repeat constructor.
    + destruct Hexp as (closed & generic & Hclosed & Hgeneric & Hshape & _).
      * reflexivity.
      * reflexivity.
      * unfold Rsum. cbn. lra.
      * unfold Rsum. cbn. lra.
      * by exists closed, generic.
  - destruct (Gamma_variational_expectations_dispatch (Gamma.__init__ (callable exp))
                [[0]]%R [[2]]%R [[3]]%R) as [_ Hother].
    + repeat constructor.
    + repeat constructor.
    + by apply Hother.
Defined.

(** ** Ordinal: the bins and the log-likelihood *)

Lemma gather_in_range {X} (params : list X) (indices : matrix Z) (d : X) :
  Forall (Forall (fun z => (0 <= z < Z.of_nat (length params))%Z)) indices ->
  tf.gather params indices
  = Ok (tf.map1 (fun z => nth (Z.to_nat z) params d) indices).
Proof.
  intros Hrange. unfold tf.gather, tf.map1.
  apply mapM_Ok_map. intros row Hrow.
  rewrite Forall_forall in Hrange. specialize (Hrange row Hrow).
  apply mapM_Ok_map. intros z Hz.
  rewrite Forall_forall in Hrange. specialize (Hrange z Hz).
  destruct (Z.ltb_spec z 0) as [Hneg|_]; [lia|].
  destruct (lookup_lt_is_Some_2 params (Z.to_nat z)) as [x Hx]; [lia|].
  rewrite Hx. f_equal. symmetry. by apply nth_lookup_Some.
Qed.

Lemma mjoin_singletons {X Y} (h : X -> Y) (l : list X) :
  mjoin (map (fun x => [h x]) l) = map h l.
Proof.
  induction l as [|x l IH]; [done|].
  change (h x :: mjoin (map (fun x => [h x]) l) = h x :: map h l).
  by rewrite IH.
Qed.

Section OrdinalBins.
Context {rt : Runtime}.
Local Open Scope R_scope.

(** The row of [_make_phi] for the latent value [f]. *)
Lemma Ordinal_make_phi_row (self : Ordinal.t) (f : R) :
  Ordinal._make_phi self [[f]]
  = [zip_with Rminus
       (map (fun a => Ordinal.inv_probit_at (finite (a / Ordinal.sigma self))
                        (f / Ordinal.sigma self)) (Ordinal.bin_edges self)
          ++ [Ordinal.inv_probit_at pos_inf (f / Ordinal.sigma self)])
       (Ordinal.inv_probit_at neg_inf (f / Ordinal.sigma self)
          :: map (fun a => Ordinal.inv_probit_at (finite (a / Ordinal.sigma self))
                             (f / Ordinal.sigma self)) (Ordinal.bin_edges self))].
Proof.
  unfold Ordinal._make_phi. cbn [mjoin list_join app map].
  rewrite (neighbour_differences_map
             (fun e => Ordinal.inv_probit_at e (f / Ordinal.sigma self))).
  by rewrite map_map.
Qed.

Lemma Ordinal_make_phi_flat (self : Ordinal.t) (F : matrix R) :
  Ordinal._make_phi self F
  = mjoin (map (fun f => Ordinal._make_phi self [[f]]) (mjoin F)).
Proof.
  unfold Ordinal._make_phi.
  generalize (mjoin F). intros fs.
  induction fs as [|f fs IH]; [done|].
  cbn [map]. rewrite IH at 1. reflexivity.
Qed.

Lemma Ordinal_make_phi_row_total (self : Ordinal.t) (f : R) :
  exists row, Ordinal._make_phi self [[f]] = [row] /\ Rsum row = 1 - 2 * 1e-3.
Proof.
  rewrite Ordinal_make_phi_row. eexists. split; [reflexivity|].
  rewrite chain_differences_sum.
  unfold Ordinal.inv_probit_at, Ordinal.erf_at. lra.
Qed.

(** X12: [_make_phi] returns one row for each entry of [F], in row-major
    order, with one probability for each of the [len(bin_edges) + 1] labels;
    because of the jitter of [inv_probit], the probabilities of a row add up
    to [1 - 2e-3] and not to 1, whatever the bin edges, [sigma] and the
    error function. *)
Theorem Ordinal_make_phi_row_sums (self : Ordinal.t) (F : matrix R) :
  length (Ordinal._make_phi self F) = length (mjoin F) /\
  Forall (fun row => length row = (length (Ordinal.bin_edges self) + 1)%nat /\
                     Rsum row = 1 - 2 * 1e-3)
    (Ordinal._make_phi self F).
Proof.
  rewrite Ordinal_make_phi_flat.
  generalize (mjoin F). intros fs.
  induction fs as [|f fs [IHlen IHrows]]; [by split|].
  change (mjoin (map (fun f => Ordinal._make_phi self [[f]]) (f :: fs)))
    with (Ordinal._make_phi self [[f]]
            ++ mjoin (map (fun f => Ordinal._make_phi self [[f]]) fs)).
  rewrite Ordinal_make_phi_row. cbn [app length]. split; [by rewrite IHlen|].
  constructor; [|exact IHrows]. split.
  - rewrite length_zip_with, length_app, length_cons.
    pose proof (length_map
                  (fun a => Ordinal.inv_probit_at (finite (a / Ordinal.sigma self))
                              (f / Ordinal.sigma self))
                  (Ordinal.bin_edges self)).
    cbn [length]. lia.
  - rewrite chain_differences_sum.
    unfold Ordinal.inv_probit_at, Ordinal.erf_at. lra.
Qed.

End OrdinalBins.

Section OrdinalLogp.
Context {rt : Runtime}.
Local Open Scope R_scope.

Lemma Ordinal_logp_closed_form (self : Ordinal.t) (F Y : matrix R) :
  same_shape F Y -> labels_in_range self Y ->
  let left :=
    map (fun a => finite (a / Ordinal.sigma self)) (Ordinal.bin_edges self) ++ [pos_inf] in
  let right :=
    [neg_inf] ++ map (fun a => finite (a / Ordinal.sigma self)) (Ordinal.bin_edges self) in
  Ordinal.logp self F Y
  = Ok (zip_with (zip_with (fun y f =>
          ln (Ordinal.inv_probit_at (nth (Z.to_nat (cast_int64 y)) left pos_inf)
                (f / Ordinal.sigma self)
              - Ordinal.inv_probit_at (nth (Z.to_nat (cast_int64 y)) right pos_inf)
                  (f / Ordinal.sigma self)
              + 1e-6))) Y F).
Proof.
  intros Hshape Hrange left right.
  assert (HY : same_shape Y Y) by apply same_shape_refl.
  assert (HFY : same_shape Y F) by (by apply same_shape_sym).
  pose proof (length_map (fun a => finite (a / Ordinal.sigma self))
                (Ordinal.bin_edges self)) as Hlen.
  assert (Hidx : forall params : list edge,
            length params = S (length (Ordinal.bin_edges self)) ->
            Forall (Forall (fun z => (0 <= z < Z.of_nat (length params))%Z))
              (tf.map1 cast_int64 Y)).
  { intros params Hparams. apply Forall_map1.
    eapply Forall_impl; [exact Hrange|]. intros row Hrow.
    eapply Forall_impl; [exact Hrow|]. intros y Hy. cbn beta in *. lia. }
  unfold Ordinal.logp. fold left right.
  rewrite (gather_in_range left _ pos_inf)
    by (apply Hidx; unfold left; rewrite length_app, Hlen; cbn; lia).
  cbn [mbind result_bind].
  rewrite (gather_in_range right _ pos_inf)
    by (apply Hidx; unfold right; cbn [app length]; by rewrite Hlen).
  cbn [mbind result_bind].
  do 3 (rewrite map2_same_shape by shape_pair Y; cbn [mbind result_bind]).
  f_equal. apply matrix_ext; [shape_pair Y|].
  intros i j a b Ha Hb.
  pose proof Hb as Hy.
  eapply (same_shape_entry _ Y) in Hy as [y Hy]; [|shape_base Y].
  destruct (same_shape_entry Y F i j y) as [f Hf]; [done|done|].
  assert (Hy' : entry (tf.map1 cast_int64 Y) i j = Some (cast_int64 y))
    by entry_solve.
  assert (Ha' : entry
    (tf.map1 (fun d => ln (d + 1e-6))
       (zip_with (zip_with Rminus)
          (zip_with (zip_with (fun e f => Ordinal.inv_probit_at e (f / Ordinal.sigma self)))
             (tf.map1 (fun z => nth (Z.to_nat z) left pos_inf) (tf.map1 cast_int64 Y)) F)
          (zip_with (zip_with (fun e f => Ordinal.inv_probit_at e (f / Ordinal.sigma self)))
             (tf.map1 (fun z => nth (Z.to_nat z) right pos_inf) (tf.map1 cast_int64 Y)) F)))
    i j = Some _) by entry_solve.
  rewrite Ha in Ha'. injection Ha' as ->.
  assert (Hb' : entry
    (zip_with (zip_with (fun y f =>
        ln (Ordinal.inv_probit_at (nth (Z.to_nat (cast_int64 y)) left pos_inf)
              (f / Ordinal.sigma self)
            - Ordinal.inv_probit_at (nth (Z.to_nat (cast_int64 y)) right pos_inf)
                (f / Ordinal.sigma self)
            + 1e-6))) Y F) i j = Some _) by entry_solve.
  rewrite Hb in Hb'. by injection Hb' as ->.
Qed.

(** The entry of the row of [_make_phi] at a label in range. *)
Lemma Ordinal_make_phi_entry (self : Ordinal.t) (f : R) (k : nat) :
  (k <= length (Ordinal.bin_edges self))%nat ->
  let left :=
    map (fun a => finite (a / Ordinal.sigma self)) (Ordinal.bin_edges self) ++ [pos_inf] in
  let right :=
    [neg_inf] ++ map (fun a => finite (a / Ordinal.sigma self)) (Ordinal.bin_edges self) in
  entry (Ordinal._make_phi self [[f]]) 0 k
  = Some (Ordinal.inv_probit_at (nth k left pos_inf) (f / Ordinal.sigma self)
          - Ordinal.inv_probit_at (nth k right pos_inf) (f / Ordinal.sigma self)).
Proof.
  intros Hk left right.
  pose proof (length_map (fun a => finite (a / Ordinal.sigma self))
                (Ordinal.bin_edges self)) as Hlen.
  unfold Ordinal._make_phi. fold left right.
  cbn [mjoin list_join app map entry lookup list_lookup].
  change (zip_with (fun l r => Ordinal.inv_probit_at l (f / Ordinal.sigma self)
                               - Ordinal.inv_probit_at r (f / Ordinal.sigma self))
            left right !! k
          = Some (Ordinal.inv_probit_at (nth k left pos_inf) (f / Ordinal.sigma self)
                  - Ordinal.inv_probit_at (nth k right pos_inf) (f / Ordinal.sigma self))).
  destruct (lookup_lt_is_Some_2 left k) as [l Hl].
  { unfold left. rewrite length_app, Hlen. cbn. lia. }
  destruct (lookup_lt_is_Some_2 right k) as [r Hr].
  { unfold right. cbn [app length]. rewrite Hlen. lia. }
  rewrite (nth_lookup_Some _ _ pos_inf _ Hl), (nth_lookup_Some _ _ pos_inf _ Hr).
  rewrite lookup_zip_with, Hl, Hr. reflexivity.
Qed.

(** X13: for latent values and labels of one shape, the labels being
    integers from 0 to [len(bin_edges)] once cast, [Ordinal.logp] returns a
    tensor of that shape whose entry for the latent value [f] and the label
    [y] is [log(p + 1e-6)], where [p] is the probability that [_make_phi]
    gives for the latent value [f] in the column of the label [y]: the two
    methods compute the same bin probabilities. *)
Theorem Ordinal_logp_is_log_phi (self : Ordinal.t) (F Y : matrix R) :
  same_shape F Y -> labels_in_range self Y ->
  exists out,
    Ordinal.logp self F Y = Ok out /\ same_shape out Y /\
    forall i j f y,
      entry F i j = Some f -> entry Y i j = Some y ->
      exists p,
        entry (Ordinal._make_phi self [[f]]) 0 (Z.to_nat (cast_int64 y)) = Some p /\
        entry out i j = Some (ln (p + 1e-6)).
Proof.
  intros Hshape Hrange. rewrite Ordinal_logp_closed_form by done.
  assert (HY : same_shape Y Y) by apply same_shape_refl.
  assert (HFY : same_shape Y F) by (by apply same_shape_sym).
  eexists. split; [reflexivity|]. split; [shape_base Y|].
  intros i j f y Hf Hy.
  assert (Hk : (Z.to_nat (cast_int64 y) <= length (Ordinal.bin_edges self))%nat).
  { unfold entry in Hy. destruct (Y !! i) as [row|] eqn:Hrow; [|done].
    unfold labels_in_range in Hrange. rewrite Forall_forall in Hrange.
    specialize (Hrange row (list_elem_of_lookup_2 _ _ _ Hrow)).
    rewrite Forall_forall in Hrange.
    specialize (Hrange y (list_elem_of_lookup_2 _ _ _ Hy)). cbn beta in Hrange. lia. }
  eexists. split; [by apply Ordinal_make_phi_entry|].
  by entry_eq.
Qed.

End OrdinalLogp.

Lemma cast_int64_IZR (z : Z) : cast_int64 (IZR z) = z.
Proof.
  unfold cast_int64. destruct (Rle_dec 0 (IZR z)) as [_|_].
  - symmetry. apply Int_part_spec. lra.
  - rewrite <- opp_IZR, <- (Int_part_spec (IZR (- z)) (- z)) by lra. lia.
Qed.

Lemma Forall_entries {X} (P : X -> Prop) (M : matrix X) :
  (forall i j x, entry M i j = Some x -> P x) -> Forall (Forall P) M.
Proof.
  intros HP. apply Forall_lookup. intros i row Hrow.
  apply Forall_lookup. intros j x Hx.
  apply (HP i j x). unfold entry. by rewrite Hrow.
Qed.

Lemma Ordinal_logp_is_log_phi_witness :
  let rt := ExampleRuntime.runtime in
  exists out,
    Ordinal.logp (Ordinal.__init__ [0; 1]%R) [[0; 3]]%R [[2; 0]]%R = Ok out /\
    same_shape out [[2; 0]]%R.
Proof.
  intros rt.
  destruct (Ordinal_logp_is_log_phi (Ordinal.__init__ [0; 1]%R) [[0; 3]]%R [[2; 0]]%R)
    as (out & Hout & Hshape & _).
  - repeat constructor.
  - unfold labels_in_range.
    repeat constructor; rewrite cast_int64_IZR; cbn; lia.
  - by exists out.
Defined.

Section OrdinalBounds.
Context {rt : Runtime}.
Local Open Scope R_scope.

Lemma elem_le_Rsum (ps : list R) (k : nat) (p : R) :
  Forall (fun p => 0 <= p) ps -> ps !! k = Some p -> p <= Rsum ps.
Proof.
  unfold Rsum. intros Hpos. revert k.
  induction Hpos as [|q ps Hq Hps IH]; intros [|k]; cbn; try done.
  - intros [= ->]. pose proof (Rsum_nonneg ps Hps) as Hsum.
    unfold Rsum in Hsum. lra.
  - intros Hk. specialize (IH k Hk). lra.
Qed.

Lemma weighted_mean_bounds (ps ys : list R) (c : R) :
  0 <= c ->
  Forall (fun p => 0 <= p) ps -> Forall (fun y => 0 <= y <= c) ys ->
  0 <= Rsum (zip_with Rmult ps ys) <= c * Rsum ps.
Proof.
  unfold Rsum. intros Hc Hps. revert ys.
  induction Hps as [|p ps Hp Hps IH]; intros ys Hys; cbn; [lra|].
  pose proof (Rsum_nonneg ps Hps) as Hsum. unfold Rsum in Hsum.
  destruct Hys as [|y ys Hy Hys]; cbn.
  - assert (0 <= c * p) by (by apply Rmult_le_pos).
    assert (0 <= c * foldr Rplus 0 ps) by (by apply Rmult_le_pos).
    lra.
  - specialize (IH ys Hys).
    assert (0 <= p * y) by (apply Rmult_le_pos; lra).
    assert (0 <= p * (c - y)) by (apply Rmult_le_pos; lra).
    lra.
Qed.

(** A bin probability is a probability, and at most [1 - 2e-3]. *)
Lemma Ordinal_bin_probability_bounds (self : Ordinal.t) (f : R) (k : nat) (p : R) :
  0 < Ordinal.sigma self -> Sorted Rle (Ordinal.bin_edges self) -> erf_laws ->
  entry (Ordinal._make_phi self [[f]]) 0 k = Some p ->
  0 <= p <= 1 - 2 * 1e-3.
Proof.
  intros Hsigma Hsorted Hlaws Hp.
  destruct (Ordinal_bin_probabilities self f Hsigma Hsorted Hlaws) as (Hpos & _ & _).
  destruct (Ordinal_make_phi_row_total self f) as (row & Hrow & Hsum).
  rewrite Hrow in Hp. cbn [entry lookup list_lookup] in Hp.
  assert (Hrow' : row = zip_with (fun l r => Ordinal.inv_probit_at l (f / Ordinal.sigma self)
                                  - Ordinal.inv_probit_at r (f / Ordinal.sigma self))
               (map (fun a => finite (a / Ordinal.sigma self)) (Ordinal.bin_edges self)
                  ++ [pos_inf])
               ([neg_inf]
                  ++ map (fun a => finite (a / Ordinal.sigma self))
                       (Ordinal.bin_edges self))).
  { unfold Ordinal._make_phi in Hrow. cbn [mjoin list_join app map] in Hrow.
    by injection Hrow as <-. }
  cbv zeta in Hpos. rewrite <- Hrow' in Hpos.
  split.
  - rewrite Forall_forall in Hpos. apply Hpos. by eapply list_elem_of_lookup_2.
  - rewrite <- Hsum. by eapply elem_le_Rsum.
Qed.

End OrdinalBounds.

Section OrdinalResults.
Context {rt : Runtime}.
Local Open Scope R_scope.

(** X14: with a positive [sigma], increasing bin edges and an error
    function that is increasing within [-1, 1], every entry of
    [Ordinal.logp] on labels in range lies between [log(1e-6)] and
    [log(1 - 2e-3 + 1e-6)]: the logarithm is never taken at zero or below,
    and the log-likelihood is negative. *)
Theorem Ordinal_logp_bounds (self : Ordinal.t) (F Y : matrix R) :
  0 < Ordinal.sigma self -> Sorted Rle (Ordinal.bin_edges self) -> erf_laws ->
  same_shape F Y -> labels_in_range self Y ->
  exists out,
    Ordinal.logp self F Y = Ok out /\
    Forall (Forall (fun l => ln 1e-6 <= l <= ln (1 - 2 * 1e-3 + 1e-6) /\ l < 0)) out.
Proof.
  intros Hsigma Hsorted Hlaws Hshape Hrange.
  rewrite Ordinal_logp_closed_form by done.
  assert (HY : same_shape Y Y) by apply same_shape_refl.
  assert (HFY : same_shape Y F) by (by apply same_shape_sym).
  eexists. split; [reflexivity|].
  apply Forall_entries. intros i j l Hl.
  pose proof Hl as Hy.
  eapply (same_shape_entry _ Y) in Hy as [y Hy]; [|shape_base Y].
  destruct (same_shape_entry Y F i j y) as [f Hf]; [done|done|].
  assert (Hk : (Z.to_nat (cast_int64 y) <= length (Ordinal.bin_edges self))%nat).
  { unfold entry in Hy. destruct (Y !! i) as [row|] eqn:Hrow; [|done].
    unfold labels_in_range in Hrange. rewrite Forall_forall in Hrange.
    specialize (Hrange row (list_elem_of_lookup_2 _ _ _ Hrow)).
    rewrite Forall_forall in Hrange.
    specialize (Hrange y (list_elem_of_lookup_2 _ _ _ Hy)). cbn beta in Hrange. lia. }
  pose proof (Ordinal_make_phi_entry self f _ Hk) as Hp. cbv zeta in Hp.
  apply (Ordinal_bin_probability_bounds self f _ _ Hsigma Hsorted Hlaws) in Hp.
  assert (Hl' : entry
    (zip_with (zip_with (fun y f =>
        ln (Ordinal.inv_probit_at
              (nth (Z.to_nat (cast_int64 y))
                 (map (fun a => finite (a / Ordinal.sigma self)) (Ordinal.bin_edges self)
                    ++ [pos_inf]) pos_inf)
              (f / Ordinal.sigma self)
            - Ordinal.inv_probit_at
                (nth (Z.to_nat (cast_int64 y))
                   ([neg_inf]
                      ++ map (fun a => finite (a / Ordinal.sigma self))
                           (Ordinal.bin_edges self)) pos_inf)
                (f / Ordinal.sigma self)
            + 1e-6))) Y F) i j = Some _) by entry_solve.
  rewrite Hl in Hl'. apply (inj Some) in Hl' as ->.
  match goal with |- ln 1e-6 <= ln ?x <= _ /\ _ => set (q := x) in * end.
  assert (Hq : 1e-6 <= q <= 1 - 2 * 1e-3 + 1e-6) by (unfold q; lra).
  assert (Hmono : forall a b, 0 < a -> a <= b -> ln a <= ln b).
  { intros a b Ha [Hab | ->]; [|lra]. left. by apply ln_increasing. }
  split; [split|].
  - apply Hmono; lra.
  - apply Hmono; lra.
  - rewrite <- ln_1. apply ln_increasing; lra.
Qed.

(** X15: with a positive [sigma], increasing bin edges, [num_bins] as the
    constructor sets it and an error function that is increasing within
    [-1, 1], [Ordinal.conditional_mean] returns a tensor of the shape of [F]
    whose entries lie between 0 and [(1 - 2e-3) len(bin_edges)]: the mean
    label stays below the highest label. *)
Theorem Ordinal_conditional_mean_bounds (self : Ordinal.t) (F : matrix R) :
  0 < Ordinal.sigma self ->
  Ordinal.num_bins self = (length (Ordinal.bin_edges self) + 1)%nat ->
  Sorted Rle (Ordinal.bin_edges self) -> erf_laws ->
  exists M,
    Ordinal.conditional_mean self F = Ok M /\ same_shape M F /\
    Forall (Forall (fun m =>
              0 <= m <= (1 - 2 * 1e-3) * INR (length (Ordinal.bin_edges self)))) M.
Proof.
  intros Hsigma Hbins Hsorted Hlaws.
  unfold Ordinal.conditional_mean.
  set (Ys := map INR (seq 0 (Ordinal.num_bins self))).
  assert (HYs : length Ys = Ordinal.num_bins self)
    by (unfold Ys; by rewrite length_map, length_seq).
  assert (Hrows : Forall (fun row =>
            length row = Ordinal.num_bins self /\
            Forall (fun p => 0 <= p) row /\ Rsum row = 1 - 2 * 1e-3)
            (Ordinal._make_phi self F)).
  { rewrite Ordinal_make_phi_flat.
    generalize (mjoin F). intros fs.
    induction fs as [|f fs IH]; [constructor|].
    change (mjoin (map (fun f => Ordinal._make_phi self [[f]]) (f :: fs)))
      with (Ordinal._make_phi self [[f]]
              ++ mjoin (map (fun f => Ordinal._make_phi self [[f]]) fs)).
    apply Forall_app. split; [|exact IH].
    destruct (Ordinal_bin_probabilities self f Hsigma Hsorted Hlaws)
      as (Hpos & _ & Hlen).
    destruct (Ordinal_make_phi_row_total self f) as (row & Hrow & Hsum).
    assert (Hrow' : [row] = Ordinal._make_phi self [[f]]) by done.
    unfold Ordinal._make_phi in Hrow'. cbn [mjoin list_join app map] in Hrow'.
    injection Hrow' as Hrow'. cbv zeta in Hpos, Hlen. cbn [app] in Hpos, Hlen.
    rewrite <- Hrow' in Hpos, Hlen. rewrite Hrow.
    constructor; [|constructor]. split; [lia|]. by split. }
  unfold matvec.
  rewrite (proj2 (shape1_is_Forall _ _)).
  2:{ eapply Forall_impl; [exact Hrows|]. intros row (Hlen & _). cbn beta. lia. }
  cbn [mbind result_bind].
  rewrite (mjoin_singletons (fun row => Rsum (zip_with Rmult row Ys))).
  set (mean := fun row => Rsum (zip_with Rmult row Ys)) in *.
  assert (Hmeans : Forall (fun m =>
            0 <= m <= (1 - 2 * 1e-3) * INR (length (Ordinal.bin_edges self)))
            (map mean (Ordinal._make_phi self F))).
  { apply Forall_fmap. eapply Forall_impl; [exact Hrows|].
    intros row (Hlen & Hpos & Hsum). cbn beta. unfold mean.
    destruct (weighted_mean_bounds row Ys (INR (length (Ordinal.bin_edges self))))
      as [Hlo Hhi]; [apply pos_INR|done| |].
    - unfold Ys. apply Forall_fmap, Forall_forall. intros k Hk. cbn beta.
      apply elem_of_seq in Hk. split; [apply pos_INR|]. apply le_INR. lia.
    - rewrite Hsum in Hhi. split; [exact Hlo|]. rewrite Rmult_comm. exact Hhi. }
  revert Hmeans.
  assert (Hlen : length (map mean (Ordinal._make_phi self F)) = length (mjoin F)).
  { rewrite length_map. unfold Ordinal._make_phi. by rewrite length_map. }
  revert Hlen. generalize (map mean (Ordinal._make_phi self F)). intros v Hlen Hv.
  eexists. split; [reflexivity|].
  clear -Hlen Hv. revert v Hlen Hv.
  induction F as [|row F IH]; intros v Hlen Hv; cbn; [split; constructor|].
  change (mjoin (row :: F)) with (row ++ mjoin F) in Hlen.
  rewrite length_app in Hlen.
  destruct (IH (drop (length row) v)) as [Hshape Hall].
  { rewrite length_drop. lia. }
  { by apply Forall_drop. }
  split; constructor; try done.
  - rewrite length_take. lia.
  - by apply Forall_take.
Qed.

End OrdinalResults.

Lemma Ordinal_logp_bounds_witness :
  let rt := ExampleRuntime.runtime in
  exists out,
    Ordinal.logp (Ordinal.__init__ [0; 1]%R) [[0; 3]]%R [[2; 0]]%R = Ok out /\
    Forall (Forall (fun l => ln 1e-6 <= l <= ln (1 - 2 * 1e-3 + 1e-6) /\ l < 0)%R) out.
Proof.
  intros rt.
  apply (Ordinal_logp_bounds (Ordinal.__init__ [0; 1]%R) [[0; 3]]%R [[2; 0]]%R).
  - cbn. lra.
  - repeat constructor. cbn. lra.
  - apply example_erf_laws.
  - repeat constructor.
  - unfold labels_in_range.
    repeat constructor; rewrite cast_int64_IZR; cbn; lia.
Defined.

Lemma Ordinal_conditional_mean_bounds_witness :
  let rt := ExampleRuntime.runtime in
  exists M,
    Ordinal.conditional_mean (Ordinal.__init__ [0; 1]%R) [[0; 3]]%R = Ok M /\
    same_shape M [[0; 3]]%R /\
    Forall (Forall (fun m => 0 <= m <= (1 - 2 * 1e-3) * INR 2)%R) M.
Proof.
  intros rt.
  apply (Ordinal_conditional_mean_bounds (Ordinal.__init__ [0; 1]%R) [[0; 3]]%R).
  - cbn. lra.
  - reflexivity.
  - repeat constructor. cbn. lra.
  - apply example_erf_laws.
Defined.

(** ** MultiClass and SoftMax: the log-likelihood and the class probabilities *)

Section MultiClassLogp.
Context {rt : Runtime}.
Local Open Scope R_scope.

(** X16: with a RobustMax inverse link, scores with a row of [K] numbers
    for each label and labels that are classes ([0 <= y < K] once cast) in
    the single column of [Y], the entry of [MultiClass.logp] for a row is
    the logarithm of the probability that [MultiClass.conditional_mean]
    gives the label of that row: [log(1 - epsilon)] when the label is the
    argmax of the scores, [log(epsilon / (K - 1))] otherwise. *)
Theorem MultiClass_logp_is_log_conditional_mean (self : MultiClass.t)
    (r : RobustMax.t) (F Y : matrix R) :
  MultiClass.invlink self = MultiClass.robustmax r ->
  Forall2 (fun row yrow =>
             length row = RobustMax.num_classes r /\
             exists y, yrow = [y] /\
                       (0 <= cast_int64 y < Z.of_nat (RobustMax.num_classes r))%Z)
    F Y ->
  exists out P,
    MultiClass.logp self F Y = Ok out /\
    MultiClass.conditional_mean self F = Ok P /\
    same_shape out Y /\
    forall i y, Y !! i = Some [y] ->
      exists p,
        entry P i (Z.to_nat (cast_int64 y)) = Some p /\
        entry out i 0 = Some (ln p).
Proof.
  intros Hlink Hrows.
  set (K := RobustMax.num_classes r) in *.
  destruct (mapM_Ok_exists argmax F) as [idx Hidx].
  { intros row Hrow.
    apply list_elem_of_lookup in Hrow as [i Hrow].
    destruct (Forall2_lookup_l _ _ _ _ _ Hrows Hrow) as (yrow & _ & Hlen & y & _ & Hy).
    destruct (argmax_spec row) as (a & _ & Ha & _); [|by exists a].
    intros ->. cbn in Hlen. lia. }
  pose proof (mapM_Ok_inv _ _ _ Hidx) as Hall.
  assert (Hshape : same_shape (map (fun a : nat => [a]) idx) Y).
  { unfold same_shape. apply Forall2_fmap_l.
    apply Forall2_same_length_lookup_2.
    - rewrite <- (Forall2_length _ _ _ Hall). by eapply Forall2_length.
    - intros i a yrow Ha Hyrow.
      destruct (Forall2_lookup_r _ _ _ _ _ Hrows Hyrow) as (row & _ & _ & y & -> & _).
      reflexivity. }
  unfold MultiClass.logp, MultiClass.conditional_mean. rewrite Hlink.
  unfold RobustMax.__call__. rewrite Hidx. cbn [mbind result_bind].
  rewrite map2_same_shape by done. cbn [mbind result_bind].
  eexists. eexists. split; [reflexivity|]. split; [reflexivity|].
  split.
  { eapply same_shape_trans; [apply same_shape_map1_l|].
    eapply same_shape_trans; [apply same_shape_map1_l|].
    eapply same_shape_trans; [by apply same_shape_zip_with_l|]. done. }
  intros i y Hyrow.
  destruct (Forall2_lookup_r _ _ _ _ _ Hrows Hyrow) as (row & Hrow & _ & y' & [= <-] & Hy).
  destruct (Forall2_lookup_l _ _ _ _ _ Hall Hrow) as (a & Ha & _).
  assert (HA : entry (map (fun a : nat => [a]) idx) i 0 = Some a).
  { unfold entry. by rewrite list_lookup_fmap, Ha. }
  assert (HY : entry Y i 0 = Some y) by (unfold entry; by rewrite Hyrow).
  exists (if Nat.eqb (Z.to_nat (cast_int64 y)) a
          then 1 - RobustMax.epsilon r else RobustMax._eps_K1 r).
  split.
  - unfold entry. rewrite list_lookup_fmap, Ha. cbn [fmap option_fmap option_map].
    apply one_hot_lookup. fold K. lia.
  - entry_eq.
    destruct (Z.eqb_spec (Z.of_nat a) (cast_int64 y)) as [Heq|Hne];
      destruct (Nat.eqb_spec (Z.to_nat (cast_int64 y)) a) as [Heq'|Hne'];
      (reflexivity || lia).
Qed.

End MultiClassLogp.

Lemma MultiClass_logp_is_log_conditional_mean_witness :
  let rt := ExampleRuntime.runtime in
  let r := RobustMax.__init__ 3 1e-3%R in
  let self := {| MultiClass.num_classes := 3;
                 MultiClass.invlink := MultiClass.robustmax r;
                 MultiClass.num_gauss_hermite_points := 20 |} in
  exists out P,
    MultiClass.logp self [[0; 5; 2]; [4; 1; 3]]%R [[1]; [2]]%R = Ok out /\
    MultiClass.conditional_mean self [[0; 5; 2]; [4; 1; 3]]%R = Ok P /\
    same_shape out [[1]; [2]]%R.
Proof.
  intros rt r self.
  destruct (MultiClass_logp_is_log_conditional_mean self r
              [[0; 5; 2]; [4; 1; 3]]%R [[1]; [2]]%R)
    as (out & P & Hout & HP & Hshape & _).
  - reflexivity.
  - repeat constructor; eexists; (split; [reflexivity|]);
      rewrite cast_int64_IZR; cbn; lia.
  - by exists out, P.
Defined.

Section SoftMaxLogp.
Local Open Scope R_scope.

Lemma cross_entropy_in_range (F : matrix R) (labels : list R) :
  Forall2 (fun row y => exists k x, as_index y = Some k /\ row !! k = Some x) F labels ->
  sparse_softmax_cross_entropy_with_logits F labels
  = Ok (zip_with (fun row y =>
                    ln (Rsum (map exp row))
                    - default 0 (as_index y ≫= fun k => row !! k)) F labels).
Proof.
  intros Hall. unfold sparse_softmax_cross_entropy_with_logits.
  rewrite (Forall2_length _ _ _ Hall), Nat.eqb_refl. cbn [negb].
  induction Hall as [|row y F labels (k & x & Hk & Hx) _ IH]; [done|].
  cbn [zip zip_with mapM fst snd]. rewrite IH.
  rewrite Hk. cbn [mbind option_bind]. rewrite Hx. reflexivity.
Qed.

Lemma mjoin_column {X} (Y : matrix X) (i : nat) (y : X) :
  Forall (fun row => length row = 1%nat) Y ->
  Y !! i = Some [y] -> mjoin Y !! i = Some y.
Proof.
  intros HY. revert i. induction HY as [|row Y Hrow _ IH]; intros i; [done|].
  destruct row as [|z [|z' row]]; try done.
  destruct i as [|i]; cbn.
  - by intros [= ->].
  - apply IH.
Qed.

(** X17: for scores with [num_classes] columns and one label per row in the
    single column of [Y], each an integer that names a class, the entry of
    [SoftMax.logp] for a row is the logarithm of the probability
    [SoftMax.conditional_mean] gives the label of that row; this probability
    lies in (0, 1], so the log-likelihood is never positive. *)
Theorem SoftMax_logp_is_log_conditional_mean (self : SoftMax.t) (F Y : matrix R) :
  Forall2 (fun row yrow =>
             length row = SoftMax.num_classes self /\
             exists y k, yrow = [y] /\ as_index y = Some k /\
                         (k < SoftMax.num_classes self)%nat)
    F Y ->
  exists out P,
    SoftMax.logp self F Y = Ok out /\
    SoftMax.conditional_mean self F = Ok P /\
    length out = length Y /\
    forall i y k, Y !! i = Some [y] -> as_index y = Some k ->
      exists p,
        entry P i k = Some p /\ 0 < p <= 1 /\
        entry out i 0 = Some (ln p) /\ ln p <= 0.
Proof.
  intros Hrows.
  assert (HY : Forall (fun row => length row = 1%nat) Y).
  { apply Forall_lookup. intros i yrow Hyrow.
    destruct (Forall2_lookup_r _ _ _ _ _ Hrows Hyrow) as (row & _ & _ & y & k & -> & _).
    reflexivity. }
  assert (HF : Forall (fun row => length row = SoftMax.num_classes self) F).
  { apply Forall_lookup. intros i row Hrow.
    by destruct (Forall2_lookup_l _ _ _ _ _ Hrows Hrow) as (yrow & _ & Hlen & _). }
  assert (Hlabels : Forall2 (fun row y => exists k x, as_index y = Some k /\ row !! k = Some x)
                      F (mjoin Y)).
  { clear HY HF. induction Hrows as [|row yrow F Y (Hlen & y & k & -> & Hk & HkK) _ IH];
      [constructor|].
    change (mjoin ([y] :: Y)) with (y :: mjoin Y). constructor; [|exact IH].
    destruct (lookup_lt_is_Some_2 row k) as [x Hx]; [lia|]. by exists k, x. }
  rewrite SoftMax_logp_shapes_ok by done.
  rewrite cross_entropy_in_range by done. cbn [mbind result_bind].
  unfold SoftMax.conditional_mean.
  eexists. eexists. split; [reflexivity|]. split; [reflexivity|]. split.
  { rewrite length_map, length_zip_with.
    rewrite <- (Forall2_length _ _ _ Hlabels), (Forall2_length _ _ _ Hrows). lia. }
  intros i y k Hyrow Hk.
  destruct (Forall2_lookup_r _ _ _ _ _ Hrows Hyrow)
    as (row & Hrow & Hlen & y' & k' & [= <-] & Hk' & HkK).
  rewrite Hk in Hk'. injection Hk' as <-.
  destruct (lookup_lt_is_Some_2 row k) as [x Hx]; [lia|].
  pose proof (Rsum_exp_bound row x (list_elem_of_lookup_2 _ _ _ Hx)) as [Hpos Hle].
  exists (exp x / Rsum (map exp row)).
  split; [|split; [|split]].
  - unfold entry, softmax. rewrite list_lookup_fmap, Hrow.
    cbn [fmap option_fmap option_map]. by rewrite list_lookup_fmap, Hx.
  - split; [apply Rdiv_lt_0_compat; lra|].
    apply (Rmult_le_reg_r (Rsum (map exp row))); [lra|].
    unfold Rdiv. rewrite Rmult_assoc, Rinv_l by lra. lra.
  - unfold entry. rewrite list_lookup_fmap.
    rewrite lookup_zip_with, Hrow. cbn [mbind option_bind].
    rewrite (mjoin_column Y i y HY Hyrow). cbn [mbind option_bind fmap option_fmap option_map].
    cbn [lookup list_lookup]. f_equal.
    rewrite Hk. cbn [mbind option_bind]. rewrite Hx. cbn [default].
    unfold Rdiv. rewrite ln_mult by (lra || (apply Rinv_0_lt_compat; lra)).
    rewrite ln_Rinv by lra. rewrite ln_exp. unfold Datatypes.id. lra.
  - rewrite <- ln_1.
    assert (Hp : exp x / Rsum (map exp row) <= 1).
    { apply (Rmult_le_reg_r (Rsum (map exp row))); [lra|].
      unfold Rdiv. rewrite Rmult_assoc, Rinv_l by lra. lra. }
    assert (Hp0 : 0 < exp x / Rsum (map exp row)) by (apply Rdiv_lt_0_compat; lra).
    destruct Hp as [Hlt | ->]; [|lra]. left. by apply ln_increasing.
Qed.

End SoftMaxLogp.

Lemma as_index_IZR (z : Z) : (0 <= z)%Z -> as_index (IZR z) = Some (Z.to_nat z).
Proof.
  intros Hz. unfold as_index.
  rewrite <- (Int_part_spec (IZR z) z) by lra.
  destruct (Req_dec_T (IZR z) (IZR z)) as [_|Hne]; [|done].
  destruct (Z.leb_spec 0 z); [done|lia].
Qed.

Lemma SoftMax_logp_is_log_conditional_mean_witness :
  exists out P,
    SoftMax.logp (SoftMax.__init__ 3) [[1; 2; 3]; [0; 0; 0]]%R [[2]; [0]]%R = Ok out /\
    SoftMax.conditional_mean (SoftMax.__init__ 3) [[1; 2; 3]; [0; 0; 0]]%R = Ok P /\
    length out = 2%nat.
Proof.
  destruct (SoftMax_logp_is_log_conditional_mean (SoftMax.__init__ 3)
              [[1; 2; 3]; [0; 0; 0]]%R [[2]; [0]]%R)
    as (out & P & Hout & HP & Hlen & _).
  - repeat constructor.
    + exists 2%R, 2%nat. split; [reflexivity|]. split; [|cbn; lia].
      by rewrite as_index_IZR.
    + exists 0%R, 0%nat. split; [reflexivity|]. split; [|cbn; lia].
      by rewrite as_index_IZR.
  - by exists out, P.
Defined.

(** ** The base class: the predictive variance *)

Section GenericPrediction.
Context {rt : Runtime}.
Local Open Scope R_scope.

Lemma Rsum_scaled (ws : list R) (c : R) :
  Rsum (map (fun w => w / c) ws) = Rsum ws / c.
Proof.
  unfold Rsum. induction ws as [|w ws IH]; cbn; [lra|]. rewrite IH. lra.
Qed.

Lemma weighted_second_moment (ps xs : list R) (m v : R -> R) :
  Forall (fun p => 0 <= p) ps -> Rsum ps <= 1 -> length ps = length xs ->
  (forall x, 0 <= v x) ->
  0 <= Rsum (zip_with (fun p x => p * (v x + (m x)²)) ps xs)
       - (Rsum (zip_with (fun p x => p * m x) ps xs))².
Proof.
  intros Hps Hsum Hlen Hv.
  assert (Hsplit : Rsum (zip_with (fun p x => p * (v x + (m x)²)) ps xs)
                   = Rsum (zip_with (fun p x => p * v x) ps xs)
                     + Rsum (zip_with Rmult ps (map Rsqr (map m xs)))).
  { clear. unfold Rsum. revert xs.
    induction ps as [|p ps IH]; intros [|x xs]; cbn; try lra.
    rewrite IH. lra. }
  assert (Hnoise : 0 <= Rsum (zip_with (fun p x => p * v x) ps xs)).
  { clear Hsum Hlen Hsplit. unfold Rsum. revert xs.
    induction Hps as [|p ps Hp _ IH]; intros [|x xs]; cbn; try lra.
    specialize (IH xs). pose proof (Rmult_le_pos _ _ Hp (Hv x)). lra. }
  assert (Hmean : Rsum (zip_with (fun p x => p * m x) ps xs)
                  = Rsum (zip_with Rmult ps (map m xs))).
  { clear. unfold Rsum. revert xs.
    induction ps as [|p ps IH]; intros [|x xs]; cbn; try lra.
    by rewrite IH. }
  rewrite Hsplit, Hmean.
  pose proof (weighted_variance_nonneg ps (map m xs) Hps Hsum) as Hvar.
  rewrite length_map in Hvar. specialize (Hvar Hlen). lra.
Qed.

Lemma gauss_hermite_sum_weights (n : nat) (g : R -> R) (mu var : R) :
  gauss_hermite_sum n g mu var
  = Rsum (zip_with (fun p x => p * g (mu + sqrt (2 * var) * x))
            (map (fun w => w / sqrt PI) (snd (hermgauss n))) (fst (hermgauss n))).
Proof.
  unfold gauss_hermite_sum. f_equal.
  generalize (fst (hermgauss n)). generalize (snd (hermgauss n)).
  induction l as [|w ws IH]; intros [|x xs]; cbn; try done.
  by rewrite IH.
Qed.

(** X18: the generic [Likelihood.predict_mean_and_var], for a likelihood
    whose conditional mean and variance act on one latent value at a time,
    the conditional variance being non-negative, and for a quadrature rule
    with non-negative weights that sum to [sqrt PI] (as those of a
    Gauss-Hermite rule do), returns a mean and a variance of the shape of
    [Fmu], and no entry of the variance is negative. *)
Theorem Likelihood_predict_variance_nonnegative
    (conditional_mean conditional_variance : matrix R -> result (matrix R))
    (m v : R -> R) (n : nat) (Fmu Fvar : matrix R) :
  (forall f, conditional_mean [[f]] = Ok [[m f]]) ->
  (forall f, conditional_variance [[f]] = Ok [[v f]]) ->
  (forall f, 0 <= v f) ->
  length (snd (hermgauss n)) = length (fst (hermgauss n)) ->
  Forall (fun w => 0 <= w) (snd (hermgauss n)) ->
  Rsum (snd (hermgauss n)) = sqrt PI ->
  same_shape Fmu Fvar ->
  exists E_y V_y,
    Likelihood.predict_mean_and_var conditional_mean conditional_variance n Fmu Fvar
    = Ok (E_y, V_y) /\
    same_shape E_y Fmu /\ same_shape V_y Fmu /\ nonnegative V_y.
Proof.
  intros Hm Hv Hv0 Hlen Hw Hsum Hshape.
  assert (HF : same_shape Fmu Fmu) by apply same_shape_refl.
  assert (Hshape' : same_shape Fvar Fmu) by (by apply same_shape_sym).
  unfold Likelihood.predict_mean_and_var, quadrature.ndiagquad.
  rewrite (map2M_same_shape _
             (fun mu var => gauss_hermite_sum n (fun f => v f + (m f)²) mu var)).
  2:{ done. }
  2:{ intros i j mu var _ _. apply gauss_hermite_total. intros f.
      rewrite Hv, Hm. reflexivity. }
  rewrite (map2M_same_shape _ (fun mu var => gauss_hermite_sum n m mu var)).
  2:{ done. }
  2:{ intros i j mu var _ _. apply gauss_hermite_total. intros f.
      rewrite Hm. reflexivity. }
  cbn [mbind result_bind].
  rewrite map2_same_shape by shape_pair Fmu.
  cbn [mbind result_bind].
  eexists. eexists. split; [reflexivity|].
  split; [shape_base Fmu|]. split; [shape_base Fmu|].
  apply Forall_entries. intros i j d Hd.
  pose proof Hd as Hmu.
  eapply (same_shape_entry _ Fmu) in Hmu as [mu Hmu]; [|shape_base Fmu].
  destruct (same_shape_entry Fmu Fvar i j mu) as [var Hvar]; [done|done|].
  assert (Hd' : entry
    (zip_with (zip_with Rminus)
       (zip_with (zip_with (fun mu var =>
                              gauss_hermite_sum n (fun f => v f + (m f)²) mu var))
          Fmu Fvar)
       (tf.map1 Rsqr
          (zip_with (zip_with (fun mu var => gauss_hermite_sum n m mu var)) Fmu Fvar)))
    i j = Some _) by entry_solve.
  rewrite Hd in Hd'. apply (inj Some) in Hd' as ->.
  rewrite !gauss_hermite_sum_weights.
  apply (weighted_second_moment _ _ (fun x => m (mu + sqrt (2 * var) * x))
           (fun x => v (mu + sqrt (2 * var) * x))).
  - apply Forall_fmap. eapply Forall_impl; [exact Hw|].
    intros w Hw0. cbn beta.
    assert (0 < sqrt PI) by (apply sqrt_lt_R0, PI_RGT_0).
    apply Rmult_le_pos; [done|]. apply Rlt_le. by apply Rinv_0_lt_compat.
  - rewrite Rsum_scaled, Hsum.
    assert (0 < sqrt PI) by (apply sqrt_lt_R0, PI_RGT_0).
    unfold Rdiv. rewrite Rinv_r by lra. lra.
  - by rewrite length_map.
  - intros x. apply Hv0.
Qed.

End GenericPrediction.

Lemma Likelihood_predict_variance_nonnegative_witness :
  let rt := TwoPointRuntime.runtime in
  exists E_y V_y,
    Likelihood.predict_mean_and_var
      (Gaussian.conditional_mean (Gaussian.__init__ 2))
      (Gaussian.conditional_variance (Gaussian.__init__ 2)) 20
      [[1; 0]]%R [[4; 0]]%R = Ok (E_y, V_y) /\
    same_shape E_y [[1; 0]]%R /\ same_shape V_y [[1; 0]]%R /\ nonnegative V_y.
Proof.
  intros rt.
  apply (Likelihood_predict_variance_nonnegative
           (Gaussian.conditional_mean (Gaussian.__init__ 2))
           (Gaussian.conditional_variance (Gaussian.__init__ 2))
           (fun f => f) (fun _ => 2%R) 20 [[1; 0]]%R [[4; 0]]%R).
  - reflexivity.
  - reflexivity.
  - intros _. lra.
  - reflexivity.
  - assert (0 < sqrt PI)%R by apply sqrt_lt_R0, PI_RGT_0.
    repeat (apply Forall_cons; split; [lra|]). apply Forall_nil_2.
  - unfold Rsum. cbn. lra.
  - repeat constructor.
Defined.

(** ** StudentT: outside the domain of the variance *)

Section StudentTProps.
Local Open Scope R_scope.

(** X19: [StudentT.conditional_variance] checks nothing: it fills the shape
    of [F] with [scale ^ 2 * df / (df - 2)] whatever the degrees of freedom,
    so that with [0 < df < 2] and a scale other than zero every entry it
    returns is negative. *)
Theorem StudentT_variance_negative (self : StudentT.t) (F : matrix R) :
  0 < StudentT.df self < 2 -> StudentT.scale self <> 0 ->
  exists V,
    StudentT.conditional_variance self F = Ok V /\ same_shape V F /\
    Forall (Forall (fun x => x = (StudentT.scale self)² * StudentT.df self
                                 / (StudentT.df self - 2) /\ x < 0)) V.
Proof.
  intros Hdf Hscale. unfold StudentT.conditional_variance.
  eexists. split; [reflexivity|]. split; [apply same_shape_map1_l|].
  apply Forall_map1, Forall_forall. intros row _. apply Forall_forall. intros f _.
  assert (Hs : 0 < (StudentT.scale self)²) by (by apply Rsqr_pos_lt).
  assert (Hinv : / (StudentT.df self - 2.0) < 0) by (apply Rinv_lt_0_compat; lra).
  split.
  - unfold Rsqr, Rdiv. replace (StudentT.df self - 2.0) with (StudentT.df self - 2) by lra.
    cbn [pow]. ring.
  - unfold Rdiv, Rsqr in *. cbn [pow]. rewrite Rmult_1_r.
    assert (Hneg : StudentT.df self * / (StudentT.df self - 2.0) < 0).
    { replace (StudentT.df self * / (StudentT.df self - 2.0))
        with (- (StudentT.df self * - / (StudentT.df self - 2.0))) by ring.
      apply Ropp_lt_gt_0_contravar, Rmult_lt_0_compat; lra. }
    replace (StudentT.scale self * StudentT.scale self
             * (StudentT.df self * / (StudentT.df self - 2.0)))
      with (- (StudentT.scale self * StudentT.scale self
               * - (StudentT.df self * / (StudentT.df self - 2.0)))) by ring.
    apply Ropp_lt_gt_0_contravar, Rmult_lt_0_compat; lra.
Qed.

End StudentTProps.

Lemma StudentT_variance_negative_witness :
  let self := {| StudentT.scale := 1; StudentT.df := 1;
                 StudentT.num_gauss_hermite_points := 20 |} in
  exists V,
    StudentT.conditional_variance self [[0; 3]]%R = Ok V /\ same_shape V [[0; 3]]%R /\
    Forall (Forall (fun x => x = ((1)² * 1 / (1 - 2))%R /\ (x < 0)%R)) V.
Proof.
  intros self.
  apply (StudentT_variance_negative self [[0; 3]]%R).
  - cbn. lra.
  - cbn. lra.
Defined.

(** ** RobustMax: the probability of being the largest *)

Lemma broadcast_singleton_l {X Y Z} (f : X -> Y -> Z) (a : X) (row : list Y) :
  tf.broadcast (fun x y => Ok (f x y)) [a] row = Ok (map (f a) row).
Proof.
  unfold tf.broadcast. cbn [length].
  destruct (Nat.eqb_spec 1 (length row)) as [Hlen|Hlen].
  - destruct row as [|y [|y' row]]; try done.
  - by apply mapM_Ok_map.
Qed.

Lemma map2_column {X Y Z} (f : X -> Y -> Z) (xs : list X) (B : matrix Y) :
  length xs = length B ->
  tf.map2 f (map (fun a => [a]) xs) B
  = Ok (zip_with (fun a row => map (f a) row) xs B).
Proof.
  intros Hlen. unfold tf.map2, tf.map2M. unfold tf.broadcast at 1.
  rewrite length_map, Hlen, Nat.eqb_refl.
  revert B Hlen. induction xs as [|a xs IH]; intros [|row B] Hlen; try done.
  cbn [map zip zip_with mapM fst snd].
  rewrite broadcast_singleton_l. cbn [mbind result_bind].
  injection Hlen as Hlen. rewrite (IH B Hlen). reflexivity.
Qed.

Lemma zip_with_columns {W X Y Z} (g : X -> Y -> Z) (h : W -> X) (h' : W -> Y)
    (A B : list W) :
  zip_with (zip_with g) (map (fun m => [h m]) A) (map (fun v => [h' v]) B)
  = map (fun a => [a]) (zip_with (fun m v => g (h m) (h' v)) A B).
Proof.
  revert B. induction A as [|m A IH]; intros [|v B]; cbn; try done.
  by rewrite IH.
Qed.

Lemma same_shape_columns {W W' X Y} (h : W -> X) (h' : W' -> Y)
    (A : list W) (B : list W') :
  length A = length B ->
  same_shape (map (fun m => [h m]) A) (map (fun v => [h' v]) B).
Proof.
  unfold same_shape. revert B.
  induction A as [|m A IH]; intros [|v B] Hlen; try done; cbn.
  constructor; [done|]. apply IH. by injection Hlen.
Qed.

Lemma Forall_entry {X} (P : X -> Prop) (M : matrix X) (i j : nat) (x : X) :
  Forall (Forall P) M -> entry M i j = Some x -> P x.
Proof.
  intros HM. unfold entry. destruct (M !! i) as [row|] eqn:Hrow; [|done].
  intros Hx. rewrite Forall_lookup in HM. specialize (HM i row Hrow).
  rewrite Forall_lookup in HM. by apply (HM j).
Qed.

Lemma one_hot_rows_entry {X} (labels : list Z) (depth : nat) (on off : X)
    (i j : nat) (v : X) :
  entry (map (fun y => tf.one_hot y depth on off) labels) i j = Some v ->
  exists y, labels !! i = Some y /\ v = if Z.eqb (Z.of_nat j) y then on else off.
Proof.
  unfold entry. rewrite list_lookup_fmap.
  destruct (labels !! i) as [y|]; [|done]. cbn [fmap option_fmap option_map].
  unfold tf.one_hot. rewrite list_lookup_fmap.
  destruct (seq 0 depth !! j) as [j'|] eqn:Hj; [|done].
  apply lookup_seq in Hj as [-> _]. cbn. intros [= <-]. by exists y.
Qed.

Lemma mjoin_column_length {X} (Y : matrix X) :
  Forall (fun row => length row = 1%nat) Y -> length (mjoin Y) = length Y.
Proof.
  induction 1 as [|row Y Hrow _ IH]; [done|].
  destruct row as [|y [|y' row]]; try done.
  change (mjoin ([y] :: Y)) with (y :: mjoin Y). cbn [length]. by rewrite IH.
Qed.

Lemma mapM_Ok_Forall {A B} (f : A -> result B) (l : list A) (P : B -> Prop) :
  (forall x, x ∈ l -> exists y, f x = Ok y /\ P y) ->
  exists r, mapM f l = Ok r /\ length r = length l /\ Forall P r.
Proof.
  induction l as [|x l IH]; intros Hf; [by exists []|].
  destruct (Hf x) as (y & Hy & HP); [by left|].
  destruct IH as (r & Hr & Hlen & Hall); [intros z Hz; apply Hf; by right|].
  exists (y :: r). cbn. rewrite Hy. cbn. rewrite Hr. cbn.
  split; [done|]. split; [by rewrite Hlen|]. by constructor.
Qed.

Lemma zip_star_spec {A} (P : A -> Prop) (n : nat) (ls : list (list A)) :
  ls <> [] ->
  Forall (fun l => length l = n /\ Forall P l) ls ->
  length (zip_star ls) = n /\
  Forall (fun row => length row = length ls /\ Forall P row) (zip_star ls).
Proof.
  induction ls as [|l ls IH]; [done|]. intros _ Hall.
  apply Forall_cons in Hall as [[Hlen Hl] Hall].
  destruct ls as [|l' ls].
  - cbn [zip_star]. split; [by rewrite length_map|].
    apply Forall_fmap. eapply Forall_impl; [exact Hl|].
    intros x Hx. cbn. split; [done|]. by constructor.
  - destruct IH as [IHlen IHrows]; [done|done|].
    change (zip_star (l :: l' :: ls)) with (zip_with cons l (zip_star (l' :: ls))).
    split; [rewrite length_zip_with; lia|].
    apply Forall_lookup. intros i row Hrow.
    apply lookup_zip_with_Some in Hrow as (x & row' & -> & Hx & Hrow').
    rewrite Forall_lookup in IHrows. destruct (IHrows i row' Hrow') as [Hlen' Hrow''].
    split; [cbn [length]; by rewrite Hlen'|].
    constructor; [|done]. rewrite Forall_lookup in Hl. by apply (Hl i).
Qed.

Section RobustMaxProbability.
Context {rt : Runtime}.
Local Open Scope R_scope.

Lemma Rprod_bounds (l : list R) :
  Forall (fun c => 0 <= c <= 1) l -> 0 <= Rprod l <= 1.
Proof.
  unfold Rprod. induction 1 as [|c l Hc _ IH]; cbn; [lra|].
  split; [apply Rmult_le_pos; lra|].
  apply Rle_trans with (1 * 1); [apply Rmult_le_compat; lra | lra].
Qed.

Lemma zip_with_Rmult_comm (a b : list R) :
  zip_with Rmult a b = zip_with Rmult b a.
Proof.
  revert b. induction a as [|x a IH]; intros [|y b]; cbn; try done.
  rewrite IH. f_equal. lra.
Qed.

End RobustMaxProbability.

Lemma same_shape_column_rows {X Y Z} (f : X -> Y -> Z) (xs : list X) (B : matrix Y) :
  length xs = length B ->
  same_shape (zip_with (fun a row => map (f a) row) xs B) B.
Proof.
  unfold same_shape. revert B.
  induction xs as [|a xs IH]; intros [|row B] Hlen; try done; cbn.
  constructor; [by rewrite length_map|]. apply IH. by injection Hlen.
Qed.

Section ProbIsLargest.
Context {rt : Runtime}.
Local Open Scope R_scope.

(** [prob_is_largest] on [N] labels and [N] rows of [K] means and
    variances: [N] probabilities. *)
Lemma prob_is_largest_bounded (self : RobustMax.t) (Y mu var : matrix R)
    (gh_x gh_w : list R) :
  (forall x, -1 <= erf x <= 1) ->
  gh_x <> [] -> length gh_w = length gh_x ->
  Forall (fun w => 0 <= w) gh_w -> Rsum gh_w = sqrt PI ->
  length Y = length mu ->
  Forall (fun row => length row = 1%nat) Y ->
  Forall (fun row => length row = RobustMax.num_classes self) mu ->
  same_shape var mu ->
  exists p,
    RobustMax.prob_is_largest self Y mu var gh_x gh_w = Ok p /\
    same_shape p Y /\ Forall (Forall (fun q => 0 <= q <= 1)) p.
Proof.
  intros Herf Hgrid Hlen Hw Hsum HN HY Hmu Hvar.
  unfold RobustMax.prob_is_largest. cbv zeta.
  set (K := RobustMax.num_classes self) in *.
  set (labels := map cast_int64 (mjoin Y)).
  set (oh_on := map (fun y => tf.one_hot y K 1 0) labels).
  set (oh_off := map (fun y => tf.one_hot y K 0 1) labels).
  assert (Hlabels : length labels = length mu).
  { unfold labels. by rewrite length_map, mjoin_column_length. }
  assert (Hmumu : same_shape mu mu) by apply same_shape_refl.
  assert (Hhot : forall on off : R,
            same_shape (map (fun y => tf.one_hot y K on off) labels) mu).
  { intros on off. unfold same_shape. apply Forall2_fmap_l.
    apply Forall2_same_length_lookup_2; [done|].
    intros i y row _ Hrow. unfold compose, tf.one_hot. cbn beta.
    rewrite length_map, length_seq.
    rewrite Forall_lookup in Hmu. symmetry. by apply (Hmu i). }
  assert (Hon : same_shape oh_on mu) by apply Hhot.
  assert (Hoff : same_shape oh_off mu) by apply Hhot.
  rewrite map2_same_shape by shape_pair mu.
  rewrite map2_same_shape by done. cbn [mbind result_bind].
  set (om := zip_with (zip_with Rmult) oh_on mu).
  set (ov := zip_with (zip_with Rmult) oh_on var).
  assert (Hom : length om = length mu).
  { apply same_shape_length. unfold om. shape_base mu. }
  assert (Hov : length ov = length mu).
  { apply same_shape_length. unfold ov. shape_pair mu. }
  match goal with |- context [mapM ?f gh_x] => set (column := f) end.
  destruct (mapM_Ok_Forall column gh_x
              (fun col => length col = length mu /\ Forall (fun c => 0 <= c <= 1) col))
    as (prods & Hprods & Hplen & Hpall).
  { intros x _. unfold column.
    rewrite map2_same_shape by (apply same_shape_columns; lia).
    cbn [mbind result_bind]. rewrite zip_with_columns.
    rewrite map2_column by (rewrite length_zip_with; lia).
    cbn [mbind result_bind].
    match goal with |- context [zip_with (fun a row => map (Rminus a) row) ?l mu] =>
      set (xs := l) end.
    set (D := zip_with (fun a row => map (Rminus a) row) xs mu).
    assert (HD : same_shape D mu).
    { apply same_shape_column_rows. unfold xs. rewrite length_zip_with. lia. }
    rewrite map2_same_shape by shape_pair mu. cbn [mbind result_bind].
    match goal with |- context [tf.map2 Rmult ?t oh_off] => set (T := t) end.
    assert (HT : same_shape T mu) by (unfold T; shape_base mu).
    assert (HTall : Forall (Forall (fun t => 0 <= t <= 1)) T).
    { unfold T. apply Forall_map1, Forall_map1, Forall_forall. intros row _.
      apply Forall_forall. intros d _. cbn beta.
      specialize (Herf (d / sqrt 2.0)). lra. }
    rewrite map2_same_shape by shape_pair mu. cbn [mbind result_bind].
    rewrite map2_same_shape by shape_pair mu. cbn [mbind result_bind].
    eexists. split; [reflexivity|]. split.
    - rewrite length_map. apply same_shape_length. shape_base mu.
    - apply Forall_fmap.
      eapply Forall_impl; [|intros row Hrow; apply Rprod_bounds; exact Hrow].
      apply Forall_entries. intros i j c Hc.
      pose proof Hc as Ht.
      eapply (same_shape_entry _ T) in Ht as [t Ht]; [|shape_pair mu].
      pose proof Hc as Hf.
      eapply (same_shape_entry _ oh_off) in Hf as [off Hf]; [|shape_pair mu].
      pose proof Hc as Hn.
      eapply (same_shape_entry _ oh_on) in Hn as [on Hn]; [|shape_pair mu].
      assert (Hc' : entry (zip_with (zip_with Rplus)
                             (zip_with (zip_with Rmult) T oh_off) oh_on) i j
                    = Some (t * off + on)) by entry_solve.
      rewrite Hc in Hc'. apply (inj Some) in Hc' as ->.
      pose proof (Forall_entry _ _ _ _ _ HTall Ht) as Htb. cbn beta in Htb.
      apply one_hot_rows_entry in Hf as (y & Hy & ->).
      apply one_hot_rows_entry in Hn as (y' & Hy' & ->).
      rewrite Hy in Hy'. injection Hy' as <-.
      destruct (Z.eqb (Z.of_nat j) y); lra. }
  rewrite Hprods. cbn [mbind result_bind].
  destruct (zip_star_spec (fun c => 0 <= c <= 1) (length mu) prods)
    as [HZlen HZrows].
  { intros ->. destruct gh_x; done. }
  { exact Hpall. }
  unfold matvec. rewrite (proj2 (shape1_is_Forall _ _)).
  2:{ eapply Forall_impl; [exact HZrows|]. intros row [Hl _].
      rewrite Hl, length_map. lia. }
  eexists. split; [reflexivity|]. split.
  - unfold same_shape. apply Forall2_fmap_l.
    apply Forall2_same_length_lookup_2; [lia|].
    intros i row yrow _ Hyrow. unfold compose. cbn [length].
    rewrite Forall_lookup in HY. symmetry. by apply (HY i).
  - apply Forall_fmap. eapply Forall_impl; [exact HZrows|].
    intros row [_ Hrow]. cbn beta. constructor; [|constructor].
    rewrite zip_with_Rmult_comm.
    assert (Hpi : 0 < sqrt PI) by (apply sqrt_lt_R0, PI_RGT_0).
    destruct (weighted_mean_bounds (map (fun w => w / sqrt PI) gh_w) row 1)
      as [Hlo Hhi]; [lra| |done|].
    + apply Forall_fmap. eapply Forall_impl; [exact Hw|].
      intros w Hw0. cbn beta. apply Rmult_le_pos; [done|].
      apply Rlt_le. by apply Rinv_0_lt_compat.
    + rewrite Rsum_scaled, Hsum in Hhi. unfold Rdiv in Hhi.
      rewrite Rinv_r in Hhi by lra. lra.
Qed.

End ProbIsLargest.

(** ** MultiClass: the predictions *)

Section MultiClassPrediction.
Context {rt : Runtime}.
Local Open Scope R_scope.

Lemma ln_tangent (x : R) : 0 < x -> ln x <= x - 1.
Proof.
  intros Hx. pose proof (exp_ineq1_le (ln x)) as Hexp.
  rewrite exp_ln in Hexp by done. lra.
Qed.

(** The logarithm is concave: the mean of two logarithms is at most the
    logarithm of the mean. *)
Lemma ln_concave (p a b : R) :
  0 <= p <= 1 -> 0 < a -> 0 < b ->
  p * ln a + (1 - p) * ln b <= ln (p * a + (1 - p) * b).
Proof.
  intros Hp Ha Hb.
  set (c := p * a + (1 - p) * b).
  assert (Hc : 0 < c).
  { unfold c. destruct (Rle_lt_dec p 0) as [Hp0|Hp0].
    - replace p with 0 by lra. lra.
    - assert (0 < p * a) by (by apply Rmult_lt_0_compat).
      assert (0 <= (1 - p) * b) by (apply Rmult_le_pos; lra). lra. }
  assert (Hac : ln a - ln c <= a / c - 1).
  { pose proof (Rinv_0_lt_compat c Hc) as Hinv.
    assert (Hq : 0 < a / c) by (by apply Rmult_lt_0_compat).
    pose proof (ln_tangent _ Hq) as Ht. unfold Rdiv in Ht at 1.
    rewrite ln_mult, ln_Rinv in Ht by done. lra. }
  assert (Hbc : ln b - ln c <= b / c - 1).
  { pose proof (Rinv_0_lt_compat c Hc) as Hinv.
    assert (Hq : 0 < b / c) by (by apply Rmult_lt_0_compat).
    pose proof (ln_tangent _ Hq) as Ht. unfold Rdiv in Ht at 1.
    rewrite ln_mult, ln_Rinv in Ht by done. lra. }
  assert (H1 : p * (ln a - ln c) <= p * (a / c - 1))
    by (apply Rmult_le_compat_l; lra).
  assert (H2 : (1 - p) * (ln b - ln c) <= (1 - p) * (b / c - 1))
    by (apply Rmult_le_compat_l; lra).
  assert (Hmean : p * (a / c - 1) + (1 - p) * (b / c - 1) = 0).
  { replace (p * (a / c - 1) + (1 - p) * (b / c - 1))
      with ((p * a + (1 - p) * b) * / c - 1) by (unfold Rdiv; ring).
    fold c. rewrite Rinv_r by lra. lra. }
  lra.
Qed.

(** What the three quadrature methods of [MultiClass] compute from the
    probabilities of [prob_is_largest]. *)
Lemma MultiClass_quadrature (self : MultiClass.t) (r : RobustMax.t)
    (Fmu Fvar Y : matrix R) :
  MultiClass.invlink self = MultiClass.robustmax r ->
  (forall x, -1 <= erf x <= 1) ->
  positive_rule (MultiClass.num_gauss_hermite_points self) ->
  length Y = length Fmu ->
  Forall (fun row => length row = 1%nat) Y ->
  Forall (fun row => length row = RobustMax.num_classes r) Fmu ->
  same_shape Fvar Fmu ->
  exists p,
    same_shape p Y /\ Forall (Forall (fun q => 0 <= q <= 1)) p /\
    MultiClass._predict_non_logged_density self Fmu Fvar Y
    = Ok (tf.map1 (fun p => p * (1 - RobustMax.epsilon r)
                            + (1 - p) * RobustMax._eps_K1 r) p) /\
    MultiClass.predict_density self Fmu Fvar Y
    = Ok (tf.map1 ln
            (tf.map1 (fun p => p * (1 - RobustMax.epsilon r)
                               + (1 - p) * RobustMax._eps_K1 r) p)) /\
    MultiClass.variational_expectations self Fmu Fvar Y
    = Ok (tf.map1 (fun p => p * ln (1 - RobustMax.epsilon r)
                            + (1 - p) * ln (RobustMax._eps_K1 r)) p).
Proof.
  intros Hlink Herf (Hgrid & Hlen & Hw & Hsum) HN HY Hmu Hvar.
  destruct (prob_is_largest_bounded r Y Fmu Fvar _ _ Herf Hgrid Hlen Hw Hsum
              HN HY Hmu Hvar) as (p & Hp & Hshape & Hall).
  exists p. split; [done|]. split; [done|].
  unfold MultiClass.predict_density, MultiClass._predict_non_logged_density,
    MultiClass.variational_expectations.
  rewrite Hlink, Hp. done.
Qed.

(** A mixture of the two probabilities of a RobustMax. *)
Lemma robustmax_mixture (r : RobustMax.t) (p : R) :
  0 < RobustMax.epsilon r < 1 -> (2 <= RobustMax.num_classes r)%nat ->
  0 <= p <= 1 ->
  0 < 1 - RobustMax.epsilon r < 1 /\ 0 < RobustMax._eps_K1 r < 1 /\
  Rmin (1 - RobustMax.epsilon r) (RobustMax._eps_K1 r)
  <= p * (1 - RobustMax.epsilon r) + (1 - p) * RobustMax._eps_K1 r
  <= Rmax (1 - RobustMax.epsilon r) (RobustMax._eps_K1 r).
Proof.
  intros Heps HK Hp.
  assert (HK' : 2 <= INR (RobustMax.num_classes r))
    by (change 2 with (INR 2); by apply le_INR).
  assert (Hb : 0 < RobustMax._eps_K1 r < 1).
  { unfold RobustMax._eps_K1. split; [apply Rdiv_lt_0_compat; lra|].
    apply (Rmult_lt_reg_r (INR (RobustMax.num_classes r) - 1)); [lra|].
    unfold Rdiv. rewrite Rmult_assoc, Rinv_l by lra. lra. }
  split; [lra|]. split; [done|].
  set (a := 1 - RobustMax.epsilon r) in *. set (b := RobustMax._eps_K1 r) in *.
  assert (H1 : 0 <= p * (a - Rmin a b))
    by (apply Rmult_le_pos; [lra|]; pose proof (Rmin_l a b); lra).
  assert (H2 : 0 <= (1 - p) * (b - Rmin a b))
    by (apply Rmult_le_pos; [lra|]; pose proof (Rmin_r a b); lra).
  assert (H3 : 0 <= p * (Rmax a b - a))
    by (apply Rmult_le_pos; [lra|]; pose proof (Rmax_l a b); lra).
  assert (H4 : 0 <= (1 - p) * (Rmax a b - b))
    by (apply Rmult_le_pos; [lra|]; pose proof (Rmax_r a b); lra).
  lra.
Qed.

End MultiClassPrediction.

Lemma Forall_mjoin {X} (P : X -> Prop) (M : matrix X) :
  Forall (Forall P) M -> Forall P (mjoin M).
Proof.
  induction 1 as [|row M Hrow _ IH]; [constructor|].
  change (mjoin (row :: M)) with (row ++ mjoin M). by apply Forall_app.
Qed.

Section MultiClassResults.
Context {rt : Runtime}.
Local Open Scope R_scope.

(** X20: with a RobustMax inverse link of error rate inside (0, 1) over at
    least two classes, an error function within [-1, 1], a quadrature rule
    with non-negative weights that sum to [sqrt PI], one label per row of
    [Y] and [K] means and variances per row, [MultiClass.predict_density]
    returns a tensor of the shape of [Y] whose entries lie between the
    logarithms of the smaller and of the larger of [1 - epsilon] and
    [epsilon / (K - 1)], and so are negative, whatever the labels. *)
Theorem MultiClass_predict_density_bounds (self : MultiClass.t) (r : RobustMax.t)
    (Fmu Fvar Y : matrix R) :
  MultiClass.invlink self = MultiClass.robustmax r ->
  0 < RobustMax.epsilon r < 1 -> (2 <= RobustMax.num_classes r)%nat ->
  (forall x, -1 <= erf x <= 1) ->
  positive_rule (MultiClass.num_gauss_hermite_points self) ->
  length Y = length Fmu ->
  Forall (fun row => length row = 1%nat) Y ->
  Forall (fun row => length row = RobustMax.num_classes r) Fmu ->
  same_shape Fvar Fmu ->
  exists out,
    MultiClass.predict_density self Fmu Fvar Y = Ok out /\
    same_shape out Y /\
    Forall (Forall (fun l =>
              ln (Rmin (1 - RobustMax.epsilon r) (RobustMax._eps_K1 r)) <= l
              <= ln (Rmax (1 - RobustMax.epsilon r) (RobustMax._eps_K1 r)) /\
              l < 0)) out.
Proof.
  intros Hlink Heps HK Herf Hrule HN HY Hmu Hvar.
  destruct (MultiClass_quadrature self r Fmu Fvar Y Hlink Herf Hrule HN HY Hmu Hvar)
    as (p & Hshape & Hall & _ & Hdensity & _).
  rewrite Hdensity. eexists. split; [reflexivity|]. split; [shape_base Y|].
  apply Forall_map1, Forall_map1.
  eapply Forall_impl; [exact Hall|]. intros row Hrow.
  eapply Forall_impl; [exact Hrow|]. intros q Hq. cbn beta.
  destruct (robustmax_mixture r q Heps HK Hq) as (Ha & Hb & Hlo & Hhi).
  set (a := 1 - RobustMax.epsilon r) in *. set (b := RobustMax._eps_K1 r) in *.
  set (d := q * a + (1 - q) * b) in *.
  assert (Hmin : 0 < Rmin a b) by (by apply Rmin_glb_lt; lra).
  assert (Hmax : Rmax a b < 1) by (by apply Rmax_lub_lt; lra).
  assert (Hmono : forall x y, 0 < x -> x <= y -> ln x <= ln y).
  { intros x y Hx [Hxy | ->]; [|lra]. left. by apply ln_increasing. }
  split; [split|].
  - by apply Hmono.
  - apply Hmono; lra.
  - rewrite <- ln_1. apply ln_increasing; lra.
Qed.

(** X21: under the same conditions, [MultiClass.variational_expectations]
    and [MultiClass.predict_density] return tensors of the shape of [Y],
    and each expectation is at most the log-density at the same place:
    the mean of the two logarithms against their mixture. *)
Theorem MultiClass_variational_expectations_le_density (self : MultiClass.t)
    (r : RobustMax.t) (Fmu Fvar Y : matrix R) :
  MultiClass.invlink self = MultiClass.robustmax r ->
  0 < RobustMax.epsilon r < 1 -> (2 <= RobustMax.num_classes r)%nat ->
  (forall x, -1 <= erf x <= 1) ->
  positive_rule (MultiClass.num_gauss_hermite_points self) ->
  length Y = length Fmu ->
  Forall (fun row => length row = 1%nat) Y ->
  Forall (fun row => length row = RobustMax.num_classes r) Fmu ->
  same_shape Fvar Fmu ->
  exists ve out,
    MultiClass.variational_expectations self Fmu Fvar Y = Ok ve /\
    MultiClass.predict_density self Fmu Fvar Y = Ok out /\
    same_shape ve Y /\ same_shape out Y /\
    forall i j v l, entry ve i j = Some v -> entry out i j = Some l -> v <= l.
Proof.
  intros Hlink Heps HK Herf Hrule HN HY Hmu Hvar.
  destruct (MultiClass_quadrature self r Fmu Fvar Y Hlink Herf Hrule HN HY Hmu Hvar)
    as (p & Hshape & Hall & _ & Hdensity & Hve).
  rewrite Hdensity, Hve. eexists. eexists.
  split; [reflexivity|]. split; [reflexivity|].
  split; [shape_base Y|]. split; [shape_base Y|].
  intros i j v l Hv Hl.
  pose proof Hv as Hq.
  eapply (same_shape_entry _ p) in Hq as [q Hq]; [|apply same_shape_map1_l].
  pose proof (Forall_entry _ _ _ _ _ Hall Hq) as Hq01. cbn beta in Hq01.
  assert (Hv' : entry (tf.map1 (fun p => p * ln (1 - RobustMax.epsilon r)
                                        + (1 - p) * ln (RobustMax._eps_K1 r)) p) i j
                = Some _) by entry_solve.
  rewrite Hv in Hv'. apply (inj Some) in Hv' as ->.
  assert (Hl' : entry (tf.map1 ln
                         (tf.map1 (fun p => p * (1 - RobustMax.epsilon r)
                                            + (1 - p) * RobustMax._eps_K1 r) p)) i j
                = Some _) by entry_solve.
  rewrite Hl in Hl'. apply (inj Some) in Hl' as ->.
  destruct (robustmax_mixture r q Heps HK Hq01) as (Ha & Hb & _).
  apply ln_concave; lra.
Qed.

(** X22: under the same conditions on the link, the error function and the
    rule, [MultiClass.predict_mean_and_var] returns, for each row of [Fmu],
    one probability for each of the [num_classes] classes, every one
    strictly between 0 and 1, and as variance [p - p ^ 2] of each, which is
    never negative. *)
Theorem MultiClass_predict_mean_and_var_probabilities (self : MultiClass.t)
    (r : RobustMax.t) (Fmu Fvar : matrix R) :
  MultiClass.invlink self = MultiClass.robustmax r ->
  0 < RobustMax.epsilon r < 1 -> (2 <= RobustMax.num_classes r)%nat ->
  (0 < MultiClass.num_classes self)%nat ->
  (forall x, -1 <= erf x <= 1) ->
  positive_rule (MultiClass.num_gauss_hermite_points self) ->
  Forall (fun row => length row = RobustMax.num_classes r) Fmu ->
  same_shape Fvar Fmu ->
  exists ps V,
    MultiClass.predict_mean_and_var self Fmu Fvar = Ok (ps, V) /\
    length ps = length Fmu /\
    Forall (fun row => length row = MultiClass.num_classes self /\
                       Forall (fun p => 0 < p < 1) row) ps /\
    V = tf.map1 (fun p => p - p²) ps /\ nonnegative V.
Proof.
  intros Hlink Heps HK HC Herf Hrule Hmu Hvar.
  unfold MultiClass.predict_mean_and_var. rewrite Hlink.
  set (possible_outputs :=
         map (fun i => map (fun _ : list R => [INR i]) Fmu)
           (seq 0 (MultiClass.num_classes self))).
  destruct (mapM_Ok_Forall
              (fun po => MultiClass._predict_non_logged_density self Fmu Fvar po)
              possible_outputs
              (fun den => length den = length Fmu /\
                          Forall (fun row => length row = 1%nat) den /\
                          Forall (Forall (fun d => 0 < d < 1)) den))
    as (dens & Hdens & Hdlen & Hdall).
  { intros po Hpo. unfold possible_outputs in Hpo.
    apply list_elem_of_fmap in Hpo as (c & -> & _).
    set (po := map (fun _ : list R => [INR c]) Fmu).
    assert (HN : length po = length Fmu) by (unfold po; by rewrite length_map).
    assert (HY : Forall (fun row => length row = 1%nat) po).
    { unfold po. apply Forall_fmap, Forall_forall. by intros row _. }
    destruct (MultiClass_quadrature self r Fmu Fvar po Hlink Herf Hrule HN HY Hmu Hvar)
      as (p & Hshape & Hall & Hden & _).
    rewrite Hden. eexists. split; [reflexivity|]. split; [|split].
    - unfold tf.map1. rewrite length_map.
      rewrite (same_shape_length _ _ Hshape). done.
    - apply Forall_lookup. intros i row Hrow.
      unfold tf.map1 in Hrow. rewrite list_lookup_fmap in Hrow.
      destruct (p !! i) as [prow|] eqn:Hprow; [|done].
      injection Hrow as <-. rewrite length_map.
      destruct (lookup_lt_is_Some_2 po i) as [yrow Hyrow].
      { rewrite <- (same_shape_length _ _ Hshape). by eapply lookup_lt_Some. }
      rewrite (same_shape_lookup _ _ _ _ _ Hshape Hprow Hyrow).
      rewrite Forall_lookup in HY. by apply (HY i).
    - apply Forall_map1. eapply Forall_impl; [exact Hall|]. intros row Hrow.
      eapply Forall_impl; [exact Hrow|]. intros q Hq. cbn beta.
      destruct (robustmax_mixture r q Heps HK Hq) as (Ha & Hb & Hlo & Hhi).
      set (a := 1 - RobustMax.epsilon r) in *. set (b := RobustMax._eps_K1 r) in *.
      assert (Hmin : 0 < Rmin a b) by (by apply Rmin_glb_lt; lra).
      assert (Hmax : Rmax a b < 1) by (by apply Rmax_lub_lt; lra).
      lra. }
  rewrite Hdens. cbn [mbind result_bind].
  assert (HK' : length dens = MultiClass.num_classes self).
  { rewrite Hdlen. unfold possible_outputs. by rewrite length_map, length_seq. }
  destruct (Nat.eqb_spec (length dens) 0) as [Hzero|_]; [lia|].
  cbn [mbind result_bind].
  rewrite minus_square. cbn [mbind result_bind].
  destruct (zip_star_spec (fun d => 0 < d < 1) (length Fmu) (map (fun p => mjoin p) dens))
    as [HZlen HZrows].
  { destruct dens; [cbn in HK'; lia|done]. }
  { apply Forall_fmap. eapply Forall_impl; [exact Hdall|].
    intros den (Hlen & Hcol & Hall). cbn beta. split.
    - by rewrite mjoin_column_length.
    - by apply Forall_mjoin. }
  eexists. eexists. split; [reflexivity|]. split; [done|]. split; [|split; [done|]].
  - eapply Forall_impl; [exact HZrows|]. intros row [Hlen Hrow].
    split; [|done]. by rewrite Hlen, length_map.
  - apply Forall_map1. eapply Forall_impl; [exact HZrows|]. intros row [_ Hrow].
    eapply Forall_impl; [exact Hrow|]. intros d Hd. cbn beta.
    apply probability_variance. lra.
Qed.

End MultiClassResults.

Lemma one_point_rule_positive (n : nat) :
  positive_rule (rt := ExampleRuntime.runtime) n.
Proof.
  assert (0 < sqrt PI)%R by apply sqrt_lt_R0, PI_RGT_0.
  unfold positive_rule. cbn. repeat split; try done.
  - apply Forall_cons. split; [lra|apply Forall_nil_2].
  - unfold Rsum. cbn. lra.
Qed.

Lemma MultiClass_predict_density_bounds_witness :
  let rt := ExampleRuntime.runtime in
  let r := RobustMax.__init__ 3 1e-3%R in
  let self := {| MultiClass.num_classes := 3;
                 MultiClass.invlink := MultiClass.robustmax r;
                 MultiClass.num_gauss_hermite_points := 20 |} in
  exists out,
    MultiClass.predict_density self [[0; 5; 2]]%R [[1; 1; 1]]%R [[1]]%R = Ok out /\
    same_shape out [[1%R]] /\
    Forall (Forall (fun l =>
              ln (Rmin (1 - RobustMax.epsilon r) (RobustMax._eps_K1 r)) <= l
              <= ln (Rmax (1 - RobustMax.epsilon r) (RobustMax._eps_K1 r)) /\
              l < 0)%R) out.
Proof.
  intros rt r self.
  apply (MultiClass_predict_density_bounds self r [[0; 5; 2]]%R [[1; 1; 1]]%R [[1]]%R).
  - reflexivity.
  - cbv [r RobustMax.__init__ RobustMax.epsilon]. lra.
  - cbn. lia.
  - apply soft_sign_bound.
  - apply one_point_rule_positive.
  - reflexivity.
  - repeat constructor.
  - repeat constructor.
  - repeat constructor.
Defined.

Lemma MultiClass_variational_expectations_le_density_witness :
  let rt := ExampleRuntime.runtime in
  let r := RobustMax.__init__ 3 1e-3%R in
  let self := {| MultiClass.num_classes := 3;
                 MultiClass.invlink := MultiClass.robustmax r;
                 MultiClass.num_gauss_hermite_points := 20 |} in
  exists ve out,
    MultiClass.variational_expectations self [[0; 5; 2]]%R [[1; 1; 1]]%R [[1]]%R
    = Ok ve /\
    MultiClass.predict_density self [[0; 5; 2]]%R [[1; 1; 1]]%R [[1]]%R = Ok out /\
    same_shape ve [[1%R]] /\ same_shape out [[1%R]] /\
    forall i j v l, entry ve i j = Some v -> entry out i j = Some l -> (v <= l)%R.
Proof.
  intros rt r self.
  apply (MultiClass_variational_expectations_le_density self r
           [[0; 5; 2]]%R [[1; 1; 1]]%R [[1]]%R).
  - reflexivity.
  - cbv [r RobustMax.__init__ RobustMax.epsilon]. lra.
  - cbn. lia.
  - apply soft_sign_bound.
  - apply one_point_rule_positive.
  - reflexivity.
  - repeat constructor.
  - repeat constructor.
  - repeat constructor.
Defined.

Lemma MultiClass_predict_mean_and_var_probabilities_witness :
  let rt := ExampleRuntime.runtime in
  let r := RobustMax.__init__ 3 1e-3%R in
  let self := {| MultiClass.num_classes := 3;
                 MultiClass.invlink := MultiClass.robustmax r;
                 MultiClass.num_gauss_hermite_points := 20 |} in
  exists ps V,
    MultiClass.predict_mean_and_var self [[0; 5; 2]; [1; 1; 4]]%R
      [[1; 1; 1]; [2; 2; 2]]%R = Ok (ps, V) /\
    length ps = 2%nat /\
    Forall (fun row => length row = 3%nat /\ Forall (fun p => 0 < p < 1)%R row) ps /\
    V = tf.map1 (fun p => p - p²)%R ps /\ nonnegative V.
Proof.
  intros rt r self.
  apply (MultiClass_predict_mean_and_var_probabilities self r
           [[0; 5; 2]; [1; 1; 4]]%R [[1; 1; 1]; [2; 2; 2]]%R).
  - reflexivity.
  - cbv [r RobustMax.__init__ RobustMax.epsilon]. lra.
  - cbn. lia.
  - cbn. lia.
  - apply soft_sign_bound.
  - apply one_point_rule_positive.
  - repeat constructor.
  - repeat constructor.
Defined.

Section ProbIsLargestResult.
Context {rt : Runtime}.
Local Open Scope R_scope.

(** X23: for one label per row of [Y], [K = num_classes] means and
    variances per row, an error function within [-1, 1] and a grid with at
    least one node and non-negative weights that sum to [sqrt PI],
    [RobustMax.prob_is_largest] returns one number for each label, between
    0 and 1, whatever the labels, the means and the variances (a variance
    that is negative or zero is clipped). *)
Theorem RobustMax_prob_is_largest_probability (self : RobustMax.t)
    (Y mu var : matrix R) (gh_x gh_w : list R) :
  (forall x, -1 <= erf x <= 1) ->
  gh_x <> [] -> length gh_w = length gh_x ->
  Forall (fun w => 0 <= w) gh_w -> Rsum gh_w = sqrt PI ->
  length Y = length mu ->
  Forall (fun row => length row = 1%nat) Y ->
  Forall (fun row => length row = RobustMax.num_classes self) mu ->
  same_shape var mu ->
  exists p,
    RobustMax.prob_is_largest self Y mu var gh_x gh_w = Ok p /\
    same_shape p Y /\ Forall (Forall (fun q => 0 <= q <= 1)) p.
Proof. apply prob_is_largest_bounded. Qed.

End ProbIsLargestResult.

Lemma RobustMax_prob_is_largest_probability_witness :
  let rt := ExampleRuntime.runtime in
  exists p,
    RobustMax.prob_is_largest (RobustMax.__init__ 3 1e-3%R)
      [[1]; [7]]%R [[0; 5; 2]; [1; 1; 4]]%R [[1; 0; 1]; [2; -1; 2]]%R
      [-1; 1]%R [sqrt PI / 2; sqrt PI / 2]%R = Ok p /\
    same_shape p [[1]; [7]]%R /\ Forall (Forall (fun q => 0 <= q <= 1)%R) p.
Proof.
  intros rt.
  assert (0 < sqrt PI)%R by apply sqrt_lt_R0, PI_RGT_0.
  apply (RobustMax_prob_is_largest_probability (RobustMax.__init__ 3 1e-3%R)).
  - apply soft_sign_bound.
  - done.
  - reflexivity.
  - repeat (apply Forall_cons; split; [lra|]). apply Forall_nil_2.
  - unfold Rsum. cbn. lra.
  - reflexivity.
  - repeat constructor.
  - repeat constructor.
  - repeat constructor.
Defined.

(** ** The base class: expectations and densities *)

Section GenericBound.
Context {rt : Runtime}.
Local Open Scope R_scope.

Lemma gauss_hermite_logspace_total (n : nat) (g : R -> result R) (g' : R -> R)
    (mu var : R) :
  (forall f, g f = Ok (g' f)) ->
  quadrature.gauss_hermite n true g mu var
  = Ok (ln (gauss_hermite_sum n (fun f => exp (g' f)) mu var)).
Proof.
  intros Hg. unfold quadrature.gauss_hermite, gauss_hermite_sum.
  rewrite (mapM_Ok_map _ (fun x => g' (mu + sqrt (2 * var) * x))) by (intros; apply Hg).
  cbn [mbind result_bind]. do 3 f_equal.
  generalize (snd (hermgauss n)). induction (fst (hermgauss n)) as [|x xs IH];
    intros [|w ws]; cbn; try done.
  by rewrite IH.
Qed.

Lemma exp_tangent (v t : R) : exp t * (1 + v - t) <= exp v.
Proof.
  replace (exp v) with (exp t * exp (v - t))
    by (rewrite <- exp_plus; f_equal; lra).
  apply Rmult_le_compat_l; [apply Rlt_le, exp_pos|].
  pose proof (exp_ineq1_le (v - t)). lra.
Qed.

Lemma weighted_exp_tangent (ps xs : list R) (g : R -> R) (t : R) :
  Forall (fun p => 0 <= p) ps -> length ps = length xs ->
  exp t * ((1 - t) * Rsum ps + Rsum (zip_with (fun p x => p * g x) ps xs))
  <= Rsum (zip_with (fun p x => p * exp (g x)) ps xs).
Proof.
  unfold Rsum. intros Hps. revert xs.
  induction Hps as [|p ps Hp _ IH]; intros [|x xs] Hlen; try done; cbn.
  - lra.
  - injection Hlen as Hlen. specialize (IH xs Hlen).
    pose proof (Rmult_le_compat_l p _ _ Hp (exp_tangent (g x) t)). lra.
Qed.

Lemma weighted_exp_positive (ps xs : list R) (g : R -> R) :
  Forall (fun p => 0 <= p) ps -> length ps = length xs -> 0 < Rsum ps ->
  0 < Rsum (zip_with (fun p x => p * exp (g x)) ps xs).
Proof.
  unfold Rsum. intros Hps. revert xs.
  induction Hps as [|p ps Hp Hps IH]; intros [|x xs] Hlen Hsum; cbn in *;
    try done; try lra.
  injection Hlen as Hlen.
  pose proof (exp_pos (g x)) as He.
  assert (Htail : 0 <= foldr Rplus 0 (zip_with (fun p x => p * exp (g x)) ps xs)).
  { clear -Hps. revert xs. induction Hps as [|q ps Hq _ IH]; intros [|y xs]; cbn;
      try lra.
    specialize (IH xs). pose proof (exp_pos (g y)).
    assert (0 <= q * exp (g y)) by (apply Rmult_le_pos; lra). lra. }
  destruct Hp as [Hp | <-].
  - assert (0 < p * exp (g x)) by (by apply Rmult_lt_0_compat). lra.
  - rewrite Rmult_0_l, Rplus_0_l. apply IH; [done|]. lra.
Qed.

(** Jensen's inequality for the normalised weights of a rule. *)
Lemma weighted_jensen (ps xs : list R) (g : R -> R) :
  Forall (fun p => 0 <= p) ps -> length ps = length xs -> Rsum ps = 1 ->
  Rsum (zip_with (fun p x => p * g x) ps xs)
  <= ln (Rsum (zip_with (fun p x => p * exp (g x)) ps xs)).
Proof.
  intros Hps Hlen Hsum.
  set (S := Rsum (zip_with (fun p x => p * exp (g x)) ps xs)).
  assert (HS : 0 < S) by (apply weighted_exp_positive; [done|done|lra]).
  pose proof (weighted_exp_tangent ps xs g (ln S) Hps Hlen) as Htan.
  fold S in Htan. rewrite exp_ln, Hsum in Htan by done.
  set (m := Rsum (zip_with (fun p x => p * g x) ps xs)) in *.
  assert (Hdiv : (1 - ln S) * 1 + m <= 1).
  { apply (Rmult_le_reg_l S); [done|]. lra. }
  lra.
Qed.

(** X24: for a likelihood whose [logp] acts on one latent value and one
    datum at a time, and a quadrature rule with non-negative weights that
    sum to [sqrt PI], the generic [Likelihood.variational_expectations]
    and [Likelihood.predict_density] return tensors of the shape of [Y],
    and each expected log-density is at most the log predictive density at
    the same place. *)
Theorem Likelihood_variational_expectations_le_density
    (logp : matrix R -> matrix R -> result (matrix R)) (l : R -> R -> R)
    (n : nat) (Fmu Fvar Y : matrix R) :
  (forall f y, logp [[f]] [[y]] = Ok [[l f y]]) ->
  positive_rule n ->
  same_shape Fmu Y -> same_shape Fvar Y ->
  exists ve pd,
    Likelihood.variational_expectations logp n Fmu Fvar Y = Ok ve /\
    Likelihood.predict_density logp n Fmu Fvar Y = Ok pd /\
    same_shape ve Y /\ same_shape pd Y /\
    forall i j v d, entry ve i j = Some v -> entry pd i j = Some d -> v <= d.
Proof.
  intros Hlogp (_ & Hlen & Hw & Hsum) Hmu Hvar.
  assert (HY : same_shape Y Y) by apply same_shape_refl.
  unfold Likelihood.variational_expectations, Likelihood.predict_density,
    quadrature.ndiagquad_Y.
  rewrite (map2M_same_shape _ pair) by (done || shape_pair Y).
  cbn [mbind result_bind].
  rewrite (map2M_same_shape _
             (fun (mv : R * R) y =>
                gauss_hermite_sum n (fun f => l f y) (fst mv) (snd mv))).
  2:{ shape_pair Y. }
  2:{ intros i j mv y _ _. apply gauss_hermite_total. intros f.
      by rewrite Hlogp. }
  rewrite (map2M_same_shape _
             (fun (mv : R * R) y =>
                ln (gauss_hermite_sum n (fun f => exp (l f y)) (fst mv) (snd mv)))).
  2:{ shape_pair Y. }
  2:{ intros i j mv y _ _. apply gauss_hermite_logspace_total. intros f.
      by rewrite Hlogp. }
  eexists. eexists. split; [reflexivity|]. split; [reflexivity|].
  split; [shape_base Y|]. split; [shape_base Y|].
  intros i j v d Hv Hd.
  pose proof Hv as Hy.
  eapply (same_shape_entry _ Y) in Hy as [y Hy]; [|shape_base Y].
  destruct (same_shape_entry Y Fmu i j y) as [m Hm]; [by apply same_shape_sym|done|].
  destruct (same_shape_entry Y Fvar i j y) as [s Hs]; [by apply same_shape_sym|done|].
  assert (Hv' : entry
    (zip_with (zip_with (fun (mv : R * R) y =>
        gauss_hermite_sum n (fun f => l f y) (fst mv) (snd mv)))
       (zip_with (zip_with pair) Fmu Fvar) Y) i j = Some _) by entry_solve.
  rewrite Hv in Hv'. apply (inj Some) in Hv' as ->.
  assert (Hd' : entry
    (zip_with (zip_with (fun (mv : R * R) y =>
        ln (gauss_hermite_sum n (fun f => exp (l f y)) (fst mv) (snd mv))))
       (zip_with (zip_with pair) Fmu Fvar) Y) i j = Some _) by entry_solve.
  rewrite Hd in Hd'. apply (inj Some) in Hd' as ->. cbn [fst snd].
  rewrite !gauss_hermite_sum_weights.
  assert (Hpi : 0 < sqrt PI) by (apply sqrt_lt_R0, PI_RGT_0).
  apply (weighted_jensen _ _ (fun x => l (m + sqrt (2 * s) * x) y)).
  - apply Forall_fmap. eapply Forall_impl; [exact Hw|].
    intros w Hw0. cbn beta. apply Rmult_le_pos; [done|].
    apply Rlt_le. by apply Rinv_0_lt_compat.
  - by rewrite length_map.
  - rewrite Rsum_scaled, Hsum. unfold Rdiv. rewrite Rinv_r by lra. done.
Qed.

End GenericBound.

Lemma Likelihood_variational_expectations_le_density_witness :
  let rt := ExampleRuntime.runtime in
  exists ve pd,
    Likelihood.variational_expectations (Gaussian.logp (Gaussian.__init__ 2)) 20
      [[1; 0]]%R [[4; 0]]%R [[3; 1]]%R = Ok ve /\
    Likelihood.predict_density (Gaussian.logp (Gaussian.__init__ 2)) 20
      [[1; 0]]%R [[4; 0]]%R [[3; 1]]%R = Ok pd /\
    same_shape ve [[3; 1]]%R /\ same_shape pd [[3; 1]]%R /\
    forall i j v d, entry ve i j = Some v -> entry pd i j = Some d -> (v <= d)%R.
Proof.
  intros rt.
  apply (Likelihood_variational_expectations_le_density
           (Gaussian.logp (Gaussian.__init__ 2))
           (fun f y => -0.5 * (ln (2 * PI) + ln 2 + (f - y)² / 2))%R).
  - intros f y. reflexivity.
  - apply one_point_rule_positive.
  - repeat constructor.
  - repeat constructor.
Defined.
